(** * css-parser: decoder, input preprocessing and tokenizer

    A shallow embedding of [CodePoints.cpp] (byte stream to code points) and
    [Tokens.cpp] (code points to CSS tokens), with the properties of the
    natural-language specification stated over it.

    Conventions of the embedding.
    - A [CodePoint] wraps a C++ [unsigned]; it is a [Z] and every arithmetic
      result is wrapped with [u32].
    - [SizeType] indexes a vector that lives in memory; it is a [nat].
    - [inputStream[i]] on a [Vector] has no defined behaviour for
      [i >= size()].  Reads are [nth_error]; a read that misses yields
      [Undefined ReadPastEnd] instead of a value.
    - A function [bool F(in, SizeType& position, Buffer& output)] becomes a
      function to [Outcome (bool * SizeType * option T)]: the returned flag,
      the position left behind and the object constructed in [output]
      ([None] while the buffer is still raw storage).
    - [CSS_PARSER_ASSERT] only reports; it never changes control flow.
    - Loops that may move the cursor by more than one element per round
      take a fuel argument; the entry points pass the number of rounds the
      input can possibly need, and [CreateCodePointsStream_total] and
      [TokenizeCodePoints_terminates] show that this is enough. *)

From Stdlib Require Import ZArith List Bool Lia QArith.
From Stdlib Require Import Strings.Byte.
Import ListNotations.
Local Open Scope Z_scope.

(** ** Machine integers *)

Definition u8 (z : Z) : Z := z mod 2 ^ 8.
Definition u32 (z : Z) : Z := z mod 2 ^ 32.

(** [SizeType]: the index type of [Vector] and [StringView]. *)
Abbreviation SizeType := nat (only parsing).

(** ** Code points (CodePoints.h) *)

Definition CodePoint := Z.

Module CodePointValue.
Definition NULL_CODE_POINT : CodePoint := 0x0000.
Definition BACKSPACE : CodePoint := 0x0008.
Definition CHARACTER_TABULATION : CodePoint := 0x0009.
Definition LINE_FEED : CodePoint := 0x000A.
Definition LINE_TABULATION : CodePoint := 0x000B.
Definition FORM_FEED : CodePoint := 0x000C.
Definition CARRIAGE_RETURN : CodePoint := 0x000D.
Definition SHIFT_OUT : CodePoint := 0x000E.
Definition INFORMATION_SEPARATOR_ONE : CodePoint := 0x001F.
Definition SPACE : CodePoint := 0x0020.
Definition EXCLAMATION_MARK : CodePoint := 0x0021.
Definition QUOTATION_MARK : CodePoint := 0x0022.
Definition NUMBER_SIGN : CodePoint := 0x0023.
Definition PERCENTAGE_SIGN : CodePoint := 0x0025.
Definition APOSTROPHE : CodePoint := 0x0027.
Definition LEFT_PARENTHESIS : CodePoint := 0x0028.
Definition RIGHT_PARENTHESIS : CodePoint := 0x0029.
Definition ASTERISK : CodePoint := 0x002A.
Definition PLUS_SIGN : CodePoint := 0x002B.
Definition COMMA : CodePoint := 0x002C.
Definition HYPHEN_MINUS : CodePoint := 0x002D.
Definition FULL_STOP : CodePoint := 0x002E.
Definition SOLIDUS : CodePoint := 0x002F.
Definition ZERO : CodePoint := 0x0030.
Definition NINE : CodePoint := 0x0039.
Definition COLON : CodePoint := 0x003A.
Definition SEMI_COLON : CodePoint := 0x003B.
Definition LESS_THAN_SIGN : CodePoint := 0x003C.
Definition GREATER_THAN_SIGN : CodePoint := 0x003E.
Definition COMMERCIAL_AT : CodePoint := 0x0040.
Definition LATIN_CAPITAL_LETTER_A : CodePoint := 0x0041.
Definition LATIN_CAPITAL_LETTER_E : CodePoint := 0x0045.
Definition LATIN_CAPITAL_LETTER_F : CodePoint := 0x0046.
Definition LATIN_CAPITAL_LETTER_L : CodePoint := 0x004C.
Definition LATIN_CAPITAL_LETTER_R : CodePoint := 0x0052.
Definition LATIN_CAPITAL_LETTER_U : CodePoint := 0x0055.
Definition LATIN_CAPITAL_LETTER_Z : CodePoint := 0x005A.
Definition LEFT_SQUARE_BRACKET : CodePoint := 0x005B.
Definition REVERSE_SOLIDUS : CodePoint := 0x005C.
Definition RIGHT_SQUARE_BRACKET : CodePoint := 0x005D.
Definition LOW_LINE : CodePoint := 0x005F.
Definition LATIN_SMALL_LETTER_A : CodePoint := 0x0061.
Definition LATIN_SMALL_LETTER_E : CodePoint := 0x0065.
Definition LATIN_SMALL_LETTER_F : CodePoint := 0x0066.
Definition LATIN_SMALL_LETTER_L : CodePoint := 0x006C.
Definition LATIN_SMALL_LETTER_R : CodePoint := 0x0072.
Definition LATIN_SMALL_LETTER_U : CodePoint := 0x0075.
Definition LATIN_SMALL_LETTER_Z : CodePoint := 0x007A.
Definition LEFT_CURLY_BRACKET : CodePoint := 0x007B.
Definition RIGHT_CURLY_BRACKET : CodePoint := 0x007D.
Definition DELETE : CodePoint := 0x007F.
Definition CONTROL : CodePoint := 0x0080.
Definition REPLACEMENT : CodePoint := 0xFFFD.
Definition MAXIMUM_ALLOWED_CODE_POINT : CodePoint := 0x10FFFF.
End CodePointValue.
Import CodePointValue.

(** ** Code-point predicates (CodePoints.cpp) *)

Definition IsNewline (codePoint : CodePoint) : bool :=
  codePoint =? LINE_FEED.

Definition IsLeadingSurrogate (codePoint : CodePoint) : bool :=
  (0xD800 <=? codePoint) && (codePoint <=? 0xDBFF).

Definition IsTrailingSurrogate (codePoint : CodePoint) : bool :=
  (0xDC00 <=? codePoint) && (codePoint <=? 0xDFFF).

Definition IsSurrogate (codePoint : CodePoint) : bool :=
  IsLeadingSurrogate codePoint || IsTrailingSurrogate codePoint.

Definition IsScalarValue (codePoint : CodePoint) : bool :=
  negb (IsSurrogate codePoint).

Definition IsWhitespace (codePoint : CodePoint) : bool :=
  IsNewline codePoint
  || (codePoint =? CHARACTER_TABULATION)
  || (codePoint =? SPACE).

Definition IsDigit (codePoint : CodePoint) : bool :=
  (ZERO <=? codePoint) && (codePoint <=? NINE).

Definition IsHexDigit (codePoint : CodePoint) : bool :=
  IsDigit codePoint
  || ((LATIN_CAPITAL_LETTER_A <=? codePoint) && (codePoint <=? LATIN_CAPITAL_LETTER_F))
  || ((LATIN_SMALL_LETTER_A <=? codePoint) && (codePoint <=? LATIN_SMALL_LETTER_F)).

Definition IsUppercaseLetter (codePoint : CodePoint) : bool :=
  (LATIN_CAPITAL_LETTER_A <=? codePoint) && (codePoint <=? LATIN_CAPITAL_LETTER_Z).

Definition IsLowercaseLetter (codePoint : CodePoint) : bool :=
  (LATIN_SMALL_LETTER_A <=? codePoint) && (codePoint <=? LATIN_SMALL_LETTER_Z).

Definition IsLetter (codePoint : CodePoint) : bool :=
  IsUppercaseLetter codePoint || IsLowercaseLetter codePoint.

Definition IsNonASCII (codePoint : CodePoint) : bool :=
  CONTROL <=? codePoint.

Definition IsIdentStart (codePoint : CodePoint) : bool :=
  IsLetter codePoint || IsNonASCII codePoint || (codePoint =? LOW_LINE).

Definition IsIdent (codePoint : CodePoint) : bool :=
  IsIdentStart codePoint || IsDigit codePoint || (codePoint =? HYPHEN_MINUS).

Definition IsNonPrintable (codePoint : CodePoint) : bool :=
  ((NULL_CODE_POINT <=? codePoint) && (codePoint <=? BACKSPACE))
  || (codePoint =? LINE_TABULATION)
  || ((SHIFT_OUT <=? codePoint) && (codePoint <=? INFORMATION_SEPARATOR_ONE))
  || (codePoint =? DELETE).

(** ** Decoder and input preprocessing (CodePoints.cpp) *)

Inductive Encoding : Type := UTF8 | UTF16BE | UTF16LE | Count.

Definition Encoding_eqb (a b : Encoding) : bool :=
  match a, b with
  | UTF8, UTF8 | UTF16BE, UTF16BE | UTF16LE, UTF16LE | Count, Count => true
  | _, _ => false
  end.

(** [PushCodePoint]: the preprocessing filter.  It returns the new
    [isPreviousCarriageReturn] and the grown [output].  The last branch
    leaves the flag as it was, as the source does. *)
Definition PushCodePoint (codePoint : CodePoint) (isPreviousCarriageReturn : bool)
    (output : list CodePoint) : bool * list CodePoint :=
  if codePoint =? FORM_FEED then (false, output ++ [LINE_FEED])
  else if codePoint =? CARRIAGE_RETURN then (true, output ++ [LINE_FEED])
  else if codePoint =? LINE_FEED then
    (false, if negb isPreviousCarriageReturn then output ++ [LINE_FEED] else output)
  else if codePoint =? NULL_CODE_POINT then (false, output ++ [REPLACEMENT])
  else (isPreviousCarriageReturn, output ++ [codePoint]).

Section Decoder.

(** Whether plain [char] is a signed type is left to the C++
    implementation; [StringView] yields [char], and [BOMSniff] compares
    such values with [int] constants. *)
Variable char_is_signed : bool.

(** The value of the [char] read from the buffer, after integer promotion. *)
Definition char_value (b : byte) : Z :=
  let n := Z.of_N (Byte.to_N b) in
  if char_is_signed && (128 <=? n) then n - 256 else n.

Definition BOMSniff (ioQueue : list byte) (position : SizeType) : Encoding :=
  if (length ioQueue <? position + 3)%nat then Count
  else
    match nth_error ioQueue position,
          nth_error ioQueue (position + 1),
          nth_error ioQueue (position + 2) with
    | Some b0, Some b1, Some b2 =>
        let BOM0 := char_value b0 in
        let BOM1 := char_value b1 in
        let BOM2 := char_value b2 in
        if BOM0 =? 0xEF then
          if (BOM1 =? 0xBB) && (BOM2 =? 0xBF) then UTF8 else Count
        else if BOM0 =? 0xFE then
          if BOM1 =? 0xFF then UTF16BE else Count
        else if BOM0 =? 0xFF then
          if BOM1 =? 0xFE then UTF16LE else Count
        else Count
    | _, _, _ => Count
    end.

(** The [while] loop of [UTF8Decode] together with the code after it.
    One unit of fuel is one pass through the loop condition. *)
Fixpoint UTF8Decode_loop (fuel : nat) (input : list byte) (inputPosition : SizeType)
    (codePoint bytesSeen bytesNeeded lowerBoundary upperBoundary : Z)
    (isPreviousCarriageReturn : bool) (output : list CodePoint)
    : option (SizeType * list CodePoint) :=
  match fuel with
  | O => None
  | S fuel =>
    match nth_error input inputPosition with
    | None =>
        if negb (bytesNeeded =? 0) then
          Some (inputPosition, snd (PushCodePoint REPLACEMENT isPreviousCarriageReturn output))
        else Some (inputPosition, output)
    | Some c =>
        let byte := u8 (char_value c) in
        if byte =? 0 then
          if negb (bytesNeeded =? 0) then
            Some (inputPosition, snd (PushCodePoint REPLACEMENT isPreviousCarriageReturn output))
          else Some (inputPosition, output)
        else if bytesNeeded =? 0 then
          if (0x00 <=? byte) && (byte <=? 0x7F) then
            let '(cr, out) := PushCodePoint byte isPreviousCarriageReturn output in
            UTF8Decode_loop fuel input (S inputPosition)
              codePoint bytesSeen bytesNeeded lowerBoundary upperBoundary cr out
          else if (0xC2 <=? byte) && (byte <=? 0xDF) then
            UTF8Decode_loop fuel input (S inputPosition)
              (Z.land byte 0x1F) bytesSeen 1 lowerBoundary upperBoundary
              isPreviousCarriageReturn output
          else if (0xE0 <=? byte) && (byte <=? 0xEF) then
            let lowerBoundary' := if byte =? 0xE0 then 0xA0 else lowerBoundary in
            let upperBoundary' :=
              if byte =? 0xE0 then upperBoundary
              else if byte =? 0xED then 0x9F else upperBoundary in
            UTF8Decode_loop fuel input (S inputPosition)
              (Z.land byte 0xF) bytesSeen 2 lowerBoundary' upperBoundary'
              isPreviousCarriageReturn output
          else if (0xF0 <=? byte) && (byte <=? 0xF4) then
            let lowerBoundary' := if byte =? 0xF0 then 0x90 else lowerBoundary in
            let upperBoundary' :=
              if byte =? 0xF0 then upperBoundary
              else if byte =? 0xF4 then 0x8F else upperBoundary in
            UTF8Decode_loop fuel input (S inputPosition)
              (Z.land byte 0x7) bytesSeen 3 lowerBoundary' upperBoundary'
              isPreviousCarriageReturn output
          else
            let '(cr, out) := PushCodePoint REPLACEMENT isPreviousCarriageReturn output in
            UTF8Decode_loop fuel input (S inputPosition)
              codePoint bytesSeen bytesNeeded lowerBoundary upperBoundary cr out
        else if (byte <? lowerBoundary) || (upperBoundary <? byte) then
          let '(cr, out) := PushCodePoint REPLACEMENT isPreviousCarriageReturn output in
          UTF8Decode_loop fuel input inputPosition 0 0 0 0x80 0xBF cr out
        else
          let codePoint' := u32 (Z.lor (u32 (Z.shiftl codePoint 6)) (Z.land byte 0x3F)) in
          let bytesSeen' := u8 (bytesSeen + 1) in
          if negb (bytesSeen' =? bytesNeeded) then
            UTF8Decode_loop fuel input (S inputPosition)
              codePoint' bytesSeen' bytesNeeded 0x80 0xBF isPreviousCarriageReturn output
          else
            let '(cr, out) := PushCodePoint codePoint' isPreviousCarriageReturn output in
            UTF8Decode_loop fuel input (S inputPosition) 0 0 0 0x80 0xBF cr out
    end
  end.

(** A byte is looked at twice at most (once rejected as a continuation
    byte, once as a leading byte), and the loop condition is evaluated a
    last time at the end of the input. *)
Definition UTF8Decode_fuel (input : list byte) (inputPosition : SizeType) : nat :=
  (2 * (length input - inputPosition) + 1)%nat.

Definition UTF8Decode (input : list byte) (inputPosition : SizeType)
    (output : list CodePoint) : option (SizeType * list CodePoint) :=
  UTF8Decode_loop (UTF8Decode_fuel input inputPosition) input inputPosition
    0 0 0 0x80 0xBF false output.

(** [CreateCodePointsStream text size output]: the buffer is the list
    [text] and [size] its length.  The result is the returned flag and
    the content of [output] afterwards; [None] only if the decoding loop
    were cut short by its fuel, which [CreateCodePointsStream_total]
    rules out. *)
Definition CreateCodePointsStream (text : list byte) (output : list CodePoint)
    : option (bool * list CodePoint) :=
  let ioQueue := text in
  let ioQueuePosition := 0%nat in
  let BOMEncoding := BOMSniff ioQueue ioQueuePosition in
  let decode (ioQueuePosition : SizeType) :=
    match UTF8Decode ioQueue ioQueuePosition [] with
    | Some (_, out) => Some (true, out)
    | None => None
    end in
  if negb (Encoding_eqb BOMEncoding Count) then
    if negb (Encoding_eqb BOMEncoding UTF8) then Some (false, output)
    else decode (ioQueuePosition + 3)%nat
  else decode ioQueuePosition.

End Decoder.

(** ** Outcomes of the tokenizer's routines *)

(** What the C++ leaves undefined and the source can reach. *)
Inductive UB : Type :=
| ReadPastEnd          (* [v[i]] with [i >= v.size()] *)
| UninitialisedRead    (* an object read out of raw storage nobody constructed *)
| SignedOverflow.      (* [int64_t] arithmetic out of range *)

Inductive Outcome (A : Type) : Type :=
| Defined (a : A)
| Undefined (u : UB)
| OutOfFuel.
Arguments Defined {A} a.
Arguments Undefined {A} u.
Arguments OutOfFuel {A}.

Definition bind {A B : Type} (m : Outcome A) (k : A -> Outcome B) : Outcome B :=
  match m with
  | Defined a => k a
  | Undefined u => Undefined u
  | OutOfFuel => OutOfFuel
  end.

Notation "x <- m ;; k" := (bind m (fun x => k))
  (at level 61, m at next level, right associativity).
Notation "' p <- m ;; k" := (bind m (fun p => k))
  (at level 61, p pattern, m at next level, right associativity).

(** [inputStream[i]], unguarded. *)
Definition read (inputStream : list CodePoint) (i : SizeType) : Outcome CodePoint :=
  match nth_error inputStream i with
  | Some c => Defined c
  | None => Undefined ReadPastEnd
  end.

(** [i < inputStream.size() && p(inputStream[i])]. *)
Definition test_at (p : CodePoint -> bool) (inputStream : list CodePoint) (i : SizeType) : bool :=
  match nth_error inputStream i with
  | Some c => p c
  | None => false
  end.

(** [while (position < size && p(inputStream[position])) ++position;]
    over [rest], the input from [position] on. *)
Fixpoint advance_while (p : CodePoint -> bool) (rest : list CodePoint)
    (position : SizeType) : SizeType :=
  match rest with
  | c :: rest' => if p c then advance_while p rest' (S position) else position
  | [] => position
  end.

(** [while (position < size && p(inputStream[position]))
      repr.push_back(inputStream[position++]);] *)
Fixpoint push_while (p : CodePoint -> bool) (rest : list CodePoint)
    (position : SizeType) (repr : list CodePoint) : SizeType * list CodePoint :=
  match rest with
  | c :: rest' => if p c then push_while p rest' (S position) (repr ++ [c]) else (position, repr)
  | [] => (position, repr)
  end.

(** Rounds a cursor loop can take from [position]: one per remaining code
    point and the last test of its condition. *)
Definition rounds (inputStream : list CodePoint) (position : SizeType) : nat :=
  S (length inputStream - position).

(** ** Tokens (Tokens.h) *)

(** The operands of
    [double(s * (i + f * std::pow(10, d)) * std::pow(10, t * e))];
    [t * e] is an [int] times an [unsigned], hence the [unsigned] product
    [te]. *)
Record DoubleExpr : Type := mkDoubleExpr {
  expr_s : Z; expr_i : Z; expr_f : Z; expr_d : Z; expr_te : Z }.

(** The object constructed inside [FixedArray<Byte, BYTES_FOR_VALUE>]. *)
Inductive NumberBytes : Type :=
| AsInt64 (resultNum : Z)
| AsDouble (x : DoubleExpr).

Record HashTokenValue : Type := mkHashTokenValue {
  hash_Value : list CodePoint; hash_IsID : bool }.

Record NumberTokenValue : Type := mkNumberTokenValue {
  number_Value : NumberBytes; number_IsInteger : bool }.

Record DimensionTokenValue : Type := mkDimensionTokenValue {
  dimension_Number : NumberTokenValue; dimension_Unit : list CodePoint }.

(** [Token]: the [TokenType] tag with the alternative of [m_Value] that the
    factory of that type fills in. *)
Inductive Token : Type :=
| Ident (value : list CodePoint)
| Function (value : list CodePoint)
| AtKeyword (value : list CodePoint)
| Hash (value : HashTokenValue)
| String (value : list CodePoint)
| BadString
| URL (value : list CodePoint)
| BadURL
| Delim (value : CodePoint)
| Number (value : NumberTokenValue)
| Percentage (value : NumberTokenValue)
| Dimension (value : DimensionTokenValue)
| Whitespace
| CDO
| CDC
| Colon
| SemiColon
| Comma
| LeftSquareBracket
| RightSquareBracket
| LeftParenthesis
| RightParenthesis
| LeftCurlyBracket
| RightCurlyBracket.

(** ** Tokenizer (Tokens.cpp) *)

(** The [for] loop of [ConsumeComments] over [rest], the input from
    [position] on. *)
Fixpoint ConsumeComments_scan (rest : list CodePoint) (position : SizeType)
    (isPreviousAsterisk : bool) : bool * SizeType :=
  match rest with
  | [] => (false, position)
  | codePoint :: rest' =>
      if codePoint =? ASTERISK then ConsumeComments_scan rest' (S position) true
      else if (codePoint =? SOLIDUS) && isPreviousAsterisk then (true, S position)
      else ConsumeComments_scan rest' (S position) false
  end.

Definition ConsumeComments (inputStream : list CodePoint) (position : SizeType)
    : bool * SizeType :=
  if (length inputStream <=? position + 1)%nat then (true, position)
  else if negb (test_at (fun c => c =? SOLIDUS) inputStream position)
          || negb (test_at (fun c => c =? ASTERISK) inputStream (position + 1))
  then (true, position)
  else ConsumeComments_scan (skipn position inputStream) position false.

Definition ConsumeWhitespace (inputStream : list CodePoint) (position : SizeType)
    : SizeType * Token :=
  (advance_while IsWhitespace (skipn position inputStream) position, Whitespace).

Definition HexDigitToNumber (codePoint : CodePoint) : Z :=
  if IsDigit codePoint then u32 (codePoint - ZERO)
  else if IsLowercaseLetter codePoint then u32 (u32 (10 + codePoint) - LATIN_SMALL_LETTER_A)
  else u32 (u32 (10 + codePoint) - LATIN_CAPITAL_LETTER_A).

(** [for (i = 0; i < count; ++i)] of [HexSequenceToCodePoint], from index [i]. *)
Fixpoint HexSequenceToCodePoint_loop (count : nat) (inputStream : list CodePoint)
    (i : SizeType) (resultBytes : Z) : Outcome CodePoint :=
  match count with
  | O => Defined resultBytes
  | S count' =>
      codePoint <- read inputStream i ;;
      let asNumber := HexDigitToNumber codePoint in
      HexSequenceToCodePoint_loop count' inputStream (S i)
        (Z.lor (u32 (Z.shiftl resultBytes 4)) asNumber)
  end.

Definition HexSequenceToCodePoint (inputStream : list CodePoint) (start count : SizeType)
    : Outcome CodePoint :=
  HexSequenceToCodePoint_loop count inputStream start 0.

(** [for (; consumed < 5; ++consumed)] of [ConsumeEscapedCodePoint];
    [left] is [5 - consumed]. *)
Fixpoint ConsumeEscapedCodePoint_hex (left : nat) (inputStream : list CodePoint)
    (position consumed : SizeType) : Outcome (SizeType * SizeType) :=
  match left with
  | O => Defined (position, consumed)
  | S left' =>
      c <- read inputStream position ;;
      if negb (IsHexDigit c) then Defined (position, consumed)
      else ConsumeEscapedCodePoint_hex left' inputStream (S position) (S consumed)
  end.

Definition ConsumeEscapedCodePoint (inputStream : list CodePoint) (position : SizeType)
    : Outcome (bool * SizeType * option CodePoint) :=
  let startPosition := position in
  if (position =? length inputStream)%nat then Defined (false, position, Some REPLACEMENT)
  else
    codePoint <- read inputStream position ;;
    let position := S position in
    if IsHexDigit codePoint then
      '(position, consumed) <- ConsumeEscapedCodePoint_hex 5 inputStream position 0%nat ;;
      c <- read inputStream position ;;
      let position := if IsWhitespace c then S position else position in
      asNumber <- HexSequenceToCodePoint inputStream startPosition (consumed + 1)%nat ;;
      if (asNumber =? ZERO) || IsSurrogate asNumber || (MAXIMUM_ALLOWED_CODE_POINT <? asNumber)
      then Defined (true, position, Some REPLACEMENT)
      else Defined (true, position, Some asNumber)
    else Defined (true, position, Some codePoint).

Fixpoint ConsumeStringToken_loop (fuel : nat) (inputStream : list CodePoint)
    (position : SizeType) (endingCodePoint : CodePoint) (value : list CodePoint)
    : Outcome (bool * SizeType * option Token) :=
  match fuel with
  | O => OutOfFuel
  | S fuel =>
    match nth_error inputStream position with
    | None => Defined (false, position, Some (String value))
    | Some nextCodePoint =>
        let position := S position in
        if nextCodePoint =? endingCodePoint then
          Defined (true, position, Some (String value))
        else if IsNewline nextCodePoint then
          Defined (false, (position - 1)%nat, Some BadString)
        else if nextCodePoint =? REVERSE_SOLIDUS then
          if (position =? length inputStream)%nat then
            ConsumeStringToken_loop fuel inputStream position endingCodePoint value
          else
            nextCodePoint' <- read inputStream position ;;
            if IsNewline nextCodePoint' then
              ConsumeStringToken_loop fuel inputStream (S position) endingCodePoint value
            else
              '(ok, position, escapedCodePointRaw) <- ConsumeEscapedCodePoint inputStream position ;;
              if negb ok then Defined (false, position, None)
              else
                match escapedCodePointRaw with
                | Some c =>
                    ConsumeStringToken_loop fuel inputStream position endingCodePoint (value ++ [c])
                | None => Undefined UninitialisedRead
                end
        else
          ConsumeStringToken_loop fuel inputStream position endingCodePoint (value ++ [nextCodePoint])
    end
  end.

Definition ConsumeStringToken (inputStream : list CodePoint) (position : SizeType)
    (endingCodePoint : CodePoint) : Outcome (bool * SizeType * option Token) :=
  ConsumeStringToken_loop (rounds inputStream position) inputStream position endingCodePoint [].

Definition AreTwoCodePointsValidEscape (inputStream : list CodePoint) (position : SizeType)
    : bool :=
  if (length inputStream <=? position + 1)%nat then false
  else if negb (test_at (fun c => c =? REVERSE_SOLIDUS) inputStream position) then false
  else test_at (fun c => negb (IsNewline c)) inputStream (position + 1).

Definition DoThreeCodePointsStartIndentSequence (inputStream : list CodePoint)
    (position : SizeType) : bool :=
  if (length inputStream <=? position + 2)%nat then false
  else
    match nth_error inputStream position with
    | None => false
    | Some firstCodePoint =>
        if firstCodePoint =? HYPHEN_MINUS then
          test_at IsIdentStart inputStream (position + 1)
          || test_at (fun c => c =? HYPHEN_MINUS) inputStream (position + 1)
          || AreTwoCodePointsValidEscape inputStream (position + 1)
        else if firstCodePoint =? REVERSE_SOLIDUS then
          AreTwoCodePointsValidEscape inputStream position
        else IsIdentStart firstCodePoint
    end.

Fixpoint ConsumeIdentSequence_loop (fuel : nat) (inputStream : list CodePoint)
    (position : SizeType) (resultLocal : list CodePoint)
    : Outcome (bool * SizeType * option (list CodePoint)) :=
  match fuel with
  | O => OutOfFuel
  | S fuel =>
    match nth_error inputStream position with
    | None => Defined (true, position, Some resultLocal)
    | Some nextCodePoint =>
        if IsIdent nextCodePoint then
          ConsumeIdentSequence_loop fuel inputStream (S position) (resultLocal ++ [nextCodePoint])
        else if AreTwoCodePointsValidEscape inputStream position then
          '(ok, position, escapedCodePoint) <- ConsumeEscapedCodePoint inputStream (S position) ;;
          if negb ok then Defined (false, position, None)
          else
            match escapedCodePoint with
            | Some c => ConsumeIdentSequence_loop fuel inputStream position (resultLocal ++ [c])
            | None => Undefined UninitialisedRead
            end
        else Defined (true, position, Some resultLocal)
    end
  end.

(** The third component is what [result] is assigned; [None] when the
    function returns before the assignment. *)
Definition ConsumeIdentSequence (inputStream : list CodePoint) (position : SizeType)
    : Outcome (bool * SizeType * option (list CodePoint)) :=
  ConsumeIdentSequence_loop (rounds inputStream position) inputStream position [].

Definition DoThreeCodePointsStartNumber (inputStream : list CodePoint) (position : SizeType)
    : bool :=
  match nth_error inputStream position with
  | None => false
  | Some firstCodePoint =>
      if (firstCodePoint =? PLUS_SIGN) || (firstCodePoint =? HYPHEN_MINUS) then
        if test_at IsDigit inputStream (position + 1) then true
        else (position + 2 <? length inputStream)%nat
             && test_at (fun c => c =? FULL_STOP) inputStream (position + 1)
             && test_at IsDigit inputStream (position + 2)
      else if firstCodePoint =? FULL_STOP then
        test_at IsDigit inputStream (position + 1)
      else IsDigit firstCodePoint
  end.

(** *** Numbers *)

Definition in_int64 (z : Z) : bool := (- 2 ^ 63 <=? z) && (z <? 2 ^ 63).

(** The [for (SizeType i = position; i-- > start;)] loop of the lambda
    [InterpretAsBase10Number]: [count] indices are left, the next one is
    [start + count - 1]. *)
Fixpoint InterpretAsBase10Number_sum (count : nat) (string : list CodePoint)
    (start : SizeType) (result base : Z) : Outcome Z :=
  match count with
  | O => Defined result
  | S count' =>
      c <- read string (start + count') ;;
      InterpretAsBase10Number_sum count' string start
        (u32 (result + u32 (u32 (c - ZERO) * base))) (u32 (base * 10))
  end.

(** The lambda returns its [unsigned] result; [position] is advanced and
    the digit count is what [*numDigits] would receive. *)
Definition InterpretAsBase10Number (string : list CodePoint) (position : SizeType)
    : Outcome (SizeType * Z * Z) :=
  let start := position in
  let position := S position in
  let position := advance_while IsDigit (skipn position string) position in
  let numDigits := u32 (Z.of_nat (position - start)) in
  result <- InterpretAsBase10Number_sum (position - start) string start 0 1 ;;
  Defined (position, numDigits, result).

(** [for (int64_t j = 0; j < e; ++j) exponentPow *= 10;] *)
Fixpoint exponentPow_loop (e : nat) (exponentPow : Z) : Outcome Z :=
  match e with
  | O => Defined exponentPow
  | S e' =>
      let exponentPow := exponentPow * 10 in
      if in_int64 exponentPow then exponentPow_loop e' exponentPow
      else Undefined SignedOverflow
  end.

Definition ConvertStringToNumber (string : list CodePoint) : Outcome NumberBytes :=
  let position := 0%nat in
  c <- read string position ;;
  let '(s, position) :=
    if c =? PLUS_SIGN then (1, S position)
    else if c =? HYPHEN_MINUS then (-1, S position)
    else (1, position) in
  c <- read string position ;;
  '(position, i) <-
    (if IsDigit c then
       '(position, _, result) <- InterpretAsBase10Number string position ;;
       Defined (position, result)
     else Defined (position, 0)) ;;
  let '(isInteger, position) :=
    if test_at (fun c => c =? FULL_STOP) string position then (false, S position)
    else (true, position) in
  '(position, d, f) <-
    (if test_at IsDigit string position then InterpretAsBase10Number string position
     else Defined (position, 0, 0)) ;;
  let position :=
    if test_at (fun c => (c =? LATIN_CAPITAL_LETTER_E) || (c =? LATIN_SMALL_LETTER_E))
         string position
    then S position else position in
  let '(t, isInteger, position) :=
    if test_at (fun c => c =? PLUS_SIGN) string position then (1, isInteger, S position)
    else if test_at (fun c => c =? HYPHEN_MINUS) string position then (-1, false, S position)
    else (1, isInteger, position) in
  '(position, d, e) <-
    (if test_at IsDigit string position then InterpretAsBase10Number string position
     else Defined (position, d, 0)) ;;
  if isInteger then
    let resultNum := s * i in
    exponentPow <- exponentPow_loop (Z.to_nat e) 1 ;;
    let resultNum := resultNum * exponentPow in
    if in_int64 resultNum then Defined (AsInt64 resultNum)
    else Undefined SignedOverflow
  else
    Defined (AsDouble (mkDoubleExpr s i f d (u32 (t * e)))).

Definition ConsumeNumber (inputStream : list CodePoint) (position : SizeType)
    : Outcome (bool * SizeType * option NumberTokenValue) :=
  if (position =? length inputStream)%nat then Defined (false, position, None)
  else
    nextCodePoint <- read inputStream position ;;
    let '(position, repr) :=
      if (nextCodePoint =? PLUS_SIGN) || (nextCodePoint =? HYPHEN_MINUS)
      then (S position, [nextCodePoint]) else (position, []) in
    let '(position, repr) := push_while IsDigit (skipn position inputStream) position repr in
    let '(isInteger, position, repr) :=
      match nth_error inputStream position, nth_error inputStream (position + 1) with
      | Some c0, Some c1 =>
          if (c0 =? FULL_STOP) && IsDigit c1 then
            let '(position, repr) :=
              push_while IsDigit (skipn (position + 2) inputStream) (position + 2)
                (repr ++ [c0; c1]) in
            (false, position, repr)
          else (true, position, repr)
      | _, _ => (true, position, repr)
      end in
    let '(isInteger, position, repr) :=
      match nth_error inputStream position, nth_error inputStream (position + 1) with
      | Some c0, Some c1 =>
          if (c0 =? LATIN_CAPITAL_LETTER_E) || (c0 =? LATIN_SMALL_LETTER_E) then
            if (c1 =? PLUS_SIGN) || (c1 =? HYPHEN_MINUS) then
              match nth_error inputStream (position + 2) with
              | Some c2 =>
                  if IsDigit c2 then
                    let '(position, repr) :=
                      push_while IsDigit (skipn (position + 3) inputStream) (position + 3)
                        (repr ++ [c0; c1; c2]) in
                    (false, position, repr)
                  else (isInteger, position, repr)
              | None => (isInteger, position, repr)
              end
            else if IsDigit c1 then
              let '(position, repr) :=
                push_while IsDigit (skipn (position + 2) inputStream) (position + 2)
                  (repr ++ [c0; c1]) in
              (false, position, repr)
            else (isInteger, position, repr)
          else (isInteger, position, repr)
      | _, _ => (isInteger, position, repr)
      end in
    value <- ConvertStringToNumber repr ;;
    Defined (true, position, Some (mkNumberTokenValue value isInteger)).

Definition ConsumeNumericToken (inputStream : list CodePoint) (position : SizeType)
    : Outcome (bool * SizeType * option Token) :=
  '(ok, position, number) <- ConsumeNumber inputStream position ;;
  if negb ok then Defined (false, position, None)
  else
    match number with
    | None => Undefined UninitialisedRead
    | Some number =>
        if DoThreeCodePointsStartIndentSequence inputStream position then
          '(ok, position, unit) <- ConsumeIdentSequence inputStream position ;;
          if negb ok then Defined (false, position, None)
          else
            match unit with
            | Some unit =>
                Defined (true, position, Some (Dimension (mkDimensionTokenValue number unit)))
            | None => Undefined UninitialisedRead
            end
        else
          c <- read inputStream position ;;
          if c =? PERCENTAGE_SIGN then Defined (true, S position, Some (Percentage number))
          else Defined (true, position, Some (Number number))
    end.

(** *** URLs and ident-like tokens *)

Fixpoint ConsumeRemnantsOfBadURL_loop (fuel : nat) (inputStream : list CodePoint)
    (position : SizeType) : Outcome (bool * SizeType) :=
  match fuel with
  | O => OutOfFuel
  | S fuel =>
    match nth_error inputStream position with
    | None => Defined (true, position)
    | Some c =>
        if c =? RIGHT_PARENTHESIS then Defined (true, position)
        else if AreTwoCodePointsValidEscape inputStream position then
          '(ok, position, _) <- ConsumeEscapedCodePoint inputStream position ;;
          if negb ok then Defined (false, position)
          else ConsumeRemnantsOfBadURL_loop fuel inputStream (S position)
        else ConsumeRemnantsOfBadURL_loop fuel inputStream (S position)
    end
  end.

Definition ConsumeRemnantsOfBadURL (inputStream : list CodePoint) (position : SizeType)
    : Outcome (bool * SizeType) :=
  ConsumeRemnantsOfBadURL_loop (rounds inputStream position) inputStream position.

(** The three places of [ConsumeURL] that end in a bad URL. *)
Definition ConsumeURL_bad (inputStream : list CodePoint) (position : SizeType)
    : Outcome (bool * SizeType * option Token) :=
  '(ok, position) <- ConsumeRemnantsOfBadURL inputStream position ;;
  if negb ok then Defined (false, position, None)
  else Defined (true, position, Some BadURL).

Fixpoint ConsumeURL_loop (fuel : nat) (inputStream : list CodePoint)
    (position : SizeType) (value : list CodePoint)
    : Outcome (bool * SizeType * option Token) :=
  match fuel with
  | O => OutOfFuel
  | S fuel =>
    match nth_error inputStream position with
    | None => Defined (false, position, None)
    | Some next =>
        let position := S position in
        if next =? RIGHT_PARENTHESIS then Defined (true, position, Some (URL value))
        else if IsWhitespace next then
          let position := advance_while IsWhitespace (skipn position inputStream) position in
          if (position =? length inputStream)%nat then Defined (false, position, None)
          else
            c <- read inputStream position ;;
            if c =? RIGHT_PARENTHESIS then Defined (true, S position, Some (URL value))
            else ConsumeURL_bad inputStream position
        else if (next =? QUOTATION_MARK) || (next =? APOSTROPHE)
                || (next =? LEFT_PARENTHESIS) || IsNonPrintable next then
          ConsumeURL_bad inputStream position
        else if next =? REVERSE_SOLIDUS then
          if AreTwoCodePointsValidEscape inputStream (position - 1) then
            '(ok, position, escapedCodePoint) <- ConsumeEscapedCodePoint inputStream position ;;
            if negb ok then Defined (false, position, None)
            else
              match escapedCodePoint with
              | Some c => ConsumeURL_loop fuel inputStream position (value ++ [c])
              | None => Undefined UninitialisedRead
              end
          else ConsumeURL_bad inputStream position
        else ConsumeURL_loop fuel inputStream position (value ++ [next])
    end
  end.

Definition ConsumeURL (inputStream : list CodePoint) (position : SizeType)
    : Outcome (bool * SizeType * option Token) :=
  let position := advance_while IsWhitespace (skipn position inputStream) position in
  ConsumeURL_loop (rounds inputStream position) inputStream position [].

(** [while (position + 1 < size && IsWhitespace(inputStream[position])
           && IsWhitespace(inputStream[position + 1])) ++position;] *)
Fixpoint ConsumeIdentLikeToken_skip (rest : list CodePoint) (position : SizeType) : SizeType :=
  match rest with
  | c0 :: rest' =>
      match rest' with
      | c1 :: _ =>
          if IsWhitespace c0 && IsWhitespace c1
          then ConsumeIdentLikeToken_skip rest' (S position) else position
      | [] => position
      end
  | [] => position
  end.

(** The test [string.size() == 3 && ...] on the consumed name. *)
Definition is_url (string : list CodePoint) : bool :=
  match string with
  | [c0; c1; c2] =>
      ((c0 =? LATIN_SMALL_LETTER_U) || (c0 =? LATIN_CAPITAL_LETTER_U))
      && ((c1 =? LATIN_SMALL_LETTER_R) || (c1 =? LATIN_CAPITAL_LETTER_R))
      && ((c2 =? LATIN_SMALL_LETTER_L) || (c2 =? LATIN_CAPITAL_LETTER_L))
  | _ => false
  end.

Definition ConsumeIdentLikeToken (inputStream : list CodePoint) (position : SizeType)
    : Outcome (bool * SizeType * option Token) :=
  '(ok, position, string) <- ConsumeIdentSequence inputStream position ;;
  if negb ok then Defined (false, position, None)
  else
    match string with
    | None => Undefined UninitialisedRead
    | Some string =>
        if is_url string && test_at (fun c => c =? LEFT_PARENTHESIS) inputStream position then
          let position := S position in
          let position := ConsumeIdentLikeToken_skip (skipn position inputStream) position in
          let isFunction :=
            match nth_error inputStream position, nth_error inputStream (position + 1) with
            | Some next, Some afterNext =>
                ((next =? QUOTATION_MARK) && (afterNext =? APOSTROPHE))
                || (IsWhitespace next
                    && ((afterNext =? QUOTATION_MARK) || (afterNext =? APOSTROPHE)))
            | _, _ => false
            end in
          if isFunction then Defined (true, position, Some (Function string))
          else ConsumeURL inputStream position
        else if test_at (fun c => c =? LEFT_PARENTHESIS) inputStream position then
          Defined (true, position, Some (Function string))
        else Defined (true, position, Some (Ident string))
    end.

(** *** Dispatch *)

Definition ConsumeToken (inputStream : list CodePoint) (position : SizeType)
    : Outcome (bool * SizeType * option Token) :=
  let '(ok, position) := ConsumeComments inputStream position in
  if negb ok then Defined (false, position, None)
  else if (position =? length inputStream)%nat then Defined (true, position, None)
  else
    nextCodePoint <- read inputStream position ;;
    let position := S position in
    if IsWhitespace nextCodePoint then
      let '(position, token) := ConsumeWhitespace inputStream position in
      Defined (true, position, Some token)
    else if nextCodePoint =? QUOTATION_MARK then
      ConsumeStringToken inputStream position nextCodePoint
    else if nextCodePoint =? NUMBER_SIGN then
      nextCodePoint' <- read inputStream position ;;
      if IsIdent nextCodePoint' || AreTwoCodePointsValidEscape inputStream position then
        let isID := DoThreeCodePointsStartIndentSequence inputStream position in
        '(ok, position, ident) <- ConsumeIdentSequence inputStream position ;;
        if negb ok then Defined (false, position, None)
        else
          match ident with
          | Some ident => Defined (true, position, Some (Hash (mkHashTokenValue ident isID)))
          | None => Undefined UninitialisedRead
          end
      else Defined (true, position, Some (Delim nextCodePoint))
    else if nextCodePoint =? APOSTROPHE then
      ConsumeStringToken inputStream position nextCodePoint
    else if nextCodePoint =? LEFT_PARENTHESIS then
      Defined (true, position, Some LeftParenthesis)
    else if nextCodePoint =? RIGHT_PARENTHESIS then
      Defined (true, position, Some RightParenthesis)
    else if nextCodePoint =? PLUS_SIGN then
      if DoThreeCodePointsStartNumber inputStream (position - 1) then
        ConsumeNumericToken inputStream (position - 1)
      else Defined (true, position, Some (Delim nextCodePoint))
    else if nextCodePoint =? COMMA then
      Defined (true, position, Some Comma)
    else if nextCodePoint =? HYPHEN_MINUS then
      if DoThreeCodePointsStartNumber inputStream (position - 1) then
        ConsumeNumericToken inputStream (position - 1)
      else if test_at (fun c => c =? HYPHEN_MINUS) inputStream position
              && test_at (fun c => c =? GREATER_THAN_SIGN) inputStream (position + 1) then
        Defined (true, (position + 2)%nat, Some CDC)
      else if DoThreeCodePointsStartIndentSequence inputStream (position - 1) then
        ConsumeIdentLikeToken inputStream (position - 1)
      else Defined (true, position, Some (Delim nextCodePoint))
    else if nextCodePoint =? FULL_STOP then
      if DoThreeCodePointsStartNumber inputStream (position - 1) then
        ConsumeNumericToken inputStream (position - 1)
      else Defined (true, position, Some (Delim nextCodePoint))
    else if nextCodePoint =? COLON then
      Defined (true, position, Some Colon)
    else if nextCodePoint =? SEMI_COLON then
      Defined (true, position, Some SemiColon)
    else if nextCodePoint =? LESS_THAN_SIGN then
      if test_at (fun c => c =? EXCLAMATION_MARK) inputStream position
         && test_at (fun c => c =? HYPHEN_MINUS) inputStream (position + 1)
         && test_at (fun c => c =? HYPHEN_MINUS) inputStream (position + 2) then
        Defined (true, (position + 3)%nat, Some CDO)
      else Defined (true, position, Some (Delim nextCodePoint))
    else if nextCodePoint =? COMMERCIAL_AT then
      if DoThreeCodePointsStartIndentSequence inputStream (position - 1) then
        '(ok, position, ident) <- ConsumeIdentSequence inputStream (position - 1) ;;
        if negb ok then Defined (false, position, None)
        else
          match ident with
          | Some ident => Defined (true, position, Some (AtKeyword ident))
          | None => Undefined UninitialisedRead
          end
      else Defined (true, position, Some (Delim nextCodePoint))
    else if nextCodePoint =? LEFT_SQUARE_BRACKET then
      Defined (true, position, Some LeftSquareBracket)
    else if nextCodePoint =? LEFT_CURLY_BRACKET then
      Defined (true, position, Some LeftCurlyBracket)
    else if nextCodePoint =? RIGHT_CURLY_BRACKET then
      Defined (true, position, Some RightCurlyBracket)
    else if IsDigit nextCodePoint then
      ConsumeNumericToken inputStream (position - 1)
    else if IsIdentStart nextCodePoint then
      ConsumeIdentLikeToken inputStream (position - 1)
    else Defined (true, position, Some (Delim nextCodePoint)).

(** The loop of [TokenizeCodePoints].  The tokens go straight into
    [output] ([outputLocal] is never used), so a failing run leaves in
    [output] what it had pushed. *)
Fixpoint TokenizeCodePoints_loop (fuel : nat) (inputStream : list CodePoint)
    (position : SizeType) (output : list Token) : Outcome (bool * list Token) :=
  match fuel with
  | O => OutOfFuel
  | S fuel =>
    if (position <? length inputStream)%nat then
      '(ok, position, token) <- ConsumeToken inputStream position ;;
      if negb ok then Defined (false, output)
      else
        match token with
        | Some token => TokenizeCodePoints_loop fuel inputStream position (output ++ [token])
        | None => Undefined UninitialisedRead
        end
    else Defined (true, output)
  end.

Definition TokenizeCodePoints (inputStream : list CodePoint) (output : list Token)
    : Outcome (bool * list Token) :=
  TokenizeCodePoints_loop (rounds inputStream 0) inputStream 0 output.

(** ** Notions of the specification *)

(** A preprocessed code point: no surrogate, no FF, no CR, no NUL. *)
Definition preprocessed (c : CodePoint) : Prop :=
  ~ (0xD800 <= c <= 0xDFFF) /\ c <> 0x000C /\ c <> 0x000D /\ c <> 0x0000.

(** The exact value of the expression a [DoubleExpr] stands for, before it
    is rounded to binary64: both exponents are unsigned in the source, so
    it is an integer. *)
Definition DoubleExpr_exact (x : DoubleExpr) : Z :=
  expr_s x * (expr_i x + expr_f x * 10 ^ expr_d x) * 10 ^ expr_te x.

(** The value the specification gives a non-integer number:
    s * (i + f * 10^(-d)) * 10^(t*e). *)
Definition spec_number_value (s i f d t e : Z) : Q :=
  (inject_Z s * (inject_Z i + inject_Z f * Qpower (inject_Z 10) (- d))
   * Qpower (inject_Z 10) (t * e))%Q.

(** The value the specification gives an integer: s * i * 10^e. *)
Definition spec_integer_value (s i e : Z) : Z := s * i * 10 ^ e.



(** The states the decoder can be in between two bytes: idle, or inside a
    sequence of two, three or four bytes with the accumulator in the range
    that keeps the finished code point clear of the surrogates. *)
Definition decoder_state (codePoint bytesSeen bytesNeeded lowerBoundary upperBoundary : Z)
    : Prop :=
  (bytesNeeded = 0 /\ bytesSeen = 0 /\ lowerBoundary = 0x80 /\ upperBoundary = 0xBF)
  \/ (bytesNeeded = 1 /\ bytesSeen = 0 /\ lowerBoundary = 0x80 /\ upperBoundary = 0xBF
      /\ 0 <= codePoint < 32)
  \/ (bytesNeeded = 2 /\ bytesSeen = 0 /\ 0x80 <= lowerBoundary /\ upperBoundary <= 0xBF
      /\ 0 <= codePoint < 16 /\ (codePoint = 13 -> upperBoundary <= 0x9F))
  \/ (bytesNeeded = 2 /\ bytesSeen = 1 /\ lowerBoundary = 0x80 /\ upperBoundary = 0xBF
      /\ 0 <= codePoint < 1024 /\ (codePoint < 0x360 \/ 0x380 <= codePoint))
  \/ (bytesNeeded = 3 /\ bytesSeen = 0 /\ 0x80 <= lowerBoundary /\ upperBoundary <= 0xBF
      /\ 0 <= codePoint < 8 /\ (codePoint = 0 -> 0x90 <= lowerBoundary))
  \/ (bytesNeeded = 3 /\ bytesSeen = 1 /\ lowerBoundary = 0x80 /\ upperBoundary = 0xBF
      /\ 0x10 <= codePoint < 512)
  \/ (bytesNeeded = 3 /\ bytesSeen = 2 /\ lowerBoundary = 0x80 /\ upperBoundary = 0xBF
      /\ 0x400 <= codePoint < 32768).




(** What holds of every token a successful dispatch constructs: it is no
    at-keyword, no right square bracket and no bad string. *)
Definition dispatched (inputStream : list CodePoint) (token : Token) : Prop :=
  match token with
  | AtKeyword _ => False
  | RightSquareBracket => False
  | BadString => False
  | _ => True
  end.

(** Holds of an output buffer that is raw or holds a token of the routines
    the dispatch hands over to, when they return true: no hash, no
    at-keyword, no right square bracket, no bad string. *)
Definition handed_over (token : option Token) : Prop :=
  match token with
  | Some (Hash _) => False
  | Some (AtKeyword _) => False
  | Some RightSquareBracket => False
  | Some BadString => False
  | _ => True
  end.

(** [rest] holds an asterisk directly followed by a solidus. *)
Fixpoint has_comment_end (rest : list CodePoint) : bool :=
  match rest with
  | c0 :: rest' =>
      match rest' with
      | c1 :: _ => ((c0 =? ASTERISK) && (c1 =? SOLIDUS)) || has_comment_end rest'
      | [] => false
      end
  | [] => false
  end.

(** [m] is not cut short by its fuel, and the value it yields, if it is
    defined, satisfies [P]. *)
Definition terminates_with {A : Type} (P : A -> Prop) (m : Outcome A) : Prop :=
  match m with
  | Defined a => P a
  | Undefined _ => True
  | OutOfFuel => False
  end.

(** The cursor a routine leaves behind. *)
Definition cursor {A : Type} (r : bool * SizeType * A) : SizeType := snd (fst r).

(** The flag a routine returns. *)
Definition flag {A : Type} (r : bool * SizeType * A) : bool := fst (fst r).

(** ** The entry point (CSSParser.cpp) *)

(** [Parse] decodes the buffer and returns whether that was accepted.
    CSSParser.cpp holds a copy of the decoder of its own, the same
    statements as those of CodePoints.cpp with the code point constants
    written as factory calls. *)
Definition Parse (char_is_signed : bool) (text : list byte) : option bool :=
  match CreateCodePointsStream char_is_signed text [] with
  | Some (ok, _) => Some (if negb ok then false else true)
  | None => None
  end.

(** ** Notions used to state further properties *)

(** The value of a byte, 0..255. *)
Definition byte_value (b : byte) : Z := Z.of_N (Byte.to_N b).

(** The byte of value [z], for [0 <= z < 256]. *)
Definition byte_of_Z (z : Z) : byte :=
  match Byte.of_N (Z.to_N z) with
  | Some b => b
  | None => x00
  end.

(** The UTF-8 encoding of a scalar value, one to four bytes: the standard
    encoder, which the repository does not contain, written down to say
    what [UTF8Decode] inverts. *)
Definition UTF8Encode (c : CodePoint) : list byte :=
  if c <? 0x80 then [byte_of_Z c]
  else if c <? 0x800 then
    [byte_of_Z (0xC0 + c / 64); byte_of_Z (0x80 + c mod 64)]
  else if c <? 0x10000 then
    [byte_of_Z (0xE0 + c / 4096); byte_of_Z (0x80 + (c / 64) mod 64);
     byte_of_Z (0x80 + c mod 64)]
  else
    [byte_of_Z (0xF0 + c / 262144); byte_of_Z (0x80 + (c / 4096) mod 64);
     byte_of_Z (0x80 + (c / 64) mod 64); byte_of_Z (0x80 + c mod 64)].

(** A scalar value other than NUL. *)
Definition scalar_value (c : CodePoint) : Prop :=
  0 < c <= 0x10FFFF /\ ~ (0xD800 <= c <= 0xDFFF).

(** [PushCodePoint] applied to the code points of [cps] in turn. *)
Definition preprocess_from (cps : list CodePoint) (isPreviousCarriageReturn : bool)
    (output : list CodePoint) : bool * list CodePoint :=
  fold_left (fun st c => PushCodePoint c (fst st) (snd st)) cps
    (isPreviousCarriageReturn, output).

Definition preprocess (cps : list CodePoint) : list CodePoint :=
  snd (preprocess_from cps false []).

(** [rest] is empty or starts with a code point that fails [p]: a loop
    that runs while [p] holds stops in front of it. *)
Definition stops_at (p : CodePoint -> bool) (rest : list CodePoint) : Prop :=
  match rest with
  | [] => True
  | c :: _ => p c = false
  end.

(** A code point that [ConsumeStringToken] appends as it is to the value
    of a string ended by [endingCodePoint]. *)
Definition plain_in_string (endingCodePoint codePoint : CodePoint) : bool :=
  negb (codePoint =? endingCodePoint) && negb (IsNewline codePoint)
  && negb (codePoint =? REVERSE_SOLIDUS).

(** The number a run of decimal digits denotes. *)
Definition decimal_value (digits : list CodePoint) : Z :=
  fold_left (fun value digit => value * 10 + (digit - ZERO)) digits 0.

(** A code point that [ConsumeURL] appends as it is to the value of an
    unquoted URL. *)
Definition plain_in_url (codePoint : CodePoint) : bool :=
  negb (codePoint =? RIGHT_PARENTHESIS) && negb (IsWhitespace codePoint)
  && negb ((codePoint =? QUOTATION_MARK) || (codePoint =? APOSTROPHE)
           || (codePoint =? LEFT_PARENTHESIS) || IsNonPrintable codePoint)
  && negb (codePoint =? REVERSE_SOLIDUS).

(** What [ConsumeURL] can leave in its output buffer. *)
Definition url_result (token : option Token) : Prop :=
  match token with
  | Some (URL _) => True
  | Some BadURL => True
  | None => True
  | _ => False
  end.

(** The number a hexadecimal digit denotes, and the number a run of them
    denotes. *)
Definition hex_digit_value (digit : CodePoint) : Z :=
  if digit <=? NINE then digit - ZERO
  else if digit <=? LATIN_CAPITAL_LETTER_F then digit - LATIN_CAPITAL_LETTER_A + 10
  else digit - LATIN_SMALL_LETTER_A + 10.

Definition hex_value (digits : list CodePoint) : Z :=
  fold_left (fun value digit => value * 16 + hex_digit_value digit) digits 0.
(** * Properties *)

(** ** Arithmetic of the decoder *)

Lemma byte_range (b : byte) : 0 <= Z.of_N (Byte.to_N b) < 256.
Proof.
  pose proof (Byte.to_N_bounded b). lia.
Qed.

Lemma u8_char_value (signed : bool) (b : byte) :
  u8 (char_value signed b) = Z.of_N (Byte.to_N b).
Proof.
  unfold u8, char_value. pose proof (byte_range b) as Hb.
  change (2 ^ 8) with 256.
  destruct (signed && (128 <=? Z.of_N (Byte.to_N b))).
  - replace (Z.of_N (Byte.to_N b) - 256) with (Z.of_N (Byte.to_N b) + (-1) * 256) by lia.
    rewrite Z_mod_plus_full. apply Z.mod_small; lia.
  - apply Z.mod_small; lia.
Qed.

Lemma land_low_bits (byte k : Z) :
  0 <= k -> Z.land byte (Z.ones k) = byte mod 2 ^ k.
Proof. intros Hk. apply Z.land_ones; assumption. Qed.

Lemma land_shiftl_disjoint (a b k : Z) :
  0 <= k -> Z.land (Z.shiftl a k) (Z.land b (Z.ones k)) = 0.
Proof.
  intros Hk. apply Z.bits_inj'. intros n Hn.
  rewrite Z.bits_0, !Z.land_spec.
  destruct (Z.lt_ge_cases n k) as [Hlt | Hge].
  - rewrite Z.shiftl_spec_low by assumption. reflexivity.
  - rewrite Z.ones_spec_high by lia. rewrite !andb_false_r. reflexivity.
Qed.

(** Shifting a continuation byte into the accumulator. *)
Lemma accumulate_continuation (codePoint byte : Z) :
  0 <= codePoint < 2 ^ 26 -> 0x80 <= byte <= 0xBF ->
  u32 (Z.lor (u32 (Z.shiftl codePoint 6)) (Z.land byte 0x3F))
  = codePoint * 64 + (byte - 128).
Proof.
  intros Hc Hb. unfold u32.
  rewrite Z.shiftl_mul_pow2 by lia. change (2 ^ 6) with 64.
  rewrite (Z.mod_small (codePoint * 64)) by lia.
  change 0x3F with (Z.ones 6).
  pose proof (Z.add_lor_land (codePoint * 64) (Z.land byte (Z.ones 6))) as Hadd.
  replace (codePoint * 64) with (Z.shiftl codePoint 6) in Hadd at 2
    by (rewrite Z.shiftl_mul_pow2 by lia; reflexivity).
  rewrite land_shiftl_disjoint in Hadd by lia.
  rewrite land_low_bits in * by lia. change (2 ^ 6) with 64 in *.
  assert (Hm : byte mod 64 = byte - 128).
  { symmetry. apply (Z.mod_unique byte 64 2); lia. }
  rewrite Hm in *. rewrite Z.mod_small; lia.
Qed.

Lemma leading_bits (byte k base : Z) :
  0 <= k -> base mod 2 ^ k = 0 -> base <= byte < base + 2 ^ k ->
  Z.land byte (Z.ones k) = byte - base.
Proof.
  intros Hk Hbase Hb. rewrite land_low_bits by assumption.
  symmetry. apply (Z.mod_unique byte (2 ^ k) (base / 2 ^ k)).
  - left. lia.
  - pose proof (Z.div_mod base (2 ^ k)) as Hd.
    assert (2 ^ k <> 0) by lia. specialize (Hd H). lia.
Qed.

(** ** The decoder's output is preprocessed *)

Lemma PushCodePoint_preprocessed (codePoint : CodePoint) (cr : bool) (output : list CodePoint) :
  ~ (0xD800 <= codePoint <= 0xDFFF) ->
  Forall preprocessed output ->
  Forall preprocessed (snd (PushCodePoint codePoint cr output)).
Proof.
  intros Hs Hout. unfold PushCodePoint.
  assert (Hlf : preprocessed LINE_FEED) by (unfold preprocessed, LINE_FEED; lia).
  assert (Hrep : preprocessed REPLACEMENT) by (unfold preprocessed, REPLACEMENT; lia).
  destruct (codePoint =? FORM_FEED) eqn:Hff; [apply Forall_app; auto|].
  destruct (codePoint =? CARRIAGE_RETURN) eqn:Hcr; [apply Forall_app; auto|].
  destruct (codePoint =? LINE_FEED) eqn:Hl.
  { simpl. destruct cr; simpl; [assumption | apply Forall_app; auto]. }
  destruct (codePoint =? NULL_CODE_POINT) eqn:Hn; [apply Forall_app; auto|].
  simpl. apply Forall_app. split; [assumption|]. constructor; [|constructor].
  apply Z.eqb_neq in Hff, Hcr, Hn.
  unfold FORM_FEED, CARRIAGE_RETURN, NULL_CODE_POINT in *.
  unfold preprocessed. lia.
Qed.

Lemma PushCodePoint_replacement (cr : bool) (output : list CodePoint) :
  Forall preprocessed output ->
  Forall preprocessed (snd (PushCodePoint REPLACEMENT cr output)).
Proof.
  apply PushCodePoint_preprocessed. unfold REPLACEMENT. lia.
Qed.

Ltac split_push :=
  match goal with
  | H : context [let '(_, _) := PushCodePoint ?c ?cr ?out in _] |- _ =>
      let E := fresh "Epush" in
      destruct (PushCodePoint c cr out) as [? ?] eqn:E;
      apply (f_equal snd) in E; simpl in E
  end.

Ltac bool_facts :=
  repeat match goal with
  | H : (_ && _)%bool = true |- _ => apply andb_true_iff in H; destruct H
  | H : (_ && _)%bool = false |- _ => apply andb_false_iff in H
  | H : (_ || _)%bool = true |- _ => apply orb_true_iff in H
  | H : (_ || _)%bool = false |- _ => apply orb_false_iff in H; destruct H
  | H : negb _ = true |- _ => apply negb_true_iff in H
  | H : negb _ = false |- _ => apply negb_false_iff in H
  | H : (_ <=? _) = true |- _ => apply Z.leb_le in H
  | H : (_ <=? _) = false |- _ => apply Z.leb_gt in H
  | H : (_ <? _) = true |- _ => apply Z.ltb_lt in H
  | H : (_ <? _) = false |- _ => apply Z.ltb_ge in H
  | H : (_ =? _) = true |- _ => apply Z.eqb_eq in H
  | H : (_ =? _) = false |- _ => apply Z.eqb_neq in H
  end.

#[local] Opaque PushCodePoint.

Lemma UTF8Decode_loop_preprocessed (signed : bool) (input : list byte) :
  forall (fuel : nat) (inputPosition : SizeType)
         (codePoint bytesSeen bytesNeeded lowerBoundary upperBoundary : Z)
         (cr : bool) (output : list CodePoint) (r : SizeType * list CodePoint),
    decoder_state codePoint bytesSeen bytesNeeded lowerBoundary upperBoundary ->
    Forall preprocessed output ->
    UTF8Decode_loop signed fuel input inputPosition
      codePoint bytesSeen bytesNeeded lowerBoundary upperBoundary cr output = Some r ->
    Forall preprocessed (snd r).
Proof.
  induction fuel as [| fuel IH]; intros pos cp seen needed lo hi cr out r Hst Hout Hrun.
  - discriminate.
  - cbn [UTF8Decode_loop] in Hrun.
    destruct (nth_error input pos) as [c |].
    2:{ destruct (negb (needed =? 0)); injection Hrun as Hr; subst r; cbn [snd];
        auto using PushCodePoint_replacement. }
    rewrite u8_char_value in Hrun.
    pose proof (byte_range c) as Hc.
    set (byte := Z.of_N (Byte.to_N c)) in *. clearbody byte.
    destruct (byte =? 0) eqn:Hz.
    { destruct (negb (needed =? 0)); injection Hrun as Hr; subst r; cbn [snd];
        auto using PushCodePoint_replacement. }
    destruct (needed =? 0) eqn:Hneeded.
    + (* a leading byte *)
      apply Z.eqb_eq in Hneeded.
      assert (Hidle : seen = 0 /\ lo = 0x80 /\ hi = 0xBF)
        by (unfold decoder_state in Hst; lia).
      destruct Hidle as (-> & -> & ->). subst needed.
      destruct ((0 <=? byte) && (byte <=? 127)) eqn:H1.
      { split_push. eapply IH; [| | exact Hrun].
        - assumption.
        - rewrite <- Epush. apply PushCodePoint_preprocessed; [bool_facts; lia | assumption]. }
      destruct ((194 <=? byte) && (byte <=? 223)) eqn:H2.
      { eapply IH; [| exact Hout | exact Hrun].
        bool_facts. change 31 with (Z.ones 5).
        rewrite (leading_bits byte 5 192) by (try reflexivity; simpl; lia).
        unfold decoder_state. right. left. lia. }
      destruct ((224 <=? byte) && (byte <=? 239)) eqn:H3.
      { eapply IH; [| exact Hout | exact Hrun].
        bool_facts. change 15 with (Z.ones 4).
        rewrite (leading_bits byte 4 224) by (try reflexivity; simpl; lia).
        unfold decoder_state. right. right. left.
        destruct (byte =? 224) eqn:Ha; destruct (byte =? 237) eqn:Hb; bool_facts; lia. }
      destruct ((240 <=? byte) && (byte <=? 244)) eqn:H4.
      { eapply IH; [| exact Hout | exact Hrun].
        bool_facts. change 7 with (Z.ones 3).
        rewrite (leading_bits byte 3 240) by (try reflexivity; simpl; lia).
        unfold decoder_state. do 4 right. left.
        destruct (byte =? 240) eqn:Ha; destruct (byte =? 244) eqn:Hb; bool_facts; lia. }
      split_push. eapply IH; [| | exact Hrun].
      * assumption.
      * rewrite <- Epush. apply PushCodePoint_replacement; assumption.
    + (* a continuation byte is expected *)
      apply Z.eqb_neq in Hneeded.
      destruct ((byte <? lo) || (hi <? byte)) eqn:Hwin.
      { split_push. eapply IH; [| | exact Hrun].
        - unfold decoder_state. left. lia.
        - rewrite <- Epush. apply PushCodePoint_replacement; assumption. }
      bool_facts.
      assert (Hwindow : lo <= byte <= hi) by lia.
      assert (Hbyte : 0x80 <= byte <= 0xBF) by (unfold decoder_state in Hst; lia).
      assert (Hcp : 0 <= cp < 2 ^ 26) by (unfold decoder_state in Hst; lia).
      rewrite (accumulate_continuation cp byte Hcp Hbyte) in Hrun.
      assert (Hseen : u8 (seen + 1) = seen + 1).
      { unfold u8. apply Z.mod_small. unfold decoder_state in Hst. lia. }
      rewrite Hseen in Hrun.
      destruct (negb (seen + 1 =? needed)) eqn:Hmore; bool_facts.
      * eapply IH; [| exact Hout | exact Hrun].
        clear - Hst Hbyte Hmore Hwindow Hneeded.
        unfold decoder_state in *.
        destruct Hst as [Hs|[Hs|[Hs|[Hs|[Hs|[Hs|Hs]]]]]].
        -- exfalso; lia.
        -- exfalso; lia.
        -- right. right. right. left. lia.
        -- exfalso; lia.
        -- do 5 right. left. lia.
        -- do 6 right. lia.
        -- exfalso; lia.
      * split_push. eapply IH; [| | exact Hrun].
        -- unfold decoder_state. left. lia.
        -- rewrite <- Epush. apply PushCodePoint_preprocessed; [| assumption].
           clear - Hst Hbyte Hmore Hwindow Hneeded.
           unfold decoder_state in Hst. lia.
Qed.

#[local] Transparent PushCodePoint.

(** ** The decoding loop never runs out of fuel *)

Lemma UTF8Decode_loop_total (signed : bool) (input : list byte) :
  forall (fuel : nat) (inputPosition : SizeType)
         (codePoint bytesSeen bytesNeeded lowerBoundary upperBoundary : Z)
         (cr : bool) (output : list CodePoint),
    (2 * (length input - inputPosition) + (if (bytesNeeded =? 0)%Z then 0 else 1) < fuel)%nat ->
    exists r, UTF8Decode_loop signed fuel input inputPosition
                codePoint bytesSeen bytesNeeded lowerBoundary upperBoundary cr output = Some r.
Proof.
  induction fuel as [| fuel IH]; intros pos cp seen needed lo hi cr out Hfuel; [lia |].
  cbn [UTF8Decode_loop].
  destruct (nth_error input pos) as [c |] eqn:Hread.
  2:{ destruct (negb (needed =? 0)); eauto. }
  assert (Hpos : (pos < length input)%nat)
    by (apply nth_error_Some; rewrite Hread; discriminate).
  destruct (u8 (char_value signed c) =? 0); [destruct (negb (needed =? 0)); eauto |].
  destruct (needed =? 0) eqn:Hneeded.
  - repeat match goal with
           | |- context [if ?b then _ else _] => destruct b
           | |- context [let '(_, _) := ?p in _] => destruct p
           end;
      apply IH; try rewrite Hneeded; cbn [Z.eqb]; lia.
  - repeat match goal with
           | |- context [if ?b then _ else _] => destruct b
           | |- context [let '(_, _) := ?p in _] => destruct p
           end;
      apply IH; try rewrite Hneeded; cbn [Z.eqb]; lia.
Qed.

Lemma UTF8Decode_total (signed : bool) (input : list byte) (inputPosition : SizeType)
    (output : list CodePoint) :
  exists r, UTF8Decode signed input inputPosition output = Some r.
Proof.
  unfold UTF8Decode, UTF8Decode_fuel. apply UTF8Decode_loop_total. cbn [Z.eqb]. lia.
Qed.

(** [CreateCodePointsStream] always returns. *)
Theorem CreateCodePointsStream_total (char_is_signed : bool) (text : list byte)
    (output : list CodePoint) :
  exists ok out, CreateCodePointsStream char_is_signed text output = Some (ok, out).
Proof.
  unfold CreateCodePointsStream.
  destruct (negb (Encoding_eqb (BOMSniff char_is_signed text 0) Count)).
  - destruct (negb (Encoding_eqb (BOMSniff char_is_signed text 0) UTF8)); [eauto |].
    destruct (UTF8Decode_total char_is_signed text (0 + 3) []) as [[p out] ->]. eauto.
  - destruct (UTF8Decode_total char_is_signed text 0 []) as [[p out] ->]. eauto.
Qed.

(** C2.  Whatever plain [char] is, every code point of the sequence that an
    accepting [CreateCodePointsStream] leaves in [output] is outside
    U+D800..U+DFFF and is none of U+000C, U+000D and U+0000. *)
Theorem decoder_output_preprocessed (char_is_signed : bool) (text : list byte)
    (output0 output : list CodePoint) :
  CreateCodePointsStream char_is_signed text output0 = Some (true, output) ->
  forall c : CodePoint, In c output ->
    ~ (0xD800 <= c <= 0xDFFF) /\ c <> 0x000C /\ c <> 0x000D /\ c <> 0x0000.
Proof.
  intros Hrun.
  assert (Hall : Forall preprocessed output).
  { unfold CreateCodePointsStream in Hrun.
    assert (Hdec : forall p r, UTF8Decode char_is_signed text p [] = Some r ->
                               Forall preprocessed (snd r)).
    { intros p r Hr. unfold UTF8Decode in Hr.
      eapply UTF8Decode_loop_preprocessed; [| | exact Hr].
      - unfold decoder_state. left. lia.
      - constructor. }
    destruct (negb (Encoding_eqb (BOMSniff char_is_signed text 0) Count)).
    - destruct (negb (Encoding_eqb (BOMSniff char_is_signed text 0) UTF8)); [discriminate |].
      destruct (UTF8Decode char_is_signed text (0 + 3) []) as [[p out] |] eqn:Hr;
        [| discriminate].
      injection Hrun as <-. exact (Hdec _ _ Hr).
    - destruct (UTF8Decode char_is_signed text 0 []) as [[p out] |] eqn:Hr;
        [| discriminate].
      injection Hrun as <-. exact (Hdec _ _ Hr). }
  intros c Hc. exact (proj1 (Forall_forall preprocessed output) Hall c Hc).
Qed.

Lemma decoder_output_preprocessed_witness :
  ~ (0xD800 <= 0x41 <= 0xDFFF) /\ 0x41 <> 0x000C /\ 0x41 <> 0x000D /\ 0x41 <> 0x0000.
Proof.
  apply (decoder_output_preprocessed false
           [x41; x0d; x0a; xed; xa0; x80; x0c] []
           [0x41; 0x0A; 0xFFFD; 0xFFFD; 0xFFFD; 0x0A]).
  - reflexivity.
  - simpl. left. reflexivity.
Defined.

(** ** Byte order marks *)

(** C4.  A buffer that is exactly the two bytes FE FF, or FF FE, is not
    rejected: [BOMSniff] gives up on any buffer shorter than three bytes, the
    two bytes are decoded as UTF-8 and [CreateCodePointsStream] returns
    success with two replacement characters. *)
Theorem utf16_bom_alone_is_accepted (char_is_signed : bool) :
  CreateCodePointsStream char_is_signed [xfe; xff] [] = Some (true, [REPLACEMENT; REPLACEMENT])
  /\ CreateCodePointsStream char_is_signed [xff; xfe] [] = Some (true, [REPLACEMENT; REPLACEMENT]).
Proof.
  destruct char_is_signed; split; reflexivity.
Qed.

(** With an unsigned [char] and a third byte in the buffer the UTF-16 marks
    are rejected and [output] is left alone. *)
Lemma utf16_bom_rejected_from_three_bytes (b2 : byte) (rest : list byte)
    (output : list CodePoint) :
  CreateCodePointsStream false (xfe :: xff :: b2 :: rest) output = Some (false, output)
  /\ CreateCodePointsStream false (xff :: xfe :: b2 :: rest) output = Some (false, output).
Proof.
  split; reflexivity.
Qed.

(** With a signed [char] no comparison of [BOMSniff] can succeed: the
    constants 0xEF, 0xFE and 0xFF are [int]s above every [char]. *)
Lemma BOMSniff_signed_char (ioQueue : list byte) (position : SizeType) :
  BOMSniff true ioQueue position = Count.
Proof.
  unfold BOMSniff.
  destruct (length ioQueue <? position + 3)%nat; [reflexivity |].
  destruct (nth_error ioQueue position) as [b0 |]; [| reflexivity].
  destruct (nth_error ioQueue (position + 1)) as [b1 |]; [| reflexivity].
  destruct (nth_error ioQueue (position + 2)) as [b2 |]; [| reflexivity].
  assert (Hsmall : forall b, char_value true b < 128).
  { intros b. unfold char_value. pose proof (byte_range b).
    destruct (128 <=? Z.of_N (Byte.to_N b)) eqn:Hb; cbn [andb]; bool_facts; lia. }
  pose proof (Hsmall b0) as H0.
  cbv zeta.
  destruct (char_value true b0 =? 239) eqn:E1; [bool_facts; lia |].
  destruct (char_value true b0 =? 254) eqn:E2; [bool_facts; lia |].
  destruct (char_value true b0 =? 255) eqn:E3; [bool_facts; lia |].
  reflexivity.
Qed.

(** ** The fuel of the cursor loops is enough *)

Ltac post := cbv beta; cbn [terminates_with flag cursor fst snd].

Lemma terminates_bind {A B : Type} (Q : A -> Prop) (P : B -> Prop)
    (m : Outcome A) (k : A -> Outcome B) :
  terminates_with Q m -> (forall a, Q a -> terminates_with P (k a)) ->
  terminates_with P (bind m k).
Proof.
  intros Hm Hk. destruct m as [a | u |]; cbn [bind terminates_with] in *; auto.
Qed.

Lemma terminates_fuel {A : Type} (P : A -> Prop) (m : Outcome A) :
  terminates_with P m -> m <> OutOfFuel.
Proof. intros H ->. exact H. Qed.

Lemma read_terminates (inputStream : list CodePoint) (i : SizeType) :
  terminates_with (fun _ => True) (read inputStream i).
Proof. unfold read. destruct (nth_error inputStream i); exact I. Qed.

Lemma advance_while_ge (p : CodePoint -> bool) (rest : list CodePoint) :
  forall position : SizeType, (position <= advance_while p rest position)%nat.
Proof.
  induction rest as [| c rest IH]; intros position; cbn [advance_while]; [lia |].
  destruct (p c); [| lia]. specialize (IH (S position)). lia.
Qed.

Lemma push_while_position (p : CodePoint -> bool) (rest : list CodePoint) :
  forall (position : SizeType) (repr : list CodePoint),
    (fst (push_while p rest position repr) + length repr
     = position + length (snd (push_while p rest position repr)))%nat
    /\ (length repr <= length (snd (push_while p rest position repr)))%nat.
Proof.
  induction rest as [| c rest IH]; intros position repr; cbn [push_while].
  - cbn [fst snd]. lia.
  - destruct (p c); [| cbn [fst snd]; lia].
    specialize (IH (S position) (repr ++ [c])).
    rewrite length_app in IH. cbn [length] in IH. lia.
Qed.

Lemma ConsumeIdentLikeToken_skip_ge (rest : list CodePoint) :
  forall position : SizeType, (position <= ConsumeIdentLikeToken_skip rest position)%nat.
Proof.
  induction rest as [| c rest IH]; intros position; cbn [ConsumeIdentLikeToken_skip]; [lia |].
  destruct rest as [| c1 rest]; [lia |].
  destruct (IsWhitespace c && IsWhitespace c1); [| lia].
  specialize (IH (S position)). lia.
Qed.

Lemma HexSequenceToCodePoint_loop_terminates (inputStream : list CodePoint) :
  forall (count : nat) (i : SizeType) (resultBytes : Z),
    terminates_with (fun _ => True)
      (HexSequenceToCodePoint_loop count inputStream i resultBytes).
Proof.
  induction count as [| count IH]; intros i resultBytes; cbn [HexSequenceToCodePoint_loop].
  - exact I.
  - eapply terminates_bind; [apply read_terminates | intros; apply IH].
Qed.

Lemma ConsumeEscapedCodePoint_hex_terminates (inputStream : list CodePoint) :
  forall (left : nat) (position consumed : SizeType),
    terminates_with (fun r => (position <= fst r)%nat)
      (ConsumeEscapedCodePoint_hex left inputStream position consumed).
Proof.
  induction left as [| left IH]; intros position consumed; cbn [ConsumeEscapedCodePoint_hex].
  - post. lia.
  - eapply terminates_bind; [apply read_terminates |]. intros c _.
    destruct (negb (IsHexDigit c)); [post; lia |].
    specialize (IH (S position) (S consumed)).
    destruct (ConsumeEscapedCodePoint_hex left inputStream (S position) (S consumed));
      cbn [terminates_with] in *; auto. lia.
Qed.

(** [ConsumeEscapedCodePoint] needs no fuel, and when it returns true it
    has moved the cursor forward. *)
Lemma ConsumeEscapedCodePoint_terminates (inputStream : list CodePoint) (position : SizeType) :
  terminates_with (fun r => flag r = true -> (position < cursor r)%nat)
    (ConsumeEscapedCodePoint inputStream position).
Proof.
  unfold ConsumeEscapedCodePoint.
  destruct (position =? length inputStream)%nat; [post; discriminate |].
  eapply terminates_bind; [apply read_terminates |]. intros c _.
  destruct (IsHexDigit c); [| post; lia].
  eapply terminates_bind; [apply ConsumeEscapedCodePoint_hex_terminates |].
  intros [p1 consumed] Hp1. cbn [fst] in Hp1.
  eapply terminates_bind; [apply read_terminates |]. intros w _.
  eapply terminates_bind; [apply HexSequenceToCodePoint_loop_terminates |]. intros n _.
  destruct ((n =? ZERO) || IsSurrogate n || (MAXIMUM_ALLOWED_CODE_POINT <? n));
    post; destruct (IsWhitespace w); lia.
Qed.

Lemma ConsumeStringToken_loop_terminates (inputStream : list CodePoint)
    (endingCodePoint : CodePoint) :
  forall (fuel : nat) (position : SizeType) (value : list CodePoint),
    (length inputStream - position < fuel)%nat ->
    terminates_with (fun r => flag r = true -> (position < cursor r)%nat)
      (ConsumeStringToken_loop fuel inputStream position endingCodePoint value).
Proof.
  induction fuel as [| fuel IH]; intros position value Hfuel; [lia |].
  cbn [ConsumeStringToken_loop].
  destruct (nth_error inputStream position) as [c |] eqn:Hread; [| post; discriminate].
  assert (Hpos : (position < length inputStream)%nat)
    by (apply nth_error_Some; rewrite Hread; discriminate).
  assert (Hnext : forall p v, (position < p)%nat ->
            terminates_with (fun r => flag r = true -> (position < cursor r)%nat)
              (ConsumeStringToken_loop fuel inputStream p endingCodePoint v)).
  { intros p v Hp. specialize (IH p v).
    destruct (ConsumeStringToken_loop fuel inputStream p endingCodePoint v);
      cbn [terminates_with] in *; [| exact I | apply IH; lia].
    intros Hok. assert (p < cursor a)%nat by (apply IH; [lia | exact Hok]). lia. }
  destruct (c =? endingCodePoint); [post; lia |].
  destruct (IsNewline c); [post; discriminate |].
  destruct (c =? REVERSE_SOLIDUS); [| apply Hnext; lia].
  destruct (S position =? length inputStream)%nat; [apply Hnext; lia |].
  eapply terminates_bind; [apply read_terminates |]. intros c1 _.
  destruct (IsNewline c1); [apply Hnext; lia |].
  eapply terminates_bind; [apply ConsumeEscapedCodePoint_terminates |].
  intros [[ok p1] raw] Hmove. unfold flag, cursor in Hmove. cbn [fst snd] in Hmove.
  destruct ok; cbn [negb]; [| post; discriminate].
  destruct raw; [| exact I].
  apply Hnext. specialize (Hmove eq_refl). lia.
Qed.

(** [ConsumeIdentSequence]: enough fuel, a cursor that never moves back,
    and one that moves when the first code point is an ident code point. *)
Lemma ConsumeIdentSequence_loop_terminates (inputStream : list CodePoint) :
  forall (fuel : nat) (position : SizeType) (resultLocal : list CodePoint),
    (length inputStream - position < fuel)%nat ->
    terminates_with
      (fun r => flag r = true ->
                (position <= cursor r)%nat
                /\ (test_at IsIdent inputStream position = true -> (position < cursor r)%nat))
      (ConsumeIdentSequence_loop fuel inputStream position resultLocal).
Proof.
  induction fuel as [| fuel IH]; intros position acc Hfuel; [lia |].
  cbn [ConsumeIdentSequence_loop]. unfold test_at.
  destruct (nth_error inputStream position) as [c |] eqn:Hread.
  2:{ post. split; [lia | discriminate]. }
  assert (Hpos : (position < length inputStream)%nat)
    by (apply nth_error_Some; rewrite Hread; discriminate).
  assert (Hnext : forall p v (Q : Prop), (position < p)%nat ->
            terminates_with (fun r => flag r = true -> (position <= cursor r)%nat
                                                       /\ (Q -> (position < cursor r)%nat))
              (ConsumeIdentSequence_loop fuel inputStream p v)).
  { intros p v Q Hp. specialize (IH p v).
    destruct (ConsumeIdentSequence_loop fuel inputStream p v);
      cbn [terminates_with] in *; [| exact I | apply IH; lia].
    intros Hok. assert (p <= cursor a)%nat by (apply IH; [lia | exact Hok]). lia. }
  destruct (IsIdent c); [apply Hnext; lia |].
  destruct (AreTwoCodePointsValidEscape inputStream position).
  2:{ post. split; [lia | discriminate]. }
  eapply terminates_bind; [apply ConsumeEscapedCodePoint_terminates |].
  intros [[ok p1] raw] Hmove. unfold flag, cursor in Hmove. cbn [fst snd] in Hmove.
  destruct ok; cbn [negb]; [| post; discriminate].
  destruct raw as [e |]; [| exact I].
  specialize (Hmove eq_refl). apply Hnext. lia.
Qed.

Lemma ConsumeIdentSequence_terminates (inputStream : list CodePoint) (position : SizeType) :
  terminates_with
    (fun r => flag r = true ->
              (position <= cursor r)%nat
              /\ (test_at IsIdent inputStream position = true -> (position < cursor r)%nat))
    (ConsumeIdentSequence inputStream position).
Proof.
  unfold ConsumeIdentSequence, rounds. apply ConsumeIdentSequence_loop_terminates. lia.
Qed.

Lemma ConsumeRemnantsOfBadURL_loop_terminates (inputStream : list CodePoint) :
  forall (fuel : nat) (position : SizeType),
    (length inputStream - position < fuel)%nat ->
    terminates_with (fun r => fst r = true -> (position <= snd r)%nat)
      (ConsumeRemnantsOfBadURL_loop fuel inputStream position).
Proof.
  induction fuel as [| fuel IH]; intros position Hfuel; [lia |].
  cbn [ConsumeRemnantsOfBadURL_loop].
  destruct (nth_error inputStream position) as [c |] eqn:Hread; [| post; lia].
  assert (Hpos : (position < length inputStream)%nat)
    by (apply nth_error_Some; rewrite Hread; discriminate).
  assert (Hnext : forall p, (position < p)%nat ->
            terminates_with (fun r => fst r = true -> (position <= snd r)%nat)
              (ConsumeRemnantsOfBadURL_loop fuel inputStream p)).
  { intros p Hp. specialize (IH p).
    destruct (ConsumeRemnantsOfBadURL_loop fuel inputStream p);
      cbn [terminates_with] in *; [| exact I | apply IH; lia].
    intros Hok. assert (p <= snd a)%nat by (apply IH; [lia | exact Hok]). lia. }
  destruct (c =? RIGHT_PARENTHESIS); [post; lia |].
  destruct (AreTwoCodePointsValidEscape inputStream position); [| apply Hnext; lia].
  eapply terminates_bind; [apply ConsumeEscapedCodePoint_terminates |].
  intros [[ok p1] raw] Hmove. unfold flag, cursor in Hmove. cbn [fst snd] in Hmove.
  destruct ok; cbn [negb]; [| post; discriminate].
  specialize (Hmove eq_refl). apply Hnext. lia.
Qed.

Lemma ConsumeURL_bad_terminates (inputStream : list CodePoint) (position : SizeType) :
  terminates_with (fun r => flag r = true -> (position <= cursor r)%nat)
    (ConsumeURL_bad inputStream position).
Proof.
  unfold ConsumeURL_bad, ConsumeRemnantsOfBadURL, rounds.
  eapply terminates_bind; [apply ConsumeRemnantsOfBadURL_loop_terminates; lia |].
  intros [ok p1] Hmove. cbn [fst snd] in Hmove.
  destruct ok; cbn [negb]; post; [auto | discriminate].
Qed.

Lemma ConsumeURL_loop_terminates (inputStream : list CodePoint) :
  forall (fuel : nat) (position : SizeType) (value : list CodePoint),
    (length inputStream - position < fuel)%nat ->
    terminates_with (fun r => flag r = true -> (position <= cursor r)%nat)
      (ConsumeURL_loop fuel inputStream position value).
Proof.
  induction fuel as [| fuel IH]; intros position value Hfuel; [lia |].
  cbn [ConsumeURL_loop].
  destruct (nth_error inputStream position) as [c |] eqn:Hread; [| post; discriminate].
  assert (Hpos : (position < length inputStream)%nat)
    by (apply nth_error_Some; rewrite Hread; discriminate).
  assert (Hnext : forall p v, (position < p)%nat ->
            terminates_with (fun r => flag r = true -> (position <= cursor r)%nat)
              (ConsumeURL_loop fuel inputStream p v)).
  { intros p v Hp. specialize (IH p v).
    destruct (ConsumeURL_loop fuel inputStream p v);
      cbn [terminates_with] in *; [| exact I | apply IH; lia].
    intros Hok. assert (p <= cursor a)%nat by (apply IH; [lia | exact Hok]). lia. }
  assert (Hbad : forall p, (position <= p)%nat ->
            terminates_with (fun r => flag r = true -> (position <= cursor r)%nat)
              (ConsumeURL_bad inputStream p)).
  { intros p Hp. pose proof (ConsumeURL_bad_terminates inputStream p) as Hb.
    destruct (ConsumeURL_bad inputStream p); cbn [terminates_with] in *; auto.
    intros Hok. specialize (Hb Hok). lia. }
  destruct (c =? RIGHT_PARENTHESIS); [post; lia |].
  destruct (IsWhitespace c).
  { pose proof (advance_while_ge IsWhitespace (skipn (S position) inputStream) (S position))
      as Hws.
    destruct (_ =? length inputStream)%nat; [post; discriminate |].
    eapply terminates_bind; [apply read_terminates |]. intros c1 _.
    destruct (c1 =? RIGHT_PARENTHESIS); [post; lia |]. apply Hbad. lia. }
  destruct ((c =? QUOTATION_MARK) || (c =? APOSTROPHE) || (c =? LEFT_PARENTHESIS)
            || IsNonPrintable c); [apply Hbad; lia |].
  destruct (c =? REVERSE_SOLIDUS); [| apply Hnext; lia].
  destruct (AreTwoCodePointsValidEscape inputStream (S position - 1)); [| apply Hbad; lia].
  eapply terminates_bind; [apply ConsumeEscapedCodePoint_terminates |].
  intros [[ok p1] raw] Hmove. unfold flag, cursor in Hmove. cbn [fst snd] in Hmove.
  destruct ok; cbn [negb]; [| post; discriminate].
  destruct raw; [| exact I].
  specialize (Hmove eq_refl). apply Hnext. lia.
Qed.

Lemma ConsumeURL_terminates (inputStream : list CodePoint) (position : SizeType) :
  terminates_with (fun r => flag r = true -> (position <= cursor r)%nat)
    (ConsumeURL inputStream position).
Proof.
  unfold ConsumeURL, rounds.
  pose proof (advance_while_ge IsWhitespace (skipn position inputStream) position) as Hws.
  set (p := advance_while IsWhitespace (skipn position inputStream) position) in *.
  pose proof (ConsumeURL_loop_terminates inputStream (S (length inputStream - p)) p []) as Hl.
  destruct (ConsumeURL_loop (S (length inputStream - p)) inputStream p []);
    cbn [terminates_with] in *; [| exact I | apply Hl; lia].
  intros Hok. assert (p <= cursor a)%nat by (apply Hl; [lia | exact Hok]). lia.
Qed.

Lemma InterpretAsBase10Number_sum_terminates (string : list CodePoint) (start : nat) :
  forall (count : nat) (result base : Z),
    terminates_with (fun _ => True)
      (InterpretAsBase10Number_sum count string start result base).
Proof.
  induction count as [| count IH]; intros result base; cbn [InterpretAsBase10Number_sum].
  - exact I.
  - eapply terminates_bind; [apply read_terminates | intros; apply IH].
Qed.

Lemma InterpretAsBase10Number_terminates (string : list CodePoint) (position : nat) :
  terminates_with (fun _ => True) (InterpretAsBase10Number string position).
Proof.
  unfold InterpretAsBase10Number.
  eapply terminates_bind; [apply InterpretAsBase10Number_sum_terminates | intros; exact I].
Qed.

Lemma exponentPow_loop_terminates :
  forall (e : nat) (exponentPow : Z),
    terminates_with (fun _ => True) (exponentPow_loop e exponentPow).
Proof.
  induction e as [| e IH]; intros exponentPow; cbn [exponentPow_loop]; [exact I |].
  destruct (in_int64 (exponentPow * 10)); [apply IH | exact I].
Qed.

Ltac terminates :=
  cbv beta;
  lazymatch goal with
  | |- terminates_with _ (bind _ _) =>
      apply terminates_bind with (Q := fun _ => True); [terminates | intros; terminates]
  | |- terminates_with _ (if ?b then _ else _) => destruct b; terminates
  | |- terminates_with _ (match ?p with _ => _ end) => destruct p; terminates
  | |- terminates_with _ (Defined _) => exact I
  | |- terminates_with _ (Undefined _) => exact I
  | |- _ =>
      first [ apply read_terminates
            | apply InterpretAsBase10Number_terminates
            | apply exponentPow_loop_terminates ]
  end.

(** [ConvertStringToNumber] reads [string[0]]: it is defined on no empty
    string. *)
Lemma ConvertStringToNumber_terminates (string : list CodePoint) :
  terminates_with (fun _ => string <> []) (ConvertStringToNumber string).
Proof.
  destruct string as [| c0 string]; [exact I |].
  assert (Hany : forall (P : Prop) (m : Outcome NumberBytes),
             terminates_with (fun _ => True) m -> P -> terminates_with (fun _ => P) m).
  { intros P m Hm HP. destruct m; cbn [terminates_with] in *; auto. }
  apply Hany; [| discriminate].
  unfold ConvertStringToNumber. terminates.
Qed.

(** [ConsumeNumber] returns true only after it has consumed a code point. *)
Lemma ConsumeNumber_terminates (inputStream : list CodePoint) (position : nat) :
  terminates_with (fun r => flag r = true -> (position < cursor r)%nat)
    (ConsumeNumber inputStream position).
Proof.
  unfold ConsumeNumber.
  destruct (position =? length inputStream)%nat; [post; discriminate |].
  apply terminates_bind with (Q := fun _ => True); [apply read_terminates |].
  intros c _.
  assert (Hend : forall (p : nat) (repr : list CodePoint) (isInteger : bool),
             (p = position + length repr)%nat ->
             terminates_with (fun r => flag r = true -> (position < cursor r)%nat)
               (value <- ConvertStringToNumber repr ;;
                Defined (true, p, Some (mkNumberTokenValue value isInteger)))).
  { intros p repr isInteger Hp.
    eapply terminates_bind; [apply ConvertStringToNumber_terminates |].
    intros value Hrepr. post. intros _.
    destruct repr; [contradiction | cbn [length] in Hp; lia]. }
  repeat first
    [ apply Hend
    | progress cbv beta iota
    | match goal with
      | |- context [push_while ?p ?r ?pos ?repr] =>
          let H := fresh "Hpush" in
          pose proof (push_while_position p r pos repr) as H;
          destruct (push_while p r pos repr) as [? ?]; cbn [fst snd] in H
      | |- context [match nth_error ?l ?i with _ => _ end] => destruct (nth_error l i)
      | |- context [if ?b then _ else _] => destruct b
      end ];
    rewrite ?length_app in *; cbn [length] in *; lia.
Qed.

Lemma ConsumeNumericToken_terminates (inputStream : list CodePoint) (position : nat) :
  terminates_with (fun r => flag r = true -> (position < cursor r)%nat)
    (ConsumeNumericToken inputStream position).
Proof.
  unfold ConsumeNumericToken.
  eapply terminates_bind; [apply ConsumeNumber_terminates |].
  intros [[ok p] number] Hmove. unfold flag, cursor in Hmove. cbn [fst snd] in Hmove.
  destruct ok; cbn [negb]; [| post; discriminate].
  specialize (Hmove eq_refl).
  destruct number as [number |]; [| exact I].
  destruct (DoThreeCodePointsStartIndentSequence inputStream p).
  - eapply terminates_bind; [apply ConsumeIdentSequence_terminates |].
    intros [[ok1 p1] unit] Hident. unfold flag, cursor in Hident. cbn [fst snd] in Hident.
    destruct ok1; cbn [negb]; [| post; discriminate].
    destruct unit; [| exact I]. post. intros _. destruct (Hident eq_refl). lia.
  - apply terminates_bind with (Q := fun _ => True); [apply read_terminates |].
    intros c _. destruct (c =? PERCENTAGE_SIGN); post; lia.
Qed.

Lemma ConsumeIdentLikeToken_terminates (inputStream : list CodePoint) (position : nat) :
  terminates_with
    (fun r => flag r = true ->
              test_at IsIdent inputStream position = true -> (position < cursor r)%nat)
    (ConsumeIdentLikeToken inputStream position).
Proof.
  unfold ConsumeIdentLikeToken.
  eapply terminates_bind; [apply ConsumeIdentSequence_terminates |].
  intros [[ok p] string] Hident. unfold flag, cursor in Hident. cbn [fst snd] in Hident.
  destruct ok; cbn [negb]; [| post; discriminate].
  destruct (Hident eq_refl) as [_ Hmove].
  destruct string as [string |]; [| exact I].
  destruct (is_url string && test_at (fun c => c =? LEFT_PARENTHESIS) inputStream p).
  - pose proof (ConsumeIdentLikeToken_skip_ge (skipn (S p) inputStream) (S p)) as Hskip.
    set (p1 := ConsumeIdentLikeToken_skip (skipn (S p) inputStream) (S p)) in *.
    cbv zeta.
    match goal with
    | |- terminates_with _ (if ?b then _ else _) => destruct b
    end.
    + post. intros _ Hfirst. specialize (Hmove Hfirst). lia.
    + pose proof (ConsumeURL_terminates inputStream p1) as Hurl.
      destruct (ConsumeURL inputStream p1); cbn [terminates_with] in *; auto.
      intros Hok Hfirst. specialize (Hurl Hok). specialize (Hmove Hfirst). lia.
  - destruct (test_at (fun c => c =? LEFT_PARENTHESIS) inputStream p); post; auto.
Qed.

Lemma ConsumeComments_scan_position (rest : list CodePoint) :
  forall (position : nat) (isPreviousAsterisk : bool),
    (position <= snd (ConsumeComments_scan rest position isPreviousAsterisk))%nat.
Proof.
  induction rest as [| c rest IH]; intros position star; cbn [ConsumeComments_scan].
  - cbn [snd]. lia.
  - destruct (c =? ASTERISK).
    + specialize (IH (S position) true). lia.
    + destruct ((c =? SOLIDUS) && star).
      * cbn [snd]. lia.
      * specialize (IH (S position) false). lia.
Qed.

Lemma ConsumeComments_position (inputStream : list CodePoint) (position : nat) :
  (position <= snd (ConsumeComments inputStream position))%nat.
Proof.
  unfold ConsumeComments.
  destruct (length inputStream <=? position + 1)%nat; [cbn [snd]; lia |].
  match goal with
  | |- context [if ?b then _ else _] => destruct b; [cbn [snd]; lia |]
  end.
  apply ConsumeComments_scan_position.
Qed.

(** A successful [ConsumeToken] that constructs a token has moved the
    cursor forward. *)
Lemma ConsumeToken_terminates (inputStream : list CodePoint) (position : nat) :
  terminates_with
    (fun r => flag r = true -> snd r <> None -> (position < cursor r)%nat)
    (ConsumeToken inputStream position).
Proof.
  unfold ConsumeToken.
  pose proof (ConsumeComments_position inputStream position) as Hcomments.
  destruct (ConsumeComments inputStream position) as [okc p]. cbn [snd] in Hcomments.
  destruct (negb okc); [post; discriminate |].
  destruct (p =? length inputStream)%nat; [post; intros _ Hnone; contradiction |].
  unfold read at 1.
  destruct (nth_error inputStream p) as [c |] eqn:Hread; cbn [bind]; [| exact I].
  replace (S p - 1)%nat with p by lia.
  assert (Hgt : forall (m : Outcome (bool * nat * option Token)) (q : nat),
             (position <= q)%nat ->
             terminates_with (fun r => flag r = true -> (q < cursor r)%nat) m ->
             terminates_with
               (fun r => flag r = true -> snd r <> None -> (position < cursor r)%nat) m).
  { intros m q Hq Hm. destruct m; cbn [terminates_with] in *; auto.
    intros Hok _. specialize (Hm Hok). lia. }
  assert (Hge : forall (q : nat) (t : Token), (p < q)%nat ->
             terminates_with
               (fun r => flag r = true -> snd r <> None -> (position < cursor r)%nat)
               (Defined (true, q, Some t))).
  { intros q t Hq. post. intros _ _. lia. }
  assert (Hseq : forall q, (p <= q)%nat ->
             forall k : bool * nat * option (list CodePoint)
                        -> Outcome (bool * nat * option Token),
             (forall r, (flag r = true -> (q <= cursor r)%nat) ->
                        terminates_with
                          (fun r => flag r = true -> snd r <> None
                                    -> (position < cursor r)%nat) (k r)) ->
             terminates_with
               (fun r => flag r = true -> snd r <> None -> (position < cursor r)%nat)
               (bind (ConsumeIdentSequence inputStream q) k)).
  { intros q Hq k Hk.
    eapply terminates_bind; [apply ConsumeIdentSequence_terminates |].
    intros r Hr. apply Hk. intros Hok. apply (Hr Hok). }
  destruct (IsWhitespace c).
  { unfold ConsumeWhitespace. cbv beta iota. apply Hge.
    pose proof (advance_while_ge IsWhitespace (skipn (S p) inputStream) (S p)). lia. }
  destruct (c =? QUOTATION_MARK).
  { apply (Hgt _ (S p)); [lia |].
    apply ConsumeStringToken_loop_terminates. unfold rounds. lia. }
  destruct (c =? NUMBER_SIGN).
  { apply terminates_bind with (Q := fun _ => True); [apply read_terminates |].
    intros c1 _.
    destruct (IsIdent c1 || AreTwoCodePointsValidEscape inputStream (S p));
      [| apply Hge; lia].
    apply (Hseq (S p)); [lia |]. intros [[ok1 p1] ident] Hident.
    unfold flag, cursor in Hident. cbn [fst snd] in Hident.
    destruct ok1; cbn [negb]; [| post; discriminate].
    destruct ident; [| exact I]. apply Hge. specialize (Hident eq_refl). lia. }
  destruct (c =? APOSTROPHE).
  { apply (Hgt _ (S p)); [lia |].
    apply ConsumeStringToken_loop_terminates. unfold rounds. lia. }
  destruct (c =? LEFT_PARENTHESIS); [apply Hge; lia |].
  destruct (c =? RIGHT_PARENTHESIS); [apply Hge; lia |].
  destruct (c =? PLUS_SIGN).
  { destruct (DoThreeCodePointsStartNumber inputStream p); [| apply Hge; lia].
    apply (Hgt _ p); [lia | apply ConsumeNumericToken_terminates]. }
  destruct (c =? COMMA); [apply Hge; lia |].
  destruct (c =? HYPHEN_MINUS) eqn:Hhyphen.
  { destruct (DoThreeCodePointsStartNumber inputStream p).
    { apply (Hgt _ p); [lia | apply ConsumeNumericToken_terminates]. }
    match goal with
    | |- terminates_with _ (if ?b then _ else _) => destruct b; [apply Hge; lia |]
    end.
    destruct (DoThreeCodePointsStartIndentSequence inputStream p); [| apply Hge; lia].
    pose proof (ConsumeIdentLikeToken_terminates inputStream p) as Hident.
    destruct (ConsumeIdentLikeToken inputStream p); cbn [terminates_with] in *; auto.
    intros Hok _.
    assert (p < cursor a)%nat; [| lia].
    apply Hident; [exact Hok |].
    unfold test_at. rewrite Hread. apply Z.eqb_eq in Hhyphen. subst c. reflexivity. }
  destruct (c =? FULL_STOP).
  { destruct (DoThreeCodePointsStartNumber inputStream p); [| apply Hge; lia].
    apply (Hgt _ p); [lia | apply ConsumeNumericToken_terminates]. }
  destruct (c =? COLON); [apply Hge; lia |].
  destruct (c =? SEMI_COLON); [apply Hge; lia |].
  destruct (c =? LESS_THAN_SIGN).
  { match goal with
    | |- terminates_with _ (if ?b then _ else _) => destruct b; apply Hge; lia
    end. }
  destruct (c =? COMMERCIAL_AT) eqn:Hat.
  { apply Z.eqb_eq in Hat. subst c.
    assert (Hno : DoThreeCodePointsStartIndentSequence inputStream p = false).
    { unfold DoThreeCodePointsStartIndentSequence. rewrite Hread.
      destruct (length inputStream <=? p + 2)%nat; reflexivity. }
    rewrite Hno. apply Hge. lia. }
  destruct (c =? LEFT_SQUARE_BRACKET); [apply Hge; lia |].
  destruct (c =? LEFT_CURLY_BRACKET); [apply Hge; lia |].
  destruct (c =? RIGHT_CURLY_BRACKET); [apply Hge; lia |].
  destruct (IsDigit c).
  { apply (Hgt _ p); [lia | apply ConsumeNumericToken_terminates]. }
  destruct (IsIdentStart c) eqn:Hstart; [| apply Hge; lia].
  pose proof (ConsumeIdentLikeToken_terminates inputStream p) as Hident.
  destruct (ConsumeIdentLikeToken inputStream p); cbn [terminates_with] in *; auto.
  intros Hok _.
  assert (p < cursor a)%nat; [| lia].
  apply Hident; [exact Hok |].
  unfold test_at. rewrite Hread. unfold IsIdent. rewrite Hstart. reflexivity.
Qed.

Lemma TokenizeCodePoints_loop_terminates (inputStream : list CodePoint) :
  forall (fuel : nat) (position : nat) (output : list Token),
    (length inputStream - position < fuel)%nat ->
    terminates_with (fun _ => True)
      (TokenizeCodePoints_loop fuel inputStream position output).
Proof.
  induction fuel as [| fuel IH]; intros position output Hfuel; [lia |].
  cbn [TokenizeCodePoints_loop].
  destruct (position <? length inputStream)%nat eqn:Hpos; [| exact I].
  apply Nat.ltb_lt in Hpos.
  eapply terminates_bind; [apply ConsumeToken_terminates |].
  intros [[ok p] token] Hmove. unfold flag, cursor in Hmove. cbn [fst snd] in Hmove.
  destruct ok; cbn [negb]; [| exact I].
  destruct token as [token |]; [| exact I].
  apply IH. assert (position < p)%nat by (apply Hmove; [reflexivity | discriminate]). lia.
Qed.

(** [TokenizeCodePoints] returns, or reaches what C++ leaves undefined; its
    loop is never cut short. *)
Theorem TokenizeCodePoints_terminates (inputStream : list CodePoint) (output : list Token) :
  TokenizeCodePoints inputStream output <> OutOfFuel.
Proof.
  apply (terminates_fuel (fun _ => True)).
  unfold TokenizeCodePoints, rounds. apply TokenizeCodePoints_loop_terminates. lia.
Qed.

(** ** Which routine constructs which token *)

(** The test of the commercial-at branch fails on every input. *)
Lemma commercial_at_starts_no_ident (inputStream : list CodePoint) (position : SizeType) :
  nth_error inputStream position = Some COMMERCIAL_AT ->
  DoThreeCodePointsStartIndentSequence inputStream position = false.
Proof.
  intros Hat. unfold DoThreeCodePointsStartIndentSequence. rewrite Hat.
  destruct (length inputStream <=? position + 2)%nat; reflexivity.
Qed.

Ltac bind_inv H :=
  match type of H with
  | bind ?m _ = _ =>
      let E := fresh "Ecall" in
      destruct m as [? | ? |] eqn:E; cbn [bind] in H; [| discriminate H | discriminate H]
  end.

Ltac defined_inv H :=
  match type of H with
  | Defined _ = Defined _ => injection H; intros; subst
  end.

Lemma ConsumeStringToken_loop_handed_over (inputStream : list CodePoint)
    (endingCodePoint : CodePoint) :
  forall (fuel : nat) (position : SizeType) (value : list CodePoint)
         (position' : SizeType) (token : option Token),
    ConsumeStringToken_loop fuel inputStream position endingCodePoint value
      = Defined (true, position', token) ->
    handed_over token.
Proof.
  induction fuel as [| fuel IH]; intros position value position' token Hrun.
  - discriminate.
  - cbn [ConsumeStringToken_loop] in Hrun.
    destruct (nth_error inputStream position) as [c |]; [| discriminate].
    destruct (c =? endingCodePoint); [defined_inv Hrun; exact I |].
    destruct (IsNewline c); [discriminate |].
    destruct (c =? REVERSE_SOLIDUS); [| eapply IH; exact Hrun].
    destruct (S position =? length inputStream)%nat; [eapply IH; exact Hrun |].
    bind_inv Hrun.
    destruct (IsNewline a); [eapply IH; exact Hrun |].
    bind_inv Hrun. destruct a0 as [[ok0 p0] raw].
    destruct (negb ok0); [discriminate |].
    destruct raw; [eapply IH; exact Hrun | discriminate].
Qed.

Lemma ConsumeURL_bad_handed_over (inputStream : list CodePoint) (position : SizeType)
    (ok : bool) (position' : SizeType) (token : option Token) :
  ConsumeURL_bad inputStream position = Defined (ok, position', token) -> handed_over token.
Proof.
  unfold ConsumeURL_bad. intros Hrun. bind_inv Hrun. destruct a as [ok0 p0].
  destruct (negb ok0); defined_inv Hrun; exact I.
Qed.

Lemma ConsumeURL_loop_handed_over (inputStream : list CodePoint) :
  forall (fuel : nat) (position : SizeType) (value : list CodePoint)
         (ok : bool) (position' : SizeType) (token : option Token),
    ConsumeURL_loop fuel inputStream position value = Defined (ok, position', token) ->
    handed_over token.
Proof.
  induction fuel as [| fuel IH]; intros position value ok position' token Hrun.
  - discriminate.
  - cbn [ConsumeURL_loop] in Hrun.
    destruct (nth_error inputStream position) as [c |].
    2:{ defined_inv Hrun. exact I. }
    destruct (c =? RIGHT_PARENTHESIS); [defined_inv Hrun; exact I |].
    destruct (IsWhitespace c).
    { destruct (_ =? length inputStream)%nat; [defined_inv Hrun; exact I |].
      bind_inv Hrun.
      destruct (a =? RIGHT_PARENTHESIS); [defined_inv Hrun; exact I |].
      eapply ConsumeURL_bad_handed_over; exact Hrun. }
    destruct ((c =? QUOTATION_MARK) || (c =? APOSTROPHE) || (c =? LEFT_PARENTHESIS)
              || IsNonPrintable c);
      [eapply ConsumeURL_bad_handed_over; exact Hrun |].
    destruct (c =? REVERSE_SOLIDUS); [| eapply IH; exact Hrun].
    destruct (AreTwoCodePointsValidEscape inputStream (S position - 1));
      [| eapply ConsumeURL_bad_handed_over; exact Hrun].
    bind_inv Hrun. destruct a as [[ok0 p0] raw].
    destruct (negb ok0); [defined_inv Hrun; exact I |].
    destruct raw; [eapply IH; exact Hrun | discriminate].
Qed.

Lemma ConsumeIdentLikeToken_handed_over (inputStream : list CodePoint) (position : SizeType)
    (ok : bool) (position' : SizeType) (token : option Token) :
  ConsumeIdentLikeToken inputStream position = Defined (ok, position', token) ->
  handed_over token.
Proof.
  unfold ConsumeIdentLikeToken. intros Hrun.
  bind_inv Hrun. destruct a as [[ok0 p0] string].
  destruct (negb ok0); [defined_inv Hrun; exact I |].
  destruct string as [string |]; [| discriminate].
  destruct (is_url string && test_at (fun c => c =? LEFT_PARENTHESIS) inputStream p0).
  - match type of Hrun with
    | (if ?b then _ else _) = _ => destruct b
    end.
    + defined_inv Hrun. exact I.
    + unfold ConsumeURL in Hrun. eapply ConsumeURL_loop_handed_over; exact Hrun.
  - destruct (test_at (fun c => c =? LEFT_PARENTHESIS) inputStream p0);
      defined_inv Hrun; exact I.
Qed.

Lemma ConsumeNumericToken_handed_over (inputStream : list CodePoint) (position : SizeType)
    (ok : bool) (position' : SizeType) (token : option Token) :
  ConsumeNumericToken inputStream position = Defined (ok, position', token) ->
  handed_over token.
Proof.
  unfold ConsumeNumericToken. intros Hrun.
  bind_inv Hrun. destruct a as [[ok0 p0] number].
  destruct (negb ok0); [defined_inv Hrun; exact I |].
  destruct number as [number |]; [| discriminate].
  destruct (DoThreeCodePointsStartIndentSequence inputStream p0).
  - bind_inv Hrun. destruct a as [[ok1 p1] unit].
    destruct (negb ok1); [defined_inv Hrun; exact I |].
    destruct unit; [defined_inv Hrun; exact I | discriminate].
  - bind_inv Hrun. destruct (a =? PERCENTAGE_SIGN); defined_inv Hrun; exact I.
Qed.

(** ** The name of a hash *)






(** Every token [ConsumeToken] constructs is as [dispatched] says. *)
Lemma ConsumeToken_dispatched (inputStream : list CodePoint) (position : SizeType)
    (position' : SizeType) (token : Token) :
  ConsumeToken inputStream position = Defined (true, position', Some token) ->
  dispatched inputStream token.
Proof.
  unfold ConsumeToken. intros Hrun.
  destruct (ConsumeComments inputStream position) as [okc p].
  destruct (negb okc); [discriminate |].
  destruct (p =? length inputStream)%nat; [discriminate |].
  bind_inv Hrun. rename a into c.
  unfold read in Ecall.
  destruct (nth_error inputStream p) as [c' |] eqn:Hread; [| discriminate].
  injection Ecall as ->.
  assert (Hother : forall t : option Token,
             handed_over t -> t = Some token -> dispatched inputStream token).
  { intros t Hnot ->. destruct token; try exact I; contradiction. }
  destruct (IsWhitespace c).
  { unfold ConsumeWhitespace in Hrun. defined_inv Hrun. exact I. }
  destruct (c =? QUOTATION_MARK).
  { eapply Hother; [eapply ConsumeStringToken_loop_handed_over; exact Hrun | reflexivity]. }
  destruct (c =? NUMBER_SIGN) eqn:Hhash.
  { apply Z.eqb_eq in Hhash. subst c.
    bind_inv Hrun.
    destruct (IsIdent a || AreTwoCodePointsValidEscape inputStream (S p));
      [| defined_inv Hrun; exact I].
    bind_inv Hrun. destruct a0 as [[ok0 p0] ident].
    destruct (negb ok0); [discriminate |].
    destruct ident as [ident |]; [| discriminate].
    defined_inv Hrun. exact I. }
  destruct (c =? APOSTROPHE).
  { eapply Hother; [eapply ConsumeStringToken_loop_handed_over; exact Hrun | reflexivity]. }
  destruct (c =? LEFT_PARENTHESIS); [defined_inv Hrun; exact I |].
  destruct (c =? RIGHT_PARENTHESIS); [defined_inv Hrun; exact I |].
  destruct (c =? PLUS_SIGN).
  { destruct (DoThreeCodePointsStartNumber inputStream (S p - 1));
      [| defined_inv Hrun; exact I].
    eapply Hother; [eapply ConsumeNumericToken_handed_over; exact Hrun | reflexivity]. }
  destruct (c =? COMMA); [defined_inv Hrun; exact I |].
  destruct (c =? HYPHEN_MINUS).
  { destruct (DoThreeCodePointsStartNumber inputStream (S p - 1)).
    { eapply Hother; [eapply ConsumeNumericToken_handed_over; exact Hrun | reflexivity]. }
    match type of Hrun with
    | (if ?b then _ else _) = _ => destruct b; [defined_inv Hrun; exact I |]
    end.
    destruct (DoThreeCodePointsStartIndentSequence inputStream (S p - 1));
      [| defined_inv Hrun; exact I].
    eapply Hother; [eapply ConsumeIdentLikeToken_handed_over; exact Hrun | reflexivity]. }
  destruct (c =? FULL_STOP).
  { destruct (DoThreeCodePointsStartNumber inputStream (S p - 1));
      [| defined_inv Hrun; exact I].
    eapply Hother; [eapply ConsumeNumericToken_handed_over; exact Hrun | reflexivity]. }
  destruct (c =? COLON); [defined_inv Hrun; exact I |].
  destruct (c =? SEMI_COLON); [defined_inv Hrun; exact I |].
  destruct (c =? LESS_THAN_SIGN).
  { match type of Hrun with
    | (if ?b then _ else _) = _ => destruct b; defined_inv Hrun; exact I
    end. }
  destruct (c =? COMMERCIAL_AT) eqn:Hat.
  { apply Z.eqb_eq in Hat. subst c.
    replace (S p - 1)%nat with p in Hrun by lia.
    rewrite (commercial_at_starts_no_ident inputStream p Hread) in Hrun.
    defined_inv Hrun. exact I. }
  destruct (c =? LEFT_SQUARE_BRACKET); [defined_inv Hrun; exact I |].
  destruct (c =? LEFT_CURLY_BRACKET); [defined_inv Hrun; exact I |].
  destruct (c =? RIGHT_CURLY_BRACKET); [defined_inv Hrun; exact I |].
  destruct (IsDigit c).
  { eapply Hother; [eapply ConsumeNumericToken_handed_over; exact Hrun | reflexivity]. }
  destruct (IsIdentStart c).
  { eapply Hother; [eapply ConsumeIdentLikeToken_handed_over; exact Hrun | reflexivity]. }
  defined_inv Hrun. exact I.
Qed.

Lemma TokenizeCodePoints_loop_dispatched (inputStream : list CodePoint) :
  forall (fuel : nat) (position : SizeType) (output : list Token)
         (ok : bool) (output' : list Token),
    Forall (dispatched inputStream) output ->
    TokenizeCodePoints_loop fuel inputStream position output = Defined (ok, output') ->
    Forall (dispatched inputStream) output'.
Proof.
  induction fuel as [| fuel IH]; intros position output ok output' Hout Hrun.
  - discriminate.
  - cbn [TokenizeCodePoints_loop] in Hrun.
    destruct (position <? length inputStream)%nat.
    2:{ injection Hrun as _ <-. exact Hout. }
    bind_inv Hrun. destruct a as [[ok0 p0] token].
    destruct ok0; cbn [negb] in Hrun; [| injection Hrun as _ <-; exact Hout].
    destruct token as [token |]; [| discriminate].
    eapply IH; [| exact Hrun].
    apply Forall_app. split; [exact Hout |].
    constructor; [| constructor].
    eapply ConsumeToken_dispatched. exact Ecall.
Qed.

(** A hash token comes from the number-sign branch of [ConsumeToken]. *)
Lemma ConsumeToken_hash (inputStream : list CodePoint) (position position' : SizeType)
    (value : HashTokenValue) :
  ConsumeToken inputStream position = Defined (true, position', Some (Hash value)) ->
  exists sign : SizeType,
    ConsumeComments inputStream position = (true, sign)
    /\ nth_error inputStream sign = Some NUMBER_SIGN
    /\ hash_IsID value = DoThreeCodePointsStartIndentSequence inputStream (S sign)
    /\ ConsumeIdentSequence inputStream (S sign)
       = Defined (true, position', Some (hash_Value value)).
Proof.
  unfold ConsumeToken. intros Hrun.
  destruct (ConsumeComments inputStream position) as [okc p].
  destruct okc; cbn [negb] in Hrun; [| discriminate].
  destruct (p =? length inputStream)%nat; [discriminate |].
  bind_inv Hrun. rename a into c.
  unfold read in Ecall.
  destruct (nth_error inputStream p) as [c' |] eqn:Hread; [| discriminate].
  injection Ecall as ->.
  assert (Hother : forall t : option Token,
             handed_over t -> t = Some (Hash value) -> False).
  { intros t Hnot ->. exact Hnot. }
  destruct (IsWhitespace c).
  { unfold ConsumeWhitespace in Hrun. discriminate. }
  destruct (c =? QUOTATION_MARK).
  { exfalso. eapply Hother;
      [eapply ConsumeStringToken_loop_handed_over; exact Hrun | reflexivity]. }
  destruct (c =? NUMBER_SIGN) eqn:Hhash.
  { apply Z.eqb_eq in Hhash. subst c.
    bind_inv Hrun.
    destruct (IsIdent a || AreTwoCodePointsValidEscape inputStream (S p));
      [| discriminate].
    bind_inv Hrun. destruct a0 as [[ok0 p0] ident].
    destruct ok0; cbn [negb] in Hrun; [| discriminate].
    destruct ident as [ident |]; [| discriminate].
    injection Hrun as <- <-. exists p. cbn [hash_IsID hash_Value]. auto. }
  exfalso.
  destruct (c =? APOSTROPHE).
  { eapply Hother; [eapply ConsumeStringToken_loop_handed_over; exact Hrun | reflexivity]. }
  destruct (c =? LEFT_PARENTHESIS); [discriminate |].
  destruct (c =? RIGHT_PARENTHESIS); [discriminate |].
  destruct (c =? PLUS_SIGN).
  { destruct (DoThreeCodePointsStartNumber inputStream (S p - 1)); [| discriminate].
    eapply Hother; [eapply ConsumeNumericToken_handed_over; exact Hrun | reflexivity]. }
  destruct (c =? COMMA); [discriminate |].
  destruct (c =? HYPHEN_MINUS).
  { destruct (DoThreeCodePointsStartNumber inputStream (S p - 1)).
    { eapply Hother; [eapply ConsumeNumericToken_handed_over; exact Hrun | reflexivity]. }
    match type of Hrun with
    | (if ?b then _ else _) = _ => destruct b; [discriminate |]
    end.
    destruct (DoThreeCodePointsStartIndentSequence inputStream (S p - 1));
      [| discriminate].
    eapply Hother; [eapply ConsumeIdentLikeToken_handed_over; exact Hrun | reflexivity]. }
  destruct (c =? FULL_STOP).
  { destruct (DoThreeCodePointsStartNumber inputStream (S p - 1)); [| discriminate].
    eapply Hother; [eapply ConsumeNumericToken_handed_over; exact Hrun | reflexivity]. }
  destruct (c =? COLON); [discriminate |].
  destruct (c =? SEMI_COLON); [discriminate |].
  destruct (c =? LESS_THAN_SIGN).
  { match type of Hrun with
    | (if ?b then _ else _) = _ => destruct b; discriminate
    end. }
  destruct (c =? COMMERCIAL_AT) eqn:Hat.
  { apply Z.eqb_eq in Hat. subst c.
    replace (S p - 1)%nat with p in Hrun by lia.
    rewrite (commercial_at_starts_no_ident inputStream p Hread) in Hrun.
    discriminate. }
  destruct (c =? LEFT_SQUARE_BRACKET); [discriminate |].
  destruct (c =? LEFT_CURLY_BRACKET); [discriminate |].
  destruct (c =? RIGHT_CURLY_BRACKET); [discriminate |].
  destruct (IsDigit c).
  { eapply Hother; [eapply ConsumeNumericToken_handed_over; exact Hrun | reflexivity]. }
  destruct (IsIdentStart c).
  { eapply Hother; [eapply ConsumeIdentLikeToken_handed_over; exact Hrun | reflexivity]. }
  discriminate.
Qed.

Lemma DoThreeCodePointsStartIndentSequence_length (inputStream : list CodePoint)
    (position : SizeType) :
  DoThreeCodePointsStartIndentSequence inputStream position = true ->
  (position + 2 < length inputStream)%nat.
Proof.
  unfold DoThreeCodePointsStartIndentSequence.
  destruct (length inputStream <=? position + 2)%nat eqn:Hlen; [discriminate |].
  intros _. apply Nat.leb_gt in Hlen. exact Hlen.
Qed.





(** ** Parse errors *)

(** C1.  An unterminated string ([QUOTATION_MARK] a), a newline inside a
    string and an unterminated url( make [TokenizeCodePoints] return false.
    [ConsumeStringToken] does construct the String and the BadString token,
    then returns false, and [ConsumeToken] passes the false on;
    [ConsumeURL] leaves its loop at the end of the input and returns false
    without a token. *)
Theorem parse_errors_fail_the_tokenizer :
  ConsumeStringToken [QUOTATION_MARK; 0x61] 1 QUOTATION_MARK
  = Defined (false, 2%nat, Some (String [0x61]))
  /\ TokenizeCodePoints [QUOTATION_MARK; 0x61] [] = Defined (false, [])
  /\ ConsumeStringToken [QUOTATION_MARK; 0x61; LINE_FEED; 0x62] 1 QUOTATION_MARK
     = Defined (false, 2%nat, Some BadString)
  /\ TokenizeCodePoints [QUOTATION_MARK; 0x61; LINE_FEED; 0x62] [] = Defined (false, [])
  /\ ConsumeURL [0x75; 0x72; 0x6C; LEFT_PARENTHESIS; 0x78] 4 = Defined (false, 5%nat, None)
  /\ TokenizeCodePoints [0x75; 0x72; 0x6C; LEFT_PARENTHESIS; 0x78] [] = Defined (false, []).
Proof.
  repeat split; reflexivity.
Qed.

(** No input makes the tokenizer emit a bad string: the only place that
    constructs one returns false. *)
Lemma bad_string_never_emitted (inputStream : list CodePoint) (ok : bool)
    (output : list Token) :
  TokenizeCodePoints inputStream [] = Defined (ok, output) ->
  ~ In BadString output.
Proof.
  intros Hrun Hin. unfold TokenizeCodePoints in Hrun.
  apply TokenizeCodePoints_loop_dispatched in Hrun; [| constructor].
  exact (proj1 (Forall_forall _ _) Hrun _ Hin).
Qed.

(** ** Comments *)

(** C3.  On the four code points / * / a the scan for the end of the
    comment starts at the opening solidus, so the asterisk of the opener
    and the solidus after it end the comment: [ConsumeComments] returns
    true at position 3 and the tokenizer succeeds with Ident(a). *)
Theorem unterminated_comment_is_accepted :
  ConsumeComments [SOLIDUS; ASTERISK; SOLIDUS; 0x61] 0 = (true, 3%nat)
  /\ TokenizeCodePoints [SOLIDUS; ASTERISK; SOLIDUS; 0x61] []
     = Defined (true, [Ident [0x61]]).
Proof.
  split; reflexivity.
Qed.

Lemma has_comment_end_cons (c : CodePoint) (rest : list CodePoint) :
  (c =? ASTERISK) = false -> has_comment_end (c :: rest) = has_comment_end rest.
Proof.
  intros Hc. cbn [has_comment_end]. destruct rest as [| c1 rest]; [reflexivity |].
  rewrite Hc. reflexivity.
Qed.

Lemma ConsumeComments_scan_unterminated (rest : list CodePoint) :
  forall (position : SizeType) (isPreviousAsterisk : bool),
    has_comment_end (if isPreviousAsterisk then ASTERISK :: rest else rest) = false ->
    ConsumeComments_scan rest position isPreviousAsterisk
    = (false, (position + length rest)%nat).
Proof.
  induction rest as [| c rest IH]; intros position star Hend; cbn [ConsumeComments_scan].
  - f_equal. simpl. lia.
  - replace (position + length (c :: rest))%nat with (S position + length rest)%nat
      by (simpl; lia).
    destruct (c =? ASTERISK) eqn:Hstar.
    + apply IH. apply Z.eqb_eq in Hstar. subst c.
      destruct star; [| exact Hend].
      cbn [has_comment_end] in Hend. apply orb_false_iff in Hend. apply Hend.
    + destruct star.
      * cbn [has_comment_end] in Hend. apply orb_false_iff in Hend.
        destruct Hend as [Hpair Hrest]. cbn [Z.eqb andb] in Hpair.
        change (ASTERISK =? ASTERISK) with true in Hpair. cbn [andb] in Hpair.
        rewrite Hpair. cbn [andb]. apply IH.
        rewrite <- Hrest. symmetry. apply has_comment_end_cons. exact Hstar.
      * rewrite andb_false_r. apply IH.
        rewrite <- Hend. symmetry. apply has_comment_end_cons. exact Hstar.
Qed.

(** Where the comment is not ended by an asterisk followed by a solidus,
    the asterisk of the opener included, the tokenizer does fail. *)
Lemma unterminated_comment_fails (body : list CodePoint) :
  has_comment_end (ASTERISK :: body) = false ->
  TokenizeCodePoints (SOLIDUS :: ASTERISK :: body) [] = Defined (false, []).
Proof.
  intros Hend.
  unfold TokenizeCodePoints, rounds. cbn [TokenizeCodePoints_loop].
  change (0 <? length (SOLIDUS :: ASTERISK :: body))%nat with true. cbv iota.
  unfold ConsumeToken, ConsumeComments.
  change (length (SOLIDUS :: ASTERISK :: body) <=? 0 + 1)%nat with false. cbv iota.
  change (test_at (fun c => c =? SOLIDUS) (SOLIDUS :: ASTERISK :: body) 0) with true.
  change (test_at (fun c => c =? ASTERISK) (SOLIDUS :: ASTERISK :: body) (0 + 1)) with true.
  cbn [negb orb skipn ConsumeComments_scan].
  change (SOLIDUS =? ASTERISK) with false. change (SOLIDUS =? SOLIDUS) with true.
  change (ASTERISK =? ASTERISK) with true. cbn [andb]. cbv iota.
  rewrite (ConsumeComments_scan_unterminated body 2 true Hend).
  reflexivity.
Qed.

(** ** Numbers *)

(** C5.  For 1.5 the integer flag is false and the stored double is
    1 * (1 + 5 * pow(10, 1)) * pow(10, 0), which is 51 and not 3/2; for 1e2
    the flag on the token is false while the stored object is the
    [int64_t] 100; for 4294967296 the flag is true and the stored integer
    is 0, the digits having been summed in an [unsigned]. *)
Theorem stored_number_differs :
  ConsumeNumber [0x31; FULL_STOP; 0x35] 0
  = Defined (true, 3%nat,
             Some (mkNumberTokenValue (AsDouble (mkDoubleExpr 1 1 5 1 0)) false))
  /\ TokenizeCodePoints [0x31; FULL_STOP; 0x35; SPACE] []
     = Defined (true,
                [Number (mkNumberTokenValue (AsDouble (mkDoubleExpr 1 1 5 1 0)) false);
                 Whitespace])
  /\ DoubleExpr_exact (mkDoubleExpr 1 1 5 1 0) = 51
  /\ ~ (inject_Z 51 == spec_number_value 1 1 5 1 1 0)%Q
  /\ ConsumeNumber [0x31; LATIN_SMALL_LETTER_E; 0x32] 0
     = Defined (true, 3%nat, Some (mkNumberTokenValue (AsInt64 100) false))
  /\ ConsumeNumber [0x34; 0x32; 0x39; 0x34; 0x39; 0x36; 0x37; 0x32; 0x39; 0x36] 0
     = Defined (true, 10%nat, Some (mkNumberTokenValue (AsInt64 0) true))
  /\ spec_integer_value 1 4294967296 0 = 4294967296.
Proof.
  repeat split; try reflexivity.
  intros Heq. vm_compute in Heq. discriminate Heq.
Qed.

(** ** Dispatch *)

(** C6.  The eight code points of url(, a quotation mark, x, a quotation
    mark and a right parenthesis give BadURL and RightParenthesis: the
    look-ahead asks for a quotation mark followed by an apostrophe, so the
    quoted argument goes to [ConsumeURL]. *)
Theorem quoted_url_is_bad_url :
  TokenizeCodePoints
    [0x75; 0x72; 0x6C; LEFT_PARENTHESIS; QUOTATION_MARK; 0x78; QUOTATION_MARK;
     RIGHT_PARENTHESIS] []
  = Defined (true, [BadURL; RightParenthesis]).
Proof.
  reflexivity.
Qed.

(** C7.  The seven code points of @media and a space give Delim(@),
    Ident(media) and Whitespace: the look-ahead starts at the commercial at
    itself. *)
Theorem commercial_at_is_delim :
  TokenizeCodePoints [COMMERCIAL_AT; 0x6D; 0x65; 0x64; 0x69; 0x61; SPACE] []
  = Defined (true, [Delim COMMERCIAL_AT; Ident [0x6D; 0x65; 0x64; 0x69; 0x61]; Whitespace]).
Proof.
  reflexivity.
Qed.

(** No input makes the tokenizer emit an at-keyword. *)
Lemma at_keyword_never_emitted (inputStream : list CodePoint) (ok : bool)
    (output : list Token) (value : list CodePoint) :
  TokenizeCodePoints inputStream [] = Defined (ok, output) ->
  ~ In (AtKeyword value) output.
Proof.
  intros Hrun Hin. unfold TokenizeCodePoints in Hrun.
  apply TokenizeCodePoints_loop_dispatched in Hrun; [| constructor].
  exact (proj1 (Forall_forall _ _) Hrun _ Hin).
Qed.

(** C8.  A right square bracket gives Delim: the dispatch has no branch
    for it.  The other eight code points give their own tokens. *)
Theorem right_square_bracket_is_delim :
  TokenizeCodePoints [RIGHT_SQUARE_BRACKET] [] = Defined (true, [Delim RIGHT_SQUARE_BRACKET])
  /\ TokenizeCodePoints
       [LEFT_PARENTHESIS; RIGHT_PARENTHESIS; LEFT_SQUARE_BRACKET; LEFT_CURLY_BRACKET;
        RIGHT_CURLY_BRACKET; COMMA; COLON; SEMI_COLON] []
     = Defined (true,
                [LeftParenthesis; RightParenthesis; LeftSquareBracket; LeftCurlyBracket;
                 RightCurlyBracket; Comma; Colon; SemiColon]).
Proof.
  split; reflexivity.
Qed.

(** No input makes the tokenizer emit a right square bracket token. *)
Lemma right_square_bracket_never_emitted (inputStream : list CodePoint) (ok : bool)
    (output : list Token) :
  TokenizeCodePoints inputStream [] = Defined (ok, output) ->
  ~ In RightSquareBracket output.
Proof.
  intros Hrun Hin. unfold TokenizeCodePoints in Hrun.
  apply TokenizeCodePoints_loop_dispatched in Hrun; [| constructor].
  exact (proj1 (Forall_forall _ _) Hrun _ Hin).
Qed.

(** ** Reads past the end *)

(** A number that ends the input sends [ConsumeNumericToken] past the end. *)
Lemma ConsumeNumericToken_at_end (inputStream : list CodePoint) (position : SizeType)
    (number : NumberTokenValue) :
  ConsumeNumber inputStream position = Defined (true, length inputStream, Some number) ->
  ConsumeNumericToken inputStream position = Undefined ReadPastEnd.
Proof.
  intros Hnumber. unfold ConsumeNumericToken. rewrite Hnumber. cbn [bind negb].
  unfold DoThreeCodePointsStartIndentSequence.
  replace (length inputStream <=? length inputStream + 2)%nat with true
    by (symmetry; apply Nat.leb_le; lia).
  unfold read.
  replace (nth_error inputStream (length inputStream)) with (@None CodePoint)
    by (symmetry; apply nth_error_None; lia).
  reflexivity.
Qed.

(** A hex digit that ends the input sends [ConsumeEscapedCodePoint] past
    the end. *)
Lemma ConsumeEscapedCodePoint_at_end (inputStream : list CodePoint) (position : SizeType)
    (codePoint : CodePoint) :
  nth_error inputStream position = Some codePoint ->
  IsHexDigit codePoint = true ->
  S position = length inputStream ->
  ConsumeEscapedCodePoint inputStream position = Undefined ReadPastEnd.
Proof.
  intros Hread Hhex Hlast. unfold ConsumeEscapedCodePoint.
  replace (position =? length inputStream)%nat with false
    by (symmetry; apply Nat.eqb_neq; lia).
  unfold read at 1. rewrite Hread. cbn [bind]. rewrite Hhex.
  cbn [ConsumeEscapedCodePoint_hex]. unfold read at 1.
  replace (nth_error inputStream (S position)) with (@None CodePoint)
    by (symmetry; apply nth_error_None; lia).
  reflexivity.
Qed.

(** C10.  [ConsumeNumericToken] on the single digit 1 reads index 1 of a
    one-element input when it looks for the percentage sign, and
    [ConsumeEscapedCodePoint] on the two hex digits 41 reads index 2 of a
    two-element input when it looks for a further hex digit. *)
Theorem unguarded_reads :
  ConsumeNumericToken [0x31] 0 = Undefined ReadPastEnd
  /\ TokenizeCodePoints [0x31] [] = Undefined ReadPastEnd
  /\ ConsumeEscapedCodePoint [0x34; 0x31] 0 = Undefined ReadPastEnd
  /\ TokenizeCodePoints [QUOTATION_MARK; REVERSE_SOLIDUS; 0x34; 0x31] []
     = Undefined ReadPastEnd.
Proof.
  repeat split; reflexivity.
Qed.

(** * Further properties *)

(** ** When the decoder fails *)

Lemma byte_value_inj (b b' : byte) : byte_value b = byte_value b' -> b = b'.
Proof.
  unfold byte_value. intros H. apply N2Z.inj in H.
  pose proof (Byte.of_to_N b) as Hb. rewrite H, Byte.of_to_N in Hb. congruence.
Qed.

Lemma BOMSniff_short (signed : bool) (ioQueue : list byte) :
  (length ioQueue < 3)%nat -> BOMSniff signed ioQueue 0 = Count.
Proof.
  intros Hlen. unfold BOMSniff.
  replace (length ioQueue <? 0 + 3)%nat with true by (symmetry; apply Nat.ltb_lt; lia).
  reflexivity.
Qed.

(** What [BOMSniff] finds at the head of a buffer of three bytes or more
    when plain [char] is unsigned. *)
Lemma BOMSniff_unsigned (b0 b1 b2 : byte) (rest : list byte) :
  BOMSniff false (b0 :: b1 :: b2 :: rest) 0
  = if byte_value b0 =? 0xEF then
      if (byte_value b1 =? 0xBB) && (byte_value b2 =? 0xBF) then UTF8 else Count
    else if byte_value b0 =? 0xFE then
      if byte_value b1 =? 0xFF then UTF16BE else Count
    else if byte_value b0 =? 0xFF then
      if byte_value b1 =? 0xFE then UTF16LE else Count
    else Count.
Proof. reflexivity. Qed.

(** X1.  [CreateCodePointsStream] returns false exactly when plain [char]
    is unsigned and the buffer has at least three bytes of which the first
    two are FE FF or FF FE; [output] is then left as it was. *)
Theorem decoder_fails_only_on_utf16_bom (char_is_signed : bool) (text : list byte)
    (output output' : list CodePoint) :
  CreateCodePointsStream char_is_signed text output = Some (false, output')
  <-> char_is_signed = false
      /\ output' = output
      /\ exists (b2 : byte) (rest : list byte),
           text = xfe :: xff :: b2 :: rest \/ text = xff :: xfe :: b2 :: rest.
Proof.
  split.
  - intros Hrun. unfold CreateCodePointsStream in Hrun. cbv zeta in Hrun.
    assert (Hdec : forall p, match UTF8Decode char_is_signed text p [] with
                             | Some (_, out) => Some (true, out)
                             | None => None
                             end <> Some (false, output')).
    { intros p. destruct (UTF8Decode char_is_signed text p []) as [[q out] |]; discriminate. }
    destruct char_is_signed.
    { rewrite BOMSniff_signed_char in Hrun. cbn [Encoding_eqb negb] in Hrun.
      exfalso; first [exact (Hdec 0%nat Hrun) | exact (Hdec (0 + 3)%nat Hrun)]. }
    split; [reflexivity |].
    destruct text as [| b0 [| b1 [| b2 rest]]];
      try (rewrite BOMSniff_short in Hrun by (cbn [length]; lia);
           cbn [Encoding_eqb negb] in Hrun; exfalso; first [exact (Hdec 0%nat Hrun) | exact (Hdec (0 + 3)%nat Hrun)]).
    rewrite BOMSniff_unsigned in Hrun.
    destruct (byte_value b0 =? 239) eqn:E0.
    { destruct ((byte_value b1 =? 187) && (byte_value b2 =? 191));
        cbn [Encoding_eqb negb] in Hrun; exfalso; first [exact (Hdec 0%nat Hrun) | exact (Hdec (0 + 3)%nat Hrun)]. }
    destruct (byte_value b0 =? 254) eqn:E1.
    { destruct (byte_value b1 =? 255) eqn:E2; cbn [Encoding_eqb negb] in Hrun;
        [| exfalso; first [exact (Hdec 0%nat Hrun) | exact (Hdec (0 + 3)%nat Hrun)]].
      injection Hrun as <-. split; [reflexivity |]. exists b2, rest. left.
      apply Z.eqb_eq in E1, E2.
      rewrite (byte_value_inj b0 xfe E1), (byte_value_inj b1 xff E2). reflexivity. }
    destruct (byte_value b0 =? 255) eqn:E3;
      [| cbn [Encoding_eqb negb] in Hrun; exfalso; first [exact (Hdec 0%nat Hrun) | exact (Hdec (0 + 3)%nat Hrun)]].
    destruct (byte_value b1 =? 254) eqn:E4; cbn [Encoding_eqb negb] in Hrun;
      [| exfalso; first [exact (Hdec 0%nat Hrun) | exact (Hdec (0 + 3)%nat Hrun)]].
    injection Hrun as <-. split; [reflexivity |]. exists b2, rest. right.
    apply Z.eqb_eq in E3, E4.
    rewrite (byte_value_inj b0 xff E3), (byte_value_inj b1 xfe E4). reflexivity.
  - intros (-> & -> & b2 & rest & [-> | ->]); reflexivity.
Qed.

Lemma decoder_fails_only_on_utf16_bom_witness :
  CreateCodePointsStream false [xff; xfe; x41; x00] [0x61] = Some (false, [0x61]).
Proof.
  apply (proj2 (decoder_fails_only_on_utf16_bom false [xff; xfe; x41; x00] [0x61] [0x61])).
  split; [reflexivity |]. split; [reflexivity |].
  exists x41, [x00]. right. reflexivity.
Defined.

(** X2.  Where plain [char] is signed, [Parse] accepts every buffer: the
    comparisons of [BOMSniff] never hold, so no encoding is rejected. *)
Theorem Parse_signed_char_accepts_all (text : list byte) :
  Parse true text = Some true.
Proof.
  unfold Parse, CreateCodePointsStream. cbv zeta.
  rewrite BOMSniff_signed_char. cbn [Encoding_eqb negb].
  destruct (UTF8Decode_total true text 0 []) as [[p out] ->]. reflexivity.
Qed.

(** ** The decoding loop as a function of the bytes ahead *)

Ltac decoder_cases :=
  repeat match goal with
         | |- context [if ?b then _ else _] => destruct b
         | |- context [let '(_, _) := ?p in _] => destruct p
         end.

(** More fuel does not change what the loop returns. *)
Lemma UTF8Decode_loop_more_fuel (signed : bool) (input : list byte) (k : nat) :
  forall (fuel : nat) (inputPosition : nat)
         (codePoint bytesSeen bytesNeeded lowerBoundary upperBoundary : Z)
         (cr : bool) (output : list CodePoint) (r : nat * list CodePoint),
    UTF8Decode_loop signed fuel input inputPosition
      codePoint bytesSeen bytesNeeded lowerBoundary upperBoundary cr output = Some r ->
    UTF8Decode_loop signed (fuel + k) input inputPosition
      codePoint bytesSeen bytesNeeded lowerBoundary upperBoundary cr output = Some r.
Proof.
  induction fuel as [| fuel IH]; intros pos cp seen needed lo hi cr out r; [discriminate |].
  cbn [Nat.add UTF8Decode_loop].
  destruct (nth_error input pos) as [c |]; [| auto].
  decoder_cases; auto.
Qed.

(** Decoding behind a prefix is decoding without it. *)
Lemma UTF8Decode_loop_shift (signed : bool) (pre rest : list byte) :
  forall (fuel : nat) (inputPosition : nat)
         (codePoint bytesSeen bytesNeeded lowerBoundary upperBoundary : Z)
         (cr : bool) (output : list CodePoint),
    UTF8Decode_loop signed fuel (pre ++ rest) (length pre + inputPosition)
      codePoint bytesSeen bytesNeeded lowerBoundary upperBoundary cr output
    = option_map (fun r => ((length pre + fst r)%nat, snd r))
        (UTF8Decode_loop signed fuel rest inputPosition
           codePoint bytesSeen bytesNeeded lowerBoundary upperBoundary cr output).
Proof.
  induction fuel as [| fuel IH]; intros pos cp seen needed lo hi cr out; [reflexivity |].
  cbn [UTF8Decode_loop].
  rewrite nth_error_app2 by lia.
  replace (length pre + pos - length pre)%nat with pos by lia.
  destruct (nth_error rest pos) as [c |].
  2:{ destruct (negb (needed =? 0)); reflexivity. }
  decoder_cases; rewrite <- ?Nat.add_succ_r; first [reflexivity | apply IH].
Qed.

(** X3.  With an unsigned plain [char], a buffer that starts with the
    UTF-8 byte order mark EF BB BF is decoded as the bytes after the mark. *)
Theorem utf8_bom_is_skipped (rest : list byte) (output : list CodePoint) :
  CreateCodePointsStream false (xef :: xbb :: xbf :: rest) output
  = match UTF8Decode false rest 0 [] with
    | Some (_, out) => Some (true, out)
    | None => None
    end.
Proof.
  unfold CreateCodePointsStream. cbv zeta.
  rewrite BOMSniff_unsigned.
  change (byte_value xef =? 239) with true.
  change ((byte_value xbb =? 187) && (byte_value xbf =? 191)) with true.
  cbn [Encoding_eqb negb]. unfold UTF8Decode, UTF8Decode_fuel.
  change (xef :: xbb :: xbf :: rest) with ([xef; xbb; xbf] ++ rest).
  change (0 + 3)%nat with (length [xef; xbb; xbf] + 0)%nat.
  rewrite length_app.
  replace (2 * (length [xef; xbb; xbf] + length rest - (length [xef; xbb; xbf] + 0)) + 1)%nat
    with (2 * (length rest - 0) + 1)%nat by lia.
  rewrite UTF8Decode_loop_shift.
  destruct (UTF8Decode_loop false (2 * (length rest - 0) + 1) rest 0 0 0 0 128 191 false [])
    as [[p out] |]; reflexivity.
Qed.

(** ** The decoder never produces more code points than it has bytes *)

Lemma PushCodePoint_length (codePoint : CodePoint) (cr : bool) (output : list CodePoint) :
  (length (snd (PushCodePoint codePoint cr output)) <= length output + 1)%nat.
Proof.
  unfold PushCodePoint.
  repeat match goal with
         | |- context [if ?b then _ else _] => destruct b
         end; cbn [snd]; rewrite ?length_app; cbn [length]; lia.
Qed.

#[local] Opaque PushCodePoint.

Lemma UTF8Decode_loop_length (signed : bool) (input : list byte) :
  forall (fuel : nat) (inputPosition : nat)
         (codePoint bytesSeen bytesNeeded lowerBoundary upperBoundary : Z)
         (cr : bool) (output : list CodePoint) (r : nat * list CodePoint),
    UTF8Decode_loop signed fuel input inputPosition
      codePoint bytesSeen bytesNeeded lowerBoundary upperBoundary cr output = Some r ->
    (length (snd r)
     <= length output + (length input - inputPosition)
        + (if (bytesNeeded =? 0)%Z then 0 else 1))%nat.
Proof.
  induction fuel as [| fuel IH]; intros pos cp seen needed lo hi cr out r Hrun;
    [discriminate |].
  cbn [UTF8Decode_loop] in Hrun.
  destruct (nth_error input pos) as [c |] eqn:Hread.
  2:{ destruct (needed =? 0); cbn [negb] in Hrun; injection Hrun as <-; cbn [snd].
      - lia.
      - pose proof (PushCodePoint_length REPLACEMENT cr out). lia. }
  assert (Hpos : (pos < length input)%nat)
    by (apply nth_error_Some; rewrite Hread; discriminate).
  destruct (u8 (char_value signed c) =? 0).
  { destruct (needed =? 0); cbn [negb] in Hrun; injection Hrun as <-; cbn [snd].
    - lia.
    - pose proof (PushCodePoint_length REPLACEMENT cr out). lia. }
  destruct (needed =? 0) eqn:Hneeded.
  - repeat match type of Hrun with
           | context [if ?b then _ else _] => destruct b
           end;
      try match type of Hrun with
          | context [PushCodePoint ?x ?y ?z] =>
              pose proof (PushCodePoint_length x y z);
              destruct (PushCodePoint x y z) as [cr' out']; cbn [snd] in *
          end;
      apply IH in Hrun; try rewrite Hneeded in Hrun; cbn [Z.eqb] in Hrun; lia.
  - repeat match type of Hrun with
           | context [if ?b then _ else _] => destruct b eqn:?
           end;
      try match type of Hrun with
          | context [PushCodePoint ?x ?y ?z] =>
              pose proof (PushCodePoint_length x y z);
              destruct (PushCodePoint x y z) as [cr' out']; cbn [snd] in *
          end;
      apply IH in Hrun; try rewrite Hneeded in Hrun; cbn [Z.eqb] in Hrun; lia.
Qed.

#[local] Transparent PushCodePoint.

(** X4.  An accepting [CreateCodePointsStream] leaves in [output] at most
    as many code points as the buffer has bytes. *)
Theorem decoder_output_length (char_is_signed : bool) (text : list byte)
    (output0 output : list CodePoint) :
  CreateCodePointsStream char_is_signed text output0 = Some (true, output) ->
  (length output <= length text)%nat.
Proof.
  unfold CreateCodePointsStream. cbv zeta. unfold UTF8Decode. intros Hrun.
  assert (Hdec : forall fuel p r,
             UTF8Decode_loop char_is_signed fuel text p 0 0 0 128 191 false [] = Some r ->
             (length (snd r) <= length text)%nat).
  { intros fuel p r Hr. apply UTF8Decode_loop_length in Hr.
    cbn [Z.eqb length] in Hr. lia. }
  destruct (negb (Encoding_eqb (BOMSniff char_is_signed text 0) Count)).
  - destruct (negb (Encoding_eqb (BOMSniff char_is_signed text 0) UTF8)); [discriminate |].
    destruct (UTF8Decode_loop char_is_signed _ text (0 + 3) 0 0 0 128 191 false [])
      as [[p out] |] eqn:Hr; [| discriminate].
    injection Hrun as <-. exact (Hdec _ _ _ Hr).
  - destruct (UTF8Decode_loop char_is_signed _ text 0 0 0 0 128 191 false [])
      as [[p out] |] eqn:Hr; [| discriminate].
    injection Hrun as <-. exact (Hdec _ _ _ Hr).
Qed.

Lemma decoder_output_length_witness :
  (length [0xFFFD; 0x41; 0x0A]%Z <= length [xe0; x41; x0d; x0a])%nat.
Proof.
  apply (decoder_output_length false [xe0; x41; x0d; x0a] [] [0xFFFD; 0x41; 0x0A]).
  reflexivity.
Defined.

(** ** One byte at a time *)

Lemma u8_char_byte_value (signed : bool) (b : byte) :
  u8 (char_value signed b) = byte_value b.
Proof. apply u8_char_value. Qed.

Lemma byte_value_range (b : byte) : 0 <= byte_value b < 256.
Proof. apply byte_range. Qed.

Lemma byte_value_of_Z (z : Z) : 0 <= z < 256 -> byte_value (byte_of_Z z) = z.
Proof.
  intros Hz. unfold byte_value, byte_of_Z.
  destruct (Byte.of_N (Z.to_N z)) as [b |] eqn:Hb.
  - apply Byte.to_of_N in Hb. rewrite Hb. lia.
  - apply Byte.of_N_None_iff in Hb. lia.
Qed.

Section Steps.

Variable signed : bool.
Variable input : list byte.
Variable fuel : nat.
Variable position : nat.
Variable b : byte.
Hypothesis Hread : nth_error input position = Some b.

(** An ASCII byte other than NUL, met between two sequences. *)
Lemma UTF8Decode_loop_ascii (cr : bool) (output : list CodePoint) :
  0 < byte_value b < 0x80 ->
  UTF8Decode_loop signed (S fuel) input position 0 0 0 0x80 0xBF cr output
  = UTF8Decode_loop signed fuel input (S position) 0 0 0 0x80 0xBF
      (fst (PushCodePoint (byte_value b) cr output))
      (snd (PushCodePoint (byte_value b) cr output)).
Proof.
  intros Hv. cbn [UTF8Decode_loop]. rewrite Hread, u8_char_byte_value.
  destruct (byte_value b =? 0) eqn:E0; [bool_facts; lia |].
  change (0 =? 0) with true. cbv iota.
  destruct ((0 <=? byte_value b) && (byte_value b <=? 127)) eqn:E1; [| bool_facts; lia].
  destruct (PushCodePoint (byte_value b) cr output). reflexivity.
Qed.

(** The leading byte of a sequence of two. *)
Lemma UTF8Decode_loop_lead2 (cr : bool) (output : list CodePoint) :
  0xC2 <= byte_value b <= 0xDF ->
  UTF8Decode_loop signed (S fuel) input position 0 0 0 0x80 0xBF cr output
  = UTF8Decode_loop signed fuel input (S position)
      (byte_value b - 192) 0 1 0x80 0xBF cr output.
Proof.
  intros Hv. cbn [UTF8Decode_loop]. rewrite Hread, u8_char_byte_value.
  destruct (byte_value b =? 0) eqn:E0; [bool_facts; lia |].
  change (0 =? 0) with true. cbv iota.
  destruct ((0 <=? byte_value b) && (byte_value b <=? 127)) eqn:E1; [bool_facts; lia |].
  destruct ((194 <=? byte_value b) && (byte_value b <=? 223)) eqn:E2; [| bool_facts; lia].
  change 31 with (Z.ones 5).
  rewrite (leading_bits (byte_value b) 5 192) by (try reflexivity; simpl; lia).
  reflexivity.
Qed.

(** The leading byte of a sequence of three. *)
Lemma UTF8Decode_loop_lead3 (cr : bool) (output : list CodePoint) :
  0xE0 <= byte_value b <= 0xEF ->
  UTF8Decode_loop signed (S fuel) input position 0 0 0 0x80 0xBF cr output
  = UTF8Decode_loop signed fuel input (S position)
      (byte_value b - 224) 0 2
      (if byte_value b =? 0xE0 then 0xA0 else 0x80)
      (if byte_value b =? 0xE0 then 0xBF else if byte_value b =? 0xED then 0x9F else 0xBF)
      cr output.
Proof.
  intros Hv. cbn [UTF8Decode_loop]. rewrite Hread, u8_char_byte_value.
  destruct (byte_value b =? 0) eqn:E0; [bool_facts; lia |].
  change (0 =? 0) with true. cbv iota.
  destruct ((0 <=? byte_value b) && (byte_value b <=? 127)) eqn:E1; [bool_facts; lia |].
  destruct ((194 <=? byte_value b) && (byte_value b <=? 223)) eqn:E2; [bool_facts; lia |].
  destruct ((224 <=? byte_value b) && (byte_value b <=? 239)) eqn:E3; [| bool_facts; lia].
  change 15 with (Z.ones 4).
  rewrite (leading_bits (byte_value b) 4 224) by (try reflexivity; simpl; lia).
  reflexivity.
Qed.

(** The leading byte of a sequence of four. *)
Lemma UTF8Decode_loop_lead4 (cr : bool) (output : list CodePoint) :
  0xF0 <= byte_value b <= 0xF4 ->
  UTF8Decode_loop signed (S fuel) input position 0 0 0 0x80 0xBF cr output
  = UTF8Decode_loop signed fuel input (S position)
      (byte_value b - 240) 0 3
      (if byte_value b =? 0xF0 then 0x90 else 0x80)
      (if byte_value b =? 0xF0 then 0xBF else if byte_value b =? 0xF4 then 0x8F else 0xBF)
      cr output.
Proof.
  intros Hv. cbn [UTF8Decode_loop]. rewrite Hread, u8_char_byte_value.
  destruct (byte_value b =? 0) eqn:E0; [bool_facts; lia |].
  change (0 =? 0) with true. cbv iota.
  destruct ((0 <=? byte_value b) && (byte_value b <=? 127)) eqn:E1; [bool_facts; lia |].
  destruct ((194 <=? byte_value b) && (byte_value b <=? 223)) eqn:E2; [bool_facts; lia |].
  destruct ((224 <=? byte_value b) && (byte_value b <=? 239)) eqn:E3; [bool_facts; lia |].
  destruct ((240 <=? byte_value b) && (byte_value b <=? 244)) eqn:E4; [| bool_facts; lia].
  change 7 with (Z.ones 3).
  rewrite (leading_bits (byte_value b) 3 240) by (try reflexivity; simpl; lia).
  reflexivity.
Qed.

(** A continuation byte inside its window, with more to come. *)
Lemma UTF8Decode_loop_continue
    (codePoint bytesSeen bytesNeeded lowerBoundary upperBoundary : Z)
    (cr : bool) (output : list CodePoint) :
  0 <= codePoint < 2 ^ 26 -> 0 <= bytesSeen < 255 -> bytesNeeded <> 0 ->
  0x80 <= byte_value b <= 0xBF -> lowerBoundary <= byte_value b <= upperBoundary ->
  bytesSeen + 1 <> bytesNeeded ->
  UTF8Decode_loop signed (S fuel) input position
    codePoint bytesSeen bytesNeeded lowerBoundary upperBoundary cr output
  = UTF8Decode_loop signed fuel input (S position)
      (codePoint * 64 + (byte_value b - 128)) (bytesSeen + 1) bytesNeeded 0x80 0xBF
      cr output.
Proof.
  intros Hcp Hseen Hneeded Hv Hwin Hmore.
  cbn [UTF8Decode_loop]. rewrite Hread, u8_char_byte_value.
  destruct (byte_value b =? 0) eqn:E0; [bool_facts; lia |].
  destruct (bytesNeeded =? 0) eqn:E1; [bool_facts; lia |].
  destruct ((byte_value b <? lowerBoundary) || (upperBoundary <? byte_value b)) eqn:E2;
    [bool_facts; lia |].
  rewrite (accumulate_continuation codePoint (byte_value b) Hcp Hv).
  replace (u8 (bytesSeen + 1)) with (bytesSeen + 1)
    by (unfold u8; symmetry; apply Z.mod_small; lia).
  destruct (negb (bytesSeen + 1 =? bytesNeeded)) eqn:E3; [reflexivity | bool_facts; lia].
Qed.

(** The last continuation byte of a sequence. *)
Lemma UTF8Decode_loop_finish
    (codePoint bytesSeen bytesNeeded lowerBoundary upperBoundary : Z)
    (cr : bool) (output : list CodePoint) :
  0 <= codePoint < 2 ^ 26 -> 0 <= bytesSeen < 255 -> bytesNeeded <> 0 ->
  0x80 <= byte_value b <= 0xBF -> lowerBoundary <= byte_value b <= upperBoundary ->
  bytesSeen + 1 = bytesNeeded ->
  UTF8Decode_loop signed (S fuel) input position
    codePoint bytesSeen bytesNeeded lowerBoundary upperBoundary cr output
  = UTF8Decode_loop signed fuel input (S position) 0 0 0 0x80 0xBF
      (fst (PushCodePoint (codePoint * 64 + (byte_value b - 128)) cr output))
      (snd (PushCodePoint (codePoint * 64 + (byte_value b - 128)) cr output)).
Proof.
  intros Hcp Hseen Hneeded Hv Hwin Hdone.
  cbn [UTF8Decode_loop]. rewrite Hread, u8_char_byte_value.
  destruct (byte_value b =? 0) eqn:E0; [bool_facts; lia |].
  destruct (bytesNeeded =? 0) eqn:E1; [bool_facts; lia |].
  destruct ((byte_value b <? lowerBoundary) || (upperBoundary <? byte_value b)) eqn:E2;
    [bool_facts; lia |].
  rewrite (accumulate_continuation codePoint (byte_value b) Hcp Hv).
  replace (u8 (bytesSeen + 1)) with (bytesSeen + 1)
    by (unfold u8; symmetry; apply Z.mod_small; lia).
  destruct (negb (bytesSeen + 1 =? bytesNeeded)) eqn:E3; [bool_facts; lia |].
  destruct (PushCodePoint (codePoint * 64 + (byte_value b - 128)) cr output). reflexivity.
Qed.

End Steps.

(** ** Decoding what was encoded *)

Ltac encoded_arith :=
  repeat match goal with
         | |- context [if ?x =? ?y then _ else _] => destruct (x =? y) eqn:?
         end;
  bool_facts; Z.div_mod_to_equations; lia.

(** The bytes of one encoded scalar value take the decoder from one idle
    state to the next and push that value. *)
Lemma UTF8Decode_loop_encoded (signed : bool) (input : list byte) (position fuel : nat)
    (cr : bool) (output : list CodePoint) (c : CodePoint) :
  scalar_value c ->
  (forall i b, nth_error (UTF8Encode c) i = Some b ->
               nth_error input (position + i) = Some b) ->
  UTF8Decode_loop signed (length (UTF8Encode c) + fuel) input position
    0 0 0 0x80 0xBF cr output
  = UTF8Decode_loop signed fuel input (position + length (UTF8Encode c))
      0 0 0 0x80 0xBF (fst (PushCodePoint c cr output)) (snd (PushCodePoint c cr output)).
Proof.
  intros [Hrange Hsur] Hin. unfold UTF8Encode in *.
  destruct (c <? 128) eqn:H1.
  { pose proof (Hin 0%nat _ eq_refl) as R0. rewrite Nat.add_0_r in R0.
    assert (V0 : byte_value (byte_of_Z c) = c) by (apply byte_value_of_Z; encoded_arith).
    cbn [length Nat.add].
    rewrite (UTF8Decode_loop_ascii signed input fuel position _ R0) by (rewrite V0; encoded_arith).
    rewrite V0. replace (position + 1)%nat with (S position) by lia. reflexivity. }
  destruct (c <? 2048) eqn:H2.
  { pose proof (Hin 0%nat _ eq_refl) as R0. rewrite Nat.add_0_r in R0.
    pose proof (Hin 1%nat _ eq_refl) as R1. rewrite Nat.add_1_r in R1.
    assert (V0 : byte_value (byte_of_Z (192 + c / 64)) = 192 + c / 64)
      by (apply byte_value_of_Z; encoded_arith).
    assert (V1 : byte_value (byte_of_Z (128 + c mod 64)) = 128 + c mod 64)
      by (apply byte_value_of_Z; encoded_arith).
    cbn [length Nat.add].
    rewrite (UTF8Decode_loop_lead2 signed input (S fuel) position _ R0)
      by (rewrite V0; encoded_arith).
    rewrite (UTF8Decode_loop_finish signed input fuel (S position) _ R1)
      by (rewrite ?V0, ?V1; encoded_arith).
    replace ((byte_value (byte_of_Z (192 + c / 64)) - 192) * 64
             + (byte_value (byte_of_Z (128 + c mod 64)) - 128)) with c
      by (rewrite V0, V1; encoded_arith).
    replace (position + 2)%nat with (S (S position)) by lia. reflexivity. }
  destruct (c <? 65536) eqn:H3.
  { pose proof (Hin 0%nat _ eq_refl) as R0. rewrite Nat.add_0_r in R0.
    pose proof (Hin 1%nat _ eq_refl) as R1. rewrite Nat.add_1_r in R1.
    pose proof (Hin 2%nat _ eq_refl) as R2.
    replace (position + 2)%nat with (S (S position)) in R2 by lia.
    assert (V0 : byte_value (byte_of_Z (224 + c / 4096)) = 224 + c / 4096)
      by (apply byte_value_of_Z; encoded_arith).
    assert (V1 : byte_value (byte_of_Z (128 + (c / 64) mod 64)) = 128 + (c / 64) mod 64)
      by (apply byte_value_of_Z; encoded_arith).
    assert (V2 : byte_value (byte_of_Z (128 + c mod 64)) = 128 + c mod 64)
      by (apply byte_value_of_Z; encoded_arith).
    cbn [length Nat.add].
    rewrite (UTF8Decode_loop_lead3 signed input (S (S fuel)) position _ R0)
      by (rewrite V0; encoded_arith).
    rewrite (UTF8Decode_loop_continue signed input (S fuel) (S position) _ R1)
      by (rewrite ?V0, ?V1; encoded_arith).
    rewrite (UTF8Decode_loop_finish signed input fuel (S (S position)) _ R2)
      by (rewrite ?V0, ?V1, ?V2; encoded_arith).
    replace ((((byte_value (byte_of_Z (224 + c / 4096)) - 224) * 64
               + (byte_value (byte_of_Z (128 + (c / 64) mod 64)) - 128)) * 64
              + (byte_value (byte_of_Z (128 + c mod 64)) - 128))) with c
      by (rewrite V0, V1, V2; encoded_arith).
    replace (position + 3)%nat with (S (S (S position))) by lia. reflexivity. }
  pose proof (Hin 0%nat _ eq_refl) as R0. rewrite Nat.add_0_r in R0.
  pose proof (Hin 1%nat _ eq_refl) as R1. rewrite Nat.add_1_r in R1.
  pose proof (Hin 2%nat _ eq_refl) as R2.
  replace (position + 2)%nat with (S (S position)) in R2 by lia.
  pose proof (Hin 3%nat _ eq_refl) as R3.
  replace (position + 3)%nat with (S (S (S position))) in R3 by lia.
  assert (V0 : byte_value (byte_of_Z (240 + c / 262144)) = 240 + c / 262144)
    by (apply byte_value_of_Z; encoded_arith).
  assert (V1 : byte_value (byte_of_Z (128 + (c / 4096) mod 64)) = 128 + (c / 4096) mod 64)
    by (apply byte_value_of_Z; encoded_arith).
  assert (V2 : byte_value (byte_of_Z (128 + (c / 64) mod 64)) = 128 + (c / 64) mod 64)
    by (apply byte_value_of_Z; encoded_arith).
  assert (V3 : byte_value (byte_of_Z (128 + c mod 64)) = 128 + c mod 64)
    by (apply byte_value_of_Z; encoded_arith).
  cbn [length Nat.add].
  rewrite (UTF8Decode_loop_lead4 signed input (S (S (S fuel))) position _ R0)
    by (rewrite V0; encoded_arith).
  rewrite (UTF8Decode_loop_continue signed input (S (S fuel)) (S position) _ R1)
    by (rewrite ?V0, ?V1; encoded_arith).
  rewrite (UTF8Decode_loop_continue signed input (S fuel) (S (S position)) _ R2)
    by (rewrite ?V0, ?V1, ?V2; encoded_arith).
  rewrite (UTF8Decode_loop_finish signed input fuel (S (S (S position))) _ R3)
    by (rewrite ?V0, ?V1, ?V2, ?V3; encoded_arith).
  replace (((((byte_value (byte_of_Z (240 + c / 262144)) - 240) * 64
              + (byte_value (byte_of_Z (128 + (c / 4096) mod 64)) - 128)) * 64
             + (byte_value (byte_of_Z (128 + (c / 64) mod 64)) - 128)) * 64
            + (byte_value (byte_of_Z (128 + c mod 64)) - 128))) with c
    by (rewrite V0, V1, V2, V3; encoded_arith).
  replace (position + 4)%nat with (S (S (S (S position)))) by lia. reflexivity.
Qed.

Lemma UTF8Decode_loop_encoded_list (signed : bool) :
  forall (cps : list CodePoint) (pre : list byte) (fuel : nat)
         (cr : bool) (output : list CodePoint),
    Forall scalar_value cps ->
    UTF8Decode_loop signed (length (flat_map UTF8Encode cps) + S fuel)
      (pre ++ flat_map UTF8Encode cps) (length pre) 0 0 0 0x80 0xBF cr output
    = Some (length (pre ++ flat_map UTF8Encode cps), snd (preprocess_from cps cr output)).
Proof.
  induction cps as [| c cps IH]; intros pre fuel cr output Hall.
  - cbn [flat_map length Nat.add UTF8Decode_loop preprocess_from fold_left snd].
    rewrite app_nil_r.
    replace (nth_error pre (length pre)) with (@None byte)
      by (symmetry; apply nth_error_None; lia).
    reflexivity.
  - inversion Hall as [| c' cps' Hc Hcps]; subst.
    cbn [flat_map]. rewrite length_app, <- Nat.add_assoc.
    rewrite UTF8Decode_loop_encoded; [| exact Hc |].
    + rewrite app_assoc. rewrite <- length_app.
      rewrite IH by exact Hcps.
      unfold preprocess_from. cbn [fold_left fst snd].
      destruct (PushCodePoint c cr output). reflexivity.
    + intros i b Hi.
      assert (i < length (UTF8Encode c))%nat
        by (apply nth_error_Some; rewrite Hi; discriminate).
      rewrite nth_error_app2 by lia.
      replace (length pre + i - length pre)%nat with i by lia.
      rewrite nth_error_app1 by assumption. exact Hi.
Qed.

Lemma UTF8Decode_flat_map_UTF8Encode (signed : bool) (cps : list CodePoint) :
  Forall scalar_value cps ->
  UTF8Decode signed (flat_map UTF8Encode cps) 0 []
  = Some (length (flat_map UTF8Encode cps), preprocess cps).
Proof.
  intros Hall.
  pose proof (UTF8Decode_loop_encoded_list signed cps [] 0 false [] Hall) as Hrun.
  cbn [app length] in Hrun.
  destruct (UTF8Decode_total signed (flat_map UTF8Encode cps) 0 []) as [r Hr].
  rewrite Hr.
  unfold UTF8Decode in Hr.
  apply (UTF8Decode_loop_more_fuel signed _ (length (flat_map UTF8Encode cps) + 1)) in Hr.
  apply (UTF8Decode_loop_more_fuel signed _
           (UTF8Decode_fuel (flat_map UTF8Encode cps) 0)) in Hrun.
  replace (UTF8Decode_fuel (flat_map UTF8Encode cps) 0
           + (length (flat_map UTF8Encode cps) + 1))%nat
    with (length (flat_map UTF8Encode cps) + 1
          + UTF8Decode_fuel (flat_map UTF8Encode cps) 0)%nat in Hr by lia.
  rewrite Hrun in Hr. symmetry. exact Hr.
Qed.

(** X5.  [UTF8Decode] on the UTF-8 encoding of scalar values other than NUL
    consumes every byte and leaves in [output] those values passed through
    [PushCodePoint] one after the other. *)
Theorem UTF8Decode_encoded (signed : bool) (cps : list CodePoint) :
  Forall scalar_value cps ->
  UTF8Decode signed (flat_map UTF8Encode cps) 0 []
  = Some (length (flat_map UTF8Encode cps), preprocess cps).
Proof. apply UTF8Decode_flat_map_UTF8Encode. Qed.

Lemma UTF8Decode_encoded_witness :
  UTF8Decode false (flat_map UTF8Encode [0x41; 0x0D; 0x0A; 0xE9; 0x20AC; 0x1F600]) 0 []
  = Some (length (flat_map UTF8Encode [0x41; 0x0D; 0x0A; 0xE9; 0x20AC; 0x1F600]),
          preprocess [0x41; 0x0D; 0x0A; 0xE9; 0x20AC; 0x1F600]).
Proof.
  apply (UTF8Decode_encoded false [0x41; 0x0D; 0x0A; 0xE9; 0x20AC; 0x1F600]).
  repeat constructor; unfold scalar_value; lia.
Defined.

(** [PushCodePoint] passes on, untouched, what is no FF, CR, LF or NUL, and
    keeps its flag. *)
Lemma PushCodePoint_plain (c : CodePoint) (cr : bool) (output : list CodePoint) :
  c <> 0x0C -> c <> 0x0D -> c <> 0x0A -> c <> 0 ->
  PushCodePoint c cr output = (cr, output ++ [c]).
Proof.
  intros H1 H2 H3 H4. unfold PushCodePoint.
  destruct (c =? FORM_FEED) eqn:E1; [bool_facts; unfold FORM_FEED in *; lia |].
  destruct (c =? CARRIAGE_RETURN) eqn:E2; [bool_facts; unfold CARRIAGE_RETURN in *; lia |].
  destruct (c =? LINE_FEED) eqn:E3; [bool_facts; unfold LINE_FEED in *; lia |].
  destruct (c =? NULL_CODE_POINT) eqn:E4; [bool_facts; unfold NULL_CODE_POINT in *; lia |].
  reflexivity.
Qed.

Lemma PushCodePoint_line_feed (output : list CodePoint) :
  PushCodePoint 0x0A false output = (false, output ++ [0x0A]).
Proof. reflexivity. Qed.

Lemma preprocess_from_plain (cr : bool) :
  forall (cps : list CodePoint) (output : list CodePoint),
    Forall (fun c => c <> 0x0C /\ c <> 0x0D /\ c <> 0x0A /\ c <> 0) cps ->
    preprocess_from cps cr output = (cr, output ++ cps).
Proof.
  unfold preprocess_from.
  induction cps as [| c cps IH]; intros output Hall; cbn [fold_left fst snd].
  - rewrite app_nil_r. reflexivity.
  - inversion Hall as [| c' cps' (H1 & H2 & H3 & H4) Hcps]; subst.
    rewrite PushCodePoint_plain by assumption.
    cbn [fst snd]. rewrite IH by exact Hcps. rewrite <- app_assoc. reflexivity.
Qed.

Lemma preprocess_from_app (cps cps' : list CodePoint) (cr : bool) (output : list CodePoint) :
  preprocess_from (cps ++ cps') cr output
  = preprocess_from cps' (fst (preprocess_from cps cr output))
      (snd (preprocess_from cps cr output)).
Proof.
  unfold preprocess_from. rewrite fold_left_app.
  destruct (fold_left _ cps (cr, output)). reflexivity.
Qed.

(** X6.  Round trip: scalar values other than NUL, FF and CR come back from
    [UTF8Decode] exactly as they were encoded. *)
Theorem UTF8Decode_round_trip (signed : bool) (cps : list CodePoint) :
  Forall (fun c => scalar_value c /\ c <> 0x0C /\ c <> 0x0D) cps ->
  UTF8Decode signed (flat_map UTF8Encode cps) 0 []
  = Some (length (flat_map UTF8Encode cps), cps).
Proof.
  intros Hall.
  rewrite UTF8Decode_flat_map_UTF8Encode
    by (eapply Forall_impl; [| exact Hall]; intros c Hc; apply Hc).
  f_equal. f_equal. unfold preprocess.
  assert (Hgen : forall output, preprocess_from cps false output = (false, output ++ cps)).
  { clear - Hall. unfold preprocess_from.
    induction cps as [| c cps IH]; intros output; cbn [fold_left fst snd].
    - rewrite app_nil_r. reflexivity.
    - inversion Hall as [| c' cps' ([Hr Hs] & H1 & H2) Hcps]; subst.
      destruct (Z.eq_dec c 0x0A) as [-> | H3].
      + rewrite PushCodePoint_line_feed. cbn [fst snd].
        rewrite (IH Hcps). rewrite <- app_assoc. reflexivity.
      + rewrite PushCodePoint_plain by lia. cbn [fst snd].
        rewrite (IH Hcps). rewrite <- app_assoc. reflexivity. }
  rewrite (Hgen []). reflexivity.
Qed.

Lemma UTF8Decode_round_trip_witness :
  UTF8Decode true (flat_map UTF8Encode [0x7A; 0x0A; 0x7FF; 0xFFFD; 0x10FFFF]) 0 []
  = Some (length (flat_map UTF8Encode [0x7A; 0x0A; 0x7FF; 0xFFFD; 0x10FFFF]),
          [0x7A; 0x0A; 0x7FF; 0xFFFD; 0x10FFFF]).
Proof.
  apply (UTF8Decode_round_trip true [0x7A; 0x0A; 0x7FF; 0xFFFD; 0x10FFFF]).
  repeat constructor; unfold scalar_value; lia.
Defined.

(** X7.  Once a carriage return has been pushed, the next line feed is
    dropped however many other code points lie between the two: the last
    branch of [PushCodePoint] leaves [isPreviousCarriageReturn] set. *)
Theorem line_feed_dropped_after_carriage_return (signed : bool) (mid : list CodePoint) :
  Forall (fun c => scalar_value c /\ c <> 0x0C /\ c <> 0x0D /\ c <> 0x0A) mid ->
  UTF8Decode signed (flat_map UTF8Encode (0x0D :: mid ++ [0x0A])) 0 []
  = Some (length (flat_map UTF8Encode (0x0D :: mid ++ [0x0A])), 0x0A :: mid).
Proof.
  intros Hall.
  rewrite UTF8Decode_flat_map_UTF8Encode.
  - f_equal. f_equal. unfold preprocess.
    change (0x0D :: mid ++ [0x0A]) with ([0x0D] ++ mid ++ [0x0A]).
    rewrite preprocess_from_app.
    change (preprocess_from [13] false []) with (true, [LINE_FEED]). cbn [fst snd].
    rewrite preprocess_from_app.
    rewrite (preprocess_from_plain true mid).
    + reflexivity.
    + eapply Forall_impl; [| exact Hall]. intros c ([[Hr _] _] & H1 & H2 & H3). lia.
  - constructor; [unfold scalar_value; lia |].
    apply Forall_app. split.
    + eapply Forall_impl; [| exact Hall]. intros c Hc. apply Hc.
    + constructor; [unfold scalar_value; lia | constructor].
Qed.

Lemma line_feed_dropped_after_carriage_return_witness :
  UTF8Decode false (flat_map UTF8Encode (0x0D :: [0x61; 0x62] ++ [0x0A])) 0 []
  = Some (length (flat_map UTF8Encode (0x0D :: [0x61; 0x62] ++ [0x0A])), 0x0A :: [0x61; 0x62]).
Proof.
  apply (line_feed_dropped_after_carriage_return false [0x61; 0x62]).
  repeat constructor; unfold scalar_value; lia.
Defined.

(** ** The NUL byte ends the decoding *)

Lemma UTF8Decode_loop_stops_at_nul (signed : bool) (pre post : list byte) :
  forall (fuel : nat) (inputPosition : nat)
         (codePoint bytesSeen bytesNeeded lowerBoundary upperBoundary : Z)
         (cr : bool) (output : list CodePoint),
    (inputPosition <= length pre)%nat ->
    UTF8Decode_loop signed fuel (pre ++ x00 :: post) inputPosition
      codePoint bytesSeen bytesNeeded lowerBoundary upperBoundary cr output
    = UTF8Decode_loop signed fuel pre inputPosition
        codePoint bytesSeen bytesNeeded lowerBoundary upperBoundary cr output.
Proof.
  induction fuel as [| fuel IH]; intros pos cp seen needed lo hi cr out Hpos; [reflexivity |].
  cbn [UTF8Decode_loop].
  destruct (Nat.eq_dec pos (length pre)) as [-> | Hne].
  - rewrite nth_error_app2 by lia. rewrite Nat.sub_diag. cbn [nth_error].
    replace (nth_error pre (length pre)) with (@None byte)
      by (symmetry; apply nth_error_None; lia).
    replace (u8 (char_value signed x00) =? 0) with true by (destruct signed; reflexivity).
    reflexivity.
  - rewrite nth_error_app1 by lia.
    destruct (nth_error pre pos) as [c |] eqn:Hread.
    2:{ apply nth_error_None in Hread. lia. }
    decoder_cases; first [reflexivity | apply IH; lia].
Qed.

(** X8.  [UTF8Decode] never looks behind a NUL byte: the bytes that follow
    it have no influence on the position reached nor on the code points
    produced, which are those of the buffer cut before the NUL. *)
Theorem UTF8Decode_stops_at_nul (signed : bool) (pre post : list byte)
    (inputPosition : nat) (output : list CodePoint) :
  (inputPosition <= length pre)%nat ->
  UTF8Decode signed (pre ++ x00 :: post) inputPosition output
  = UTF8Decode signed pre inputPosition output.
Proof.
  intros Hpos.
  destruct (UTF8Decode_total signed (pre ++ x00 :: post) inputPosition output) as [r Hr].
  destruct (UTF8Decode_total signed pre inputPosition output) as [r' Hr'].
  rewrite Hr, Hr'. unfold UTF8Decode in Hr, Hr'.
  apply (UTF8Decode_loop_more_fuel signed _ (UTF8Decode_fuel pre inputPosition)) in Hr.
  apply (UTF8Decode_loop_more_fuel signed _
           (UTF8Decode_fuel (pre ++ x00 :: post) inputPosition)) in Hr'.
  rewrite UTF8Decode_loop_stops_at_nul in Hr by exact Hpos.
  rewrite Nat.add_comm in Hr. rewrite Hr in Hr'. exact Hr'.
Qed.

Lemma UTF8Decode_stops_at_nul_witness :
  UTF8Decode false ([x61; xc3] ++ x00 :: [x62; x63]) 0 []
  = UTF8Decode false [x61; xc3] 0 [].
Proof.
  apply (UTF8Decode_stops_at_nul false [x61; xc3] [x62; x63] 0 []). cbn [length]. lia.
Defined.

(** ** The loop of the tokenizer *)

(** X9.  A call of [ConsumeToken] that returns true and has constructed a
    token leaves the cursor strictly behind where it started: the loop of
    [TokenizeCodePoints] makes progress with every token. *)
Theorem ConsumeToken_advances (inputStream : list CodePoint) (position position' : SizeType)
    (token : Token) :
  ConsumeToken inputStream position = Defined (true, position', Some token) ->
  (position < position')%nat.
Proof.
  intros Hrun.
  pose proof (ConsumeToken_terminates inputStream position) as Hmove.
  rewrite Hrun in Hmove. cbn [terminates_with flag cursor fst snd] in Hmove.
  apply Hmove; [reflexivity | discriminate].
Qed.

Lemma ConsumeToken_advances_witness : (1 < 5)%nat.
Proof.
  apply (ConsumeToken_advances [0x20; 0x2D; 0x66; 0x6F; 0x6F; 0x28; 0x29] 1 5
           (Function [0x2D; 0x66; 0x6F; 0x6F])).
  reflexivity.
Defined.

Lemma TokenizeCodePoints_loop_appends (inputStream : list CodePoint) (output : list Token) :
  forall (fuel : nat) (position : SizeType) (pushed : list Token),
    TokenizeCodePoints_loop fuel inputStream position (output ++ pushed)
    = r <- TokenizeCodePoints_loop fuel inputStream position pushed ;;
      Defined (fst r, output ++ snd r).
Proof.
  induction fuel as [| fuel IH]; intros position pushed; [reflexivity |].
  cbn [TokenizeCodePoints_loop].
  destruct (position <? length inputStream)%nat; [| reflexivity].
  destruct (ConsumeToken inputStream position) as [[[ok p] token] | u |]; cbn [bind];
    [| reflexivity | reflexivity].
  destruct ok; cbn [negb]; [| reflexivity].
  destruct token as [token |]; [| reflexivity].
  rewrite <- app_assoc. apply IH.
Qed.

(** X10.  [TokenizeCodePoints] does not clear [output]: what it leaves
    there is what was in it followed by the tokens of a run on an empty
    [output], with the same returned flag and the same undefined
    behaviour. *)
Theorem TokenizeCodePoints_appends (inputStream : list CodePoint) (output : list Token) :
  TokenizeCodePoints inputStream output
  = match TokenizeCodePoints inputStream [] with
    | Defined (ok, tokens) => Defined (ok, output ++ tokens)
    | Undefined u => Undefined u
    | OutOfFuel => OutOfFuel
    end.
Proof.
  unfold TokenizeCodePoints.
  rewrite <- (app_nil_r output) at 1.
  rewrite TokenizeCodePoints_loop_appends.
  destruct (TokenizeCodePoints_loop _ inputStream 0 []) as [[ok tokens] | u |]; reflexivity.
Qed.

(** X11.  Three token types are never produced: whatever the input, the
    tokens [TokenizeCodePoints] adds to [output] hold no at-keyword, no
    right square bracket and no bad string. *)
Theorem token_types_never_emitted (inputStream : list CodePoint) (output : list Token)
    (ok : bool) (output' : list Token) (token : Token) :
  TokenizeCodePoints inputStream output = Defined (ok, output') ->
  In token output' ->
  In token output
  \/ (token <> BadString /\ token <> RightSquareBracket
      /\ forall value, token <> AtKeyword value).
Proof.
  intros Hrun Hin. unfold TokenizeCodePoints in Hrun.
  rewrite <- (app_nil_r output) in Hrun at 1.
  rewrite TokenizeCodePoints_loop_appends in Hrun.
  bind_inv Hrun. destruct a as [ok0 tokens]. cbn [fst snd] in Hrun.
  injection Hrun as _ <-. rename Ecall into Hempty.
  apply in_app_or in Hin. destruct Hin as [Hin | Hin]; [left; exact Hin | right].
  apply TokenizeCodePoints_loop_dispatched in Hempty; [| constructor].
  pose proof (proj1 (Forall_forall _ _) Hempty _ Hin) as Hok.
  split; [| split]; [| | intros value]; intros ->; exact Hok.
Qed.

Lemma token_types_never_emitted_witness :
  In (Delim COMMERCIAL_AT) [Whitespace]
  \/ (Delim COMMERCIAL_AT <> BadString /\ Delim COMMERCIAL_AT <> RightSquareBracket
      /\ forall value, Delim COMMERCIAL_AT <> AtKeyword value).
Proof.
  apply (token_types_never_emitted [COMMERCIAL_AT; 0x61; 0x62; 0x20] [Whitespace] true
           [Whitespace; Delim COMMERCIAL_AT; Ident [0x61; 0x62]; Whitespace]).
  - reflexivity.
  - simpl. right. left. reflexivity.
Defined.

(** ** Comments, once more *)

Lemma nth_error_middle {A : Type} (pre : list A) (c : A) (rest : list A) :
  nth_error (pre ++ c :: rest) (length pre) = Some c.
Proof. rewrite nth_error_app2 by lia. rewrite Nat.sub_diag. reflexivity. Qed.

Lemma nth_error_behind {A : Type} (pre rest : list A) (i : nat) :
  nth_error (pre ++ rest) (length pre + i) = nth_error rest i.
Proof.
  rewrite nth_error_app2 by lia. f_equal. lia.
Qed.

Lemma skipn_behind {A : Type} (pre rest : list A) :
  skipn (length pre) (pre ++ rest) = rest.
Proof.
  rewrite skipn_app, skipn_all, Nat.sub_diag. reflexivity.
Qed.

Lemma skipn_nth_error {A : Type} (l : list A) :
  forall (n : nat) (c : A),
    nth_error l n = Some c -> skipn n l = c :: skipn (S n) l.
Proof.
  induction l as [| a l IH]; intros [| n] c Hc; try discriminate.
  - injection Hc as ->. reflexivity.
  - cbn [nth_error] in Hc. cbn [skipn]. rewrite (IH _ _ Hc). reflexivity.
Qed.

(** The flag of the scan says whether an asterisk directly followed by a
    solidus lies ahead, the asterisk just passed included. *)
Lemma ConsumeComments_scan_flag (rest : list CodePoint) :
  forall (position : SizeType) (isPreviousAsterisk : bool),
    fst (ConsumeComments_scan rest position isPreviousAsterisk)
    = has_comment_end (if isPreviousAsterisk then ASTERISK :: rest else rest).
Proof.
  induction rest as [| c rest IH]; intros position star; cbn [ConsumeComments_scan].
  - destruct star; reflexivity.
  - destruct (c =? ASTERISK) eqn:Hstar.
    + rewrite IH. apply Z.eqb_eq in Hstar. subst c.
      destruct star; [| reflexivity].
      cbn [has_comment_end]. change (ASTERISK =? SOLIDUS) with false.
      rewrite andb_false_r. reflexivity.
    + destruct star.
      * cbn [has_comment_end]. change (ASTERISK =? ASTERISK) with true. cbn [andb].
        destruct (c =? SOLIDUS) eqn:Hsol; cbn [andb orb fst]; [reflexivity |].
        rewrite IH. destruct rest as [| c1 rest]; [reflexivity |].
        rewrite Hstar. reflexivity.
      * rewrite andb_false_r. rewrite IH.
        symmetry. apply has_comment_end_cons. exact Hstar.
Qed.

(** X12.  [ConsumeComments] returns false exactly when a solidus and an
    asterisk stand at the cursor and no asterisk directly followed by a
    solidus occurs from that asterisk on. *)
Theorem ConsumeComments_fails_iff (inputStream : list CodePoint) (position : SizeType) :
  fst (ConsumeComments inputStream position) = false
  <-> nth_error inputStream position = Some SOLIDUS
      /\ nth_error inputStream (S position) = Some ASTERISK
      /\ has_comment_end (skipn (S position) inputStream) = false.
Proof.
  unfold ConsumeComments, test_at.
  replace (position + 1)%nat with (S position) by lia.
  destruct (length inputStream <=? S position)%nat eqn:Hlen.
  { apply Nat.leb_le in Hlen.
    replace (nth_error inputStream (S position)) with (@None CodePoint)
      by (symmetry; apply nth_error_None; lia).
    cbn [fst]. split; [discriminate | intros (_ & H & _); discriminate]. }
  destruct (nth_error inputStream position) as [c0 |] eqn:H0.
  2:{ cbn [negb orb fst]. split; [discriminate | intros (H & _); discriminate]. }
  destruct (nth_error inputStream (S position)) as [c1 |] eqn:H1.
  2:{ rewrite orb_true_r. cbn [fst]. split; [discriminate | intros (_ & H & _); discriminate]. }
  destruct (c0 =? SOLIDUS) eqn:E0; cbn [negb orb].
  2:{ cbn [fst]. split; [discriminate |]. intros (H & _). injection H as ->. discriminate. }
  destruct (c1 =? ASTERISK) eqn:E1; cbn [negb].
  2:{ cbn [fst]. split; [discriminate |]. intros (_ & H & _). injection H as ->. discriminate. }
  apply Z.eqb_eq in E0, E1. subst c0 c1.
  rewrite (skipn_nth_error _ _ _ H0), (skipn_nth_error _ _ _ H1).
  cbn [ConsumeComments_scan].
  change (SOLIDUS =? ASTERISK) with false. change (ASTERISK =? ASTERISK) with true.
  cbn [andb]. rewrite andb_false_r.
  rewrite ConsumeComments_scan_flag.
  split; [intros H; auto | intros (_ & _ & H); exact H].
Qed.

Lemma ConsumeComments_fails_iff_witness :
  fst (ConsumeComments [0x61; 0x2F; 0x2A; 0x2A; 0x62] 1) = false.
Proof.
  apply (proj2 (ConsumeComments_fails_iff [0x61; 0x2F; 0x2A; 0x2A; 0x62] 1)).
  repeat split.
Defined.

Lemma ConsumeComments_scan_skips (body rest : list CodePoint) :
  forall (position : SizeType) (isPreviousAsterisk : bool),
    has_comment_end ((if isPreviousAsterisk then ASTERISK :: body else body) ++ [ASTERISK])
    = false ->
    ConsumeComments_scan (body ++ ASTERISK :: SOLIDUS :: rest) position isPreviousAsterisk
    = (true, (position + length body + 2)%nat).
Proof.
  induction body as [| c body IH]; intros position star Hend.
  - cbn [app ConsumeComments_scan length].
    change (ASTERISK =? ASTERISK) with true. cbv iota.
    change (SOLIDUS =? ASTERISK) with false. change (SOLIDUS =? SOLIDUS) with true.
    cbn [andb]. f_equal. lia.
  - cbn [app ConsumeComments_scan length].
    replace (position + S (length body) + 2)%nat with (S position + length body + 2)%nat
      by lia.
    destruct (c =? ASTERISK) eqn:Hstar.
    + apply IH. apply Z.eqb_eq in Hstar. subst c.
      destruct star; [| exact Hend].
      cbn [app has_comment_end] in Hend. apply orb_false_iff in Hend. apply Hend.
    + destruct star.
      * cbn [app has_comment_end] in Hend. apply orb_false_iff in Hend.
        destruct Hend as [Hpair Hrest].
        change (ASTERISK =? ASTERISK) with true in Hpair. cbn [andb] in Hpair.
        rewrite Hpair. cbn [andb]. apply IH. rewrite <- Hrest.
        symmetry. apply (has_comment_end_cons c (body ++ [ASTERISK])). exact Hstar.
      * rewrite andb_false_r. apply IH. rewrite <- Hend.
        symmetry. apply (has_comment_end_cons c (body ++ [ASTERISK])). exact Hstar.
Qed.

Lemma ConsumeComments_terminated (pre body rest : list CodePoint) :
  has_comment_end (ASTERISK :: body ++ [ASTERISK]) = false ->
  ConsumeComments (pre ++ SOLIDUS :: ASTERISK :: body ++ ASTERISK :: SOLIDUS :: rest)
    (length pre)
  = (true, (length pre + length body + 4)%nat).
Proof.
  intros Hend. unfold ConsumeComments, test_at.
  rewrite (nth_error_behind pre _ 1). rewrite nth_error_middle. cbn [nth_error].
  replace (length (pre ++ SOLIDUS :: ASTERISK :: body ++ ASTERISK :: SOLIDUS :: rest)
           <=? length pre + 1)%nat with false
    by (symmetry; apply Nat.leb_gt; rewrite length_app; cbn [length];
        apply Nat.add_lt_mono_l; lia).
  change (SOLIDUS =? SOLIDUS) with true. change (ASTERISK =? ASTERISK) with true.
  cbn [negb orb]. rewrite skipn_behind.
  cbn [ConsumeComments_scan].
  change (SOLIDUS =? ASTERISK) with false. change (ASTERISK =? ASTERISK) with true.
  rewrite andb_false_r. cbv iota.
  rewrite (ConsumeComments_scan_skips body rest _ true Hend). f_equal. lia.
Qed.

(** X13.  A comment whose opener is not itself taken for a terminator is
    skipped up to and including the first asterisk and solidus that end
    it, wherever it stands in the input. *)
Theorem ConsumeComments_skips (pre body rest : list CodePoint) :
  has_comment_end (ASTERISK :: body ++ [ASTERISK]) = false ->
  ConsumeComments (pre ++ SOLIDUS :: ASTERISK :: body ++ ASTERISK :: SOLIDUS :: rest)
    (length pre)
  = (true, (length pre + length body + 4)%nat).
Proof. apply ConsumeComments_terminated. Qed.

Lemma ConsumeComments_skips_witness :
  ConsumeComments ([0x61] ++ SOLIDUS :: ASTERISK :: [0x2A; 0x62; 0x2F]
                     ++ ASTERISK :: SOLIDUS :: [0x63]) (length [0x61])
  = (true, (length [0x61] + length [0x2A; 0x62; 0x2F] + 4)%nat).
Proof.
  apply (ConsumeComments_skips [0x61] [0x2A; 0x62; 0x2F] [0x63]). reflexivity.
Defined.

(** X14.  A stylesheet that is one comment and nothing else makes
    [TokenizeCodePoints] push a token that nobody constructed:
    [ConsumeToken] returns true at the end of the input without writing
    to its output buffer. *)
Theorem comment_only_input_is_undefined (body : list CodePoint) (output : list Token) :
  has_comment_end (ASTERISK :: body ++ [ASTERISK]) = false ->
  TokenizeCodePoints (SOLIDUS :: ASTERISK :: body ++ [ASTERISK; SOLIDUS]) output
  = Undefined UninitialisedRead.
Proof.
  intros Hend.
  pose proof (ConsumeComments_terminated [] body [] Hend) as Hskip.
  cbn [app length Nat.add] in Hskip.
  unfold TokenizeCodePoints, rounds. cbn [TokenizeCodePoints_loop].
  change (0 <? length (SOLIDUS :: ASTERISK :: body ++ [ASTERISK; SOLIDUS]))%nat with true.
  cbv iota. unfold ConsumeToken. rewrite Hskip. cbn [negb].
  replace (length body + 4 =? length (SOLIDUS :: ASTERISK :: body ++ [ASTERISK; SOLIDUS]))%nat
    with true
    by (symmetry; apply Nat.eqb_eq; cbn [length]; rewrite length_app; cbn [length]; lia).
  reflexivity.
Qed.

Lemma comment_only_input_is_undefined_witness :
  TokenizeCodePoints (SOLIDUS :: ASTERISK :: [0x61; 0x2A; 0x62] ++ [ASTERISK; SOLIDUS]) []
  = Undefined UninitialisedRead.
Proof.
  apply (comment_only_input_is_undefined [0x61; 0x2A; 0x62] []). reflexivity.
Defined.

(** X15.  [ConsumeComments] is called once per token and skips one
    comment: a solidus that stands where it stops, be it the opener of a
    second comment, becomes a delimiter token. *)
Theorem solidus_after_comment_is_delim (inputStream : list CodePoint)
    (position position' : SizeType) :
  ConsumeComments inputStream position = (true, position') ->
  nth_error inputStream position' = Some SOLIDUS ->
  ConsumeToken inputStream position = Defined (true, S position', Some (Delim SOLIDUS)).
Proof.
  intros Hskip Hread. unfold ConsumeToken. rewrite Hskip. cbn [negb].
  replace (position' =? length inputStream)%nat with false.
  2:{ symmetry. apply Nat.eqb_neq. intros Heq.
      assert (nth_error inputStream position' <> None) by (rewrite Hread; discriminate).
      apply nth_error_Some in H. lia. }
  unfold read. rewrite Hread. reflexivity.
Qed.

Lemma solidus_after_comment_is_delim_witness :
  ConsumeToken [0x2F; 0x2A; 0x2A; 0x2F; 0x2F; 0x2A; 0x2A; 0x2F] 0
  = Defined (true, 5%nat, Some (Delim SOLIDUS)).
Proof.
  apply (solidus_after_comment_is_delim [0x2F; 0x2A; 0x2A; 0x2F; 0x2F; 0x2A; 0x2A; 0x2F] 0 4);
    reflexivity.
Defined.

(** ** Whitespace, strings and names taken as they stand *)

Lemma advance_while_run (p : CodePoint -> bool) (run rest : list CodePoint) :
  forall position : SizeType,
    Forall (fun c => p c = true) run -> stops_at p rest ->
    advance_while p (run ++ rest) position = (position + length run)%nat.
Proof.
  induction run as [| c run IH]; intros position Hrun Hstop.
  - cbn [app length]. rewrite Nat.add_0_r.
    destruct rest as [| d rest]; [reflexivity |].
    cbn [advance_while]. cbn [stops_at] in Hstop. rewrite Hstop. reflexivity.
  - inversion Hrun as [| c' run' Hc Hrun']; subst.
    cbn [app advance_while length]. rewrite Hc. rewrite (IH _ Hrun' Hstop). lia.
Qed.

(** Where no solidus stands at the cursor, [ConsumeComments] leaves it. *)
Lemma ConsumeComments_no_solidus (inputStream : list CodePoint) (position : SizeType)
    (c : CodePoint) :
  nth_error inputStream position = Some c -> c <> SOLIDUS ->
  ConsumeComments inputStream position = (true, position).
Proof.
  intros Hread Hc. unfold ConsumeComments, test_at. rewrite Hread.
  destruct (length inputStream <=? position + 1)%nat; [reflexivity |].
  replace (c =? SOLIDUS) with false by (symmetry; apply Z.eqb_neq; exact Hc).
  reflexivity.
Qed.

(** X16.  A run of whitespace becomes one whitespace token, whatever its
    length, and the cursor stops in front of the first code point that is
    no whitespace. *)
Theorem whitespace_run_is_one_token (pre : list CodePoint) (c : CodePoint)
    (run rest : list CodePoint) :
  IsWhitespace c = true ->
  Forall (fun x => IsWhitespace x = true) run ->
  stops_at IsWhitespace rest ->
  ConsumeToken (pre ++ c :: run ++ rest) (length pre)
  = Defined (true, (length pre + 1 + length run)%nat, Some Whitespace).
Proof.
  intros Hc Hrun Hstop. unfold ConsumeToken.
  rewrite (ConsumeComments_no_solidus _ _ c (nth_error_middle pre c _))
    by (intros ->; discriminate Hc).
  cbn [negb].
  replace (length pre =? length (pre ++ c :: run ++ rest))%nat with false
    by (symmetry; apply Nat.eqb_neq; rewrite length_app; cbn [length]; lia).
  unfold read. rewrite nth_error_middle. cbn [bind]. rewrite Hc.
  unfold ConsumeWhitespace.
  change (pre ++ c :: run ++ rest) with (pre ++ [c] ++ run ++ rest).
  rewrite app_assoc.
  replace (S (length pre)) with (length (pre ++ [c]))
    by (rewrite length_app; cbn [length]; lia).
  rewrite skipn_behind. rewrite (advance_while_run _ _ _ _ Hrun Hstop).
  rewrite length_app. reflexivity.
Qed.

Lemma whitespace_run_is_one_token_witness :
  ConsumeToken ([0x61] ++ 0x20 :: [0x09; 0x0A; 0x20] ++ [0x62]) (length [0x61])
  = Defined (true, (length [0x61] + 1 + length [0x09; 0x0A; 0x20])%nat, Some Whitespace).
Proof.
  apply (whitespace_run_is_one_token [0x61] 0x20 [0x09; 0x0A; 0x20] [0x62]).
  - reflexivity.
  - repeat constructor.
  - reflexivity.
Defined.

Lemma ConsumeStringToken_loop_plain (endingCodePoint : CodePoint) (rest : list CodePoint) :
  forall (body pre : list CodePoint) (fuel : nat) (value : list CodePoint),
    Forall (fun c => plain_in_string endingCodePoint c = true) body ->
    (length body < fuel)%nat ->
    ConsumeStringToken_loop fuel (pre ++ body ++ endingCodePoint :: rest) (length pre)
      endingCodePoint value
    = Defined (true, (length pre + length body + 1)%nat, Some (String (value ++ body))).
Proof.
  induction body as [| c body IH]; intros pre fuel value Hbody Hfuel.
  - destruct fuel as [| fuel]; [cbn [length] in Hfuel; lia |].
    cbn [app ConsumeStringToken_loop]. rewrite nth_error_middle.
    rewrite Z.eqb_refl. rewrite app_nil_r. cbn [length]. do 3 f_equal. lia.
  - destruct fuel as [| fuel]; [cbn [length] in Hfuel; lia |].
    inversion Hbody as [| c' body' Hc Hbody']; subst.
    cbn [app ConsumeStringToken_loop]. rewrite nth_error_middle.
    unfold plain_in_string in Hc. bool_facts.
    replace (c =? endingCodePoint) with false by (symmetry; apply Z.eqb_neq; assumption).
    replace (c =? REVERSE_SOLIDUS) with false by (symmetry; apply Z.eqb_neq; assumption).
    match goal with H : IsNewline c = false |- _ => rewrite H end.
    change (pre ++ c :: body ++ endingCodePoint :: rest)
      with (pre ++ [c] ++ body ++ endingCodePoint :: rest).
    rewrite app_assoc.
    replace (S (length pre)) with (length (pre ++ [c]))
      by (rewrite length_app; cbn [length]; lia).
    rewrite IH by (try assumption; cbn [length] in Hfuel; lia).
    rewrite length_app, <- app_assoc. cbn [length app]. do 3 f_equal. lia.
Qed.

(** X17.  A string without escapes is taken as it stands: between two
    quotation marks, or two apostrophes, code points that are neither the
    quote, nor a newline, nor a reverse solidus become the value of one
    string token, and the cursor is left behind the closing quote. *)
Theorem string_without_escapes (pre body rest : list CodePoint) (quote : CodePoint) :
  quote = QUOTATION_MARK \/ quote = APOSTROPHE ->
  Forall (fun c => plain_in_string quote c = true) body ->
  ConsumeToken (pre ++ quote :: body ++ quote :: rest) (length pre)
  = Defined (true, (length pre + length body + 2)%nat, Some (String body)).
Proof.
  intros Hquote Hbody.
  assert (Hcall : ConsumeToken (pre ++ quote :: body ++ quote :: rest) (length pre)
                  = ConsumeStringToken (pre ++ quote :: body ++ quote :: rest)
                      (S (length pre)) quote).
  { unfold ConsumeToken.
    rewrite (ConsumeComments_no_solidus _ _ quote (nth_error_middle pre quote _))
      by (destruct Hquote as [-> | ->]; discriminate).
    cbn [negb].
    replace (length pre =? length (pre ++ quote :: body ++ quote :: rest))%nat with false
      by (symmetry; apply Nat.eqb_neq; rewrite length_app; cbn [length]; lia).
    unfold read. rewrite nth_error_middle. cbn [bind].
    destruct Hquote as [-> | ->]; reflexivity. }
  rewrite Hcall. unfold ConsumeStringToken, rounds.
  change (pre ++ quote :: body ++ quote :: rest)
    with (pre ++ [quote] ++ body ++ quote :: rest).
  rewrite app_assoc.
  replace (S (length pre)) with (length (pre ++ [quote]))
    by (rewrite length_app; cbn [length]; lia).
  rewrite ConsumeStringToken_loop_plain.
  - rewrite length_app. cbn [length app]. do 3 f_equal. lia.
  - exact Hbody.
  - rewrite !length_app. cbn [length]. lia.
Qed.

Lemma string_without_escapes_witness :
  ConsumeToken ([0x20] ++ APOSTROPHE :: [0x61; 0x22; 0x62] ++ APOSTROPHE :: [0x3B])
    (length [0x20])
  = Defined (true, (length [0x20] + length [0x61; 0x22; 0x62] + 2)%nat,
             Some (String [0x61; 0x22; 0x62])).
Proof.
  apply (string_without_escapes [0x20] [0x61; 0x22; 0x62] [0x3B] APOSTROPHE).
  - right. reflexivity.
  - repeat constructor.
Defined.

Lemma AreTwoCodePointsValidEscape_first (inputStream : list CodePoint) (position : SizeType)
    (c : CodePoint) :
  nth_error inputStream position = Some c -> (c =? REVERSE_SOLIDUS) = false ->
  AreTwoCodePointsValidEscape inputStream position = false.
Proof.
  intros Hread Hc. unfold AreTwoCodePointsValidEscape, test_at. rewrite Hread, Hc.
  destruct (length inputStream <=? position + 1)%nat; reflexivity.
Qed.

Lemma ConsumeIdentSequence_loop_plain (rest : list CodePoint) :
  forall (name pre : list CodePoint) (fuel : nat) (resultLocal : list CodePoint),
    Forall (fun c => IsIdent c = true) name ->
    stops_at (fun c => IsIdent c || (c =? REVERSE_SOLIDUS)) rest ->
    (length name < fuel)%nat ->
    ConsumeIdentSequence_loop fuel (pre ++ name ++ rest) (length pre) resultLocal
    = Defined (true, (length pre + length name)%nat, Some (resultLocal ++ name)).
Proof.
  induction name as [| c name IH]; intros pre fuel resultLocal Hname Hstop Hfuel.
  - destruct fuel as [| fuel]; [cbn [length] in Hfuel; lia |].
    cbn [app ConsumeIdentSequence_loop length]. rewrite Nat.add_0_r, app_nil_r.
    destruct rest as [| d rest].
    + rewrite app_nil_r.
      replace (nth_error pre (length pre)) with (@None CodePoint)
        by (symmetry; apply nth_error_None; lia).
      reflexivity.
    + rewrite nth_error_middle. cbn [stops_at] in Hstop.
      apply orb_false_iff in Hstop. destruct Hstop as [Hident Hsolidus].
      rewrite Hident.
      rewrite (AreTwoCodePointsValidEscape_first _ _ d (nth_error_middle pre d rest) Hsolidus).
      reflexivity.
  - destruct fuel as [| fuel]; [cbn [length] in Hfuel; lia |].
    inversion Hname as [| c' name' Hc Hname']; subst.
    cbn [app ConsumeIdentSequence_loop]. rewrite nth_error_middle. rewrite Hc.
    change (pre ++ c :: name ++ rest) with (pre ++ [c] ++ name ++ rest).
    rewrite app_assoc.
    replace (S (length pre)) with (length (pre ++ [c]))
      by (rewrite length_app; cbn [length]; lia).
    rewrite IH by (try assumption; cbn [length] in Hfuel; lia).
    rewrite length_app, <- app_assoc. cbn [length app]. do 3 f_equal. lia.
Qed.

(** X18.  [ConsumeIdentSequence] takes a run of ident code points as it
    stands and stops in front of the first code point that is neither an
    ident code point nor a reverse solidus, or at the end of the input. *)
Theorem ident_sequence_without_escapes (pre name rest : list CodePoint) :
  Forall (fun c => IsIdent c = true) name ->
  stops_at (fun c => IsIdent c || (c =? REVERSE_SOLIDUS)) rest ->
  ConsumeIdentSequence (pre ++ name ++ rest) (length pre)
  = Defined (true, (length pre + length name)%nat, Some name).
Proof.
  intros Hname Hstop. unfold ConsumeIdentSequence, rounds.
  rewrite ConsumeIdentSequence_loop_plain; try assumption; [reflexivity |].
  rewrite !length_app. lia.
Qed.

Lemma ident_sequence_without_escapes_witness :
  ConsumeIdentSequence ([0x23] ++ [0x2D; 0x61; 0x31; 0x5F] ++ [0x7B]) (length [0x23])
  = Defined (true, (length [0x23] + length [0x2D; 0x61; 0x31; 0x5F])%nat,
             Some [0x2D; 0x61; 0x31; 0x5F]).
Proof.
  apply (ident_sequence_without_escapes [0x23] [0x2D; 0x61; 0x31; 0x5F] [0x7B]).
  - repeat constructor.
  - reflexivity.
Defined.

(** Away from the end of the input [ConsumeEscapedCodePoint] returns true
    and has constructed a code point. *)
Lemma ConsumeEscapedCodePoint_succeeds (inputStream : list CodePoint) (position : SizeType)
    (ok : bool) (position' : SizeType) (output : option CodePoint) :
  position <> length inputStream ->
  ConsumeEscapedCodePoint inputStream position = Defined (ok, position', output) ->
  ok = true /\ exists c, output = Some c.
Proof.
  intros Hpos Hrun. unfold ConsumeEscapedCodePoint in Hrun.
  replace (position =? length inputStream)%nat with false in Hrun
    by (symmetry; apply Nat.eqb_neq; exact Hpos).
  bind_inv Hrun.
  destruct (IsHexDigit a).
  - bind_inv Hrun. destruct a0 as [p consumed].
    bind_inv Hrun. bind_inv Hrun.
    match type of Hrun with
    | (if ?b then _ else _) = _ => destruct b
    end; defined_inv Hrun; eauto.
  - defined_inv Hrun. eauto.
Qed.

Lemma AreTwoCodePointsValidEscape_length (inputStream : list CodePoint) (position : SizeType) :
  AreTwoCodePointsValidEscape inputStream position = true ->
  (position + 1 < length inputStream)%nat.
Proof.
  unfold AreTwoCodePointsValidEscape.
  destruct (length inputStream <=? position + 1)%nat eqn:Hlen; [discriminate |].
  intros _. apply Nat.leb_gt in Hlen. exact Hlen.
Qed.

Lemma ConsumeIdentSequence_loop_succeeds (inputStream : list CodePoint) :
  forall (fuel : nat) (position : SizeType) (resultLocal : list CodePoint)
         (ok : bool) (position' : SizeType) (result : option (list CodePoint)),
    ConsumeIdentSequence_loop fuel inputStream position resultLocal
    = Defined (ok, position', result) ->
    ok = true /\ exists name, result = Some name.
Proof.
  induction fuel as [| fuel IH]; intros position resultLocal ok position' result Hrun;
    [discriminate |].
  cbn [ConsumeIdentSequence_loop] in Hrun.
  destruct (nth_error inputStream position) as [c |]; [| defined_inv Hrun; eauto].
  destruct (IsIdent c); [eapply IH; exact Hrun |].
  destruct (AreTwoCodePointsValidEscape inputStream position) eqn:Hescape;
    [| defined_inv Hrun; eauto].
  apply AreTwoCodePointsValidEscape_length in Hescape.
  bind_inv Hrun. destruct a as [[ok0 p0] escaped].
  apply ConsumeEscapedCodePoint_succeeds in Ecall; [| lia].
  destruct Ecall as [-> [e ->]]. cbn [negb] in Hrun.
  eapply IH; exact Hrun.
Qed.

(** X19.  [ConsumeIdentSequence] has no failing run: whenever it returns
    it returns true and has assigned [result].  Its only return of false
    stands behind a call of [ConsumeEscapedCodePoint] that follows a
    successful [AreTwoCodePointsValidEscape], and that call is never made
    at the end of the input. *)
Theorem ConsumeIdentSequence_succeeds (inputStream : list CodePoint) (position : SizeType)
    (ok : bool) (position' : SizeType) (result : option (list CodePoint)) :
  ConsumeIdentSequence inputStream position = Defined (ok, position', result) ->
  ok = true /\ exists name, result = Some name.
Proof.
  unfold ConsumeIdentSequence. apply ConsumeIdentSequence_loop_succeeds.
Qed.

Lemma ConsumeIdentSequence_succeeds_witness :
  true = true /\ exists name, Some [0x61; 0x7B; 0x62] = Some name.
Proof.
  apply (ConsumeIdentSequence_succeeds [0x61; 0x5C; 0x7B; 0x62; 0x20] 0 true 4
           (Some [0x61; 0x7B; 0x62])).
  reflexivity.
Defined.

(** ** Integers *)

Lemma decimal_value_snoc (digits : list CodePoint) (digit : CodePoint) :
  decimal_value (digits ++ [digit]) = decimal_value digits * 10 + (digit - ZERO).
Proof. unfold decimal_value. rewrite fold_left_app. reflexivity. Qed.

Lemma u32_congruent (a b k : Z) : a = b + k * 2 ^ 32 -> u32 a = u32 b.
Proof. intros ->. unfold u32. apply Z_mod_plus_full. Qed.

(** The loop of [InterpretAsBase10Number] sums the digits of a slice from
    its last to its first, in 32-bit unsigned arithmetic. *)
Lemma InterpretAsBase10Number_sum_value (pre : list CodePoint) :
  forall (slice post : list CodePoint) (result base : Z),
    InterpretAsBase10Number_sum (length slice) (pre ++ slice ++ post) (length pre) result base
    = Defined (if (length slice =? 0)%nat then result
               else u32 (result + base * decimal_value slice)).
Proof.
  induction slice as [| c slice IH] using rev_ind; intros post result base.
  - reflexivity.
  - rewrite length_app. cbn [length]. rewrite Nat.add_1_r.
    cbn [InterpretAsBase10Number_sum Nat.eqb].
    unfold read. rewrite <- app_assoc. cbn [app].
    rewrite nth_error_behind. rewrite nth_error_middle. cbn [bind].
    rewrite IH. rewrite decimal_value_snoc.
    destruct (length slice =? 0)%nat eqn:Hempty.
    + apply Nat.eqb_eq in Hempty. apply length_zero_iff_nil in Hempty. subst slice.
      change (decimal_value []) with 0. f_equal.
      apply (u32_congruent _ _
               (- ((u32 (c - ZERO) * base) / 2 ^ 32) - base * ((c - ZERO) / 2 ^ 32))).
      unfold u32. rewrite !Z.mod_eq by lia. ring.
    + f_equal.
      apply (u32_congruent _ _
               (- ((result + u32 (u32 (c - ZERO) * base)) / 2 ^ 32)
                - ((u32 (c - ZERO) * base) / 2 ^ 32)
                - base * ((c - ZERO) / 2 ^ 32)
                - decimal_value slice * ((base * 10) / 2 ^ 32))).
      unfold u32. rewrite !Z.mod_eq by lia. ring.
Qed.

Lemma push_while_run (p : CodePoint -> bool) (run rest : list CodePoint) :
  forall (position : SizeType) (repr : list CodePoint),
    Forall (fun c => p c = true) run -> stops_at p rest ->
    push_while p (run ++ rest) position repr = ((position + length run)%nat, repr ++ run).
Proof.
  induction run as [| c run IH]; intros position repr Hrun Hstop.
  - cbn [app length]. rewrite Nat.add_0_r, app_nil_r.
    destruct rest as [| d rest]; [reflexivity |].
    cbn [push_while]. cbn [stops_at] in Hstop. rewrite Hstop. reflexivity.
  - inversion Hrun as [| c' run' Hc Hrun']; subst.
    cbn [app push_while length]. rewrite Hc. rewrite (IH _ _ Hrun' Hstop).
    rewrite <- app_assoc. f_equal. lia.
Qed.

Lemma IsDigit_range (c : CodePoint) : IsDigit c = true -> 48 <= c <= 57.
Proof.
  unfold IsDigit, ZERO, NINE. intros H. bool_facts. lia.
Qed.

Lemma test_at_end (p : CodePoint -> bool) (inputStream : list CodePoint) :
  test_at p inputStream (length inputStream) = false.
Proof.
  unfold test_at.
  replace (nth_error inputStream (length inputStream)) with (@None CodePoint)
    by (symmetry; apply nth_error_None; lia).
  reflexivity.
Qed.

Lemma ConvertStringToNumber_digits (digit : CodePoint) (digits : list CodePoint) :
  Forall (fun c => IsDigit c = true) (digit :: digits) ->
  ConvertStringToNumber (digit :: digits)
  = Defined (AsInt64 (decimal_value (digit :: digits) mod 2 ^ 32)).
Proof.
  intros Hall. inversion Hall as [| c l Hdigit Hdigits]; subst.
  pose proof (IsDigit_range _ Hdigit) as Hrange.
  unfold ConvertStringToNumber. cbv zeta.
  unfold read at 1. cbn [nth_error bind].
  replace (digit =? PLUS_SIGN) with false
    by (symmetry; apply Z.eqb_neq; unfold PLUS_SIGN; lia).
  replace (digit =? HYPHEN_MINUS) with false
    by (symmetry; apply Z.eqb_neq; unfold HYPHEN_MINUS; lia).
  unfold read at 1. cbn [nth_error bind]. rewrite Hdigit.
  assert (Hadvance : advance_while IsDigit digits 1 = length (digit :: digits)).
  { rewrite <- (app_nil_r digits) at 1.
    rewrite (advance_while_run IsDigit digits [] 1 Hdigits I). reflexivity. }
  pose proof (InterpretAsBase10Number_sum_value [] (digit :: digits) [] 0 1) as Hsum.
  cbn [app] in Hsum. rewrite app_nil_r in Hsum.
  change (length [] : nat) with 0%nat in Hsum.
  unfold InterpretAsBase10Number at 1. cbv zeta. cbn [skipn].
  rewrite !Hadvance. rewrite Nat.sub_0_r. rewrite Hsum.
  cbn [length Nat.eqb bind].
  change (S (length digits)) with (length (digit :: digits)).
  repeat (rewrite test_at_end; cbv beta iota zeta; cbn [bind]).
  cbn [bind Z.to_nat exponentPow_loop].
  set (value := decimal_value (digit :: digits)).
  replace (0 + 1 * value) with value by ring.
  replace (1 * u32 value * 1) with (u32 value) by ring.
  assert (Hbound : 0 <= u32 value < 2 ^ 32) by (unfold u32; apply Z.mod_pos_bound; lia).
  replace (in_int64 (u32 value)) with true.
  - reflexivity.
  - symmetry. unfold in_int64. apply andb_true_iff. split.
    + apply Z.leb_le. lia.
    + apply Z.ltb_lt. lia.
Qed.

(** X20.  [ConvertStringToNumber] stores an unsigned integer literal
    modulo 2^32: the digits are summed in an [unsigned] before the sum is
    widened to [int64_t]. *)
Theorem integer_is_stored_modulo_2_32 (digit : CodePoint) (digits : list CodePoint) :
  Forall (fun c => IsDigit c = true) (digit :: digits) ->
  ConvertStringToNumber (digit :: digits)
  = Defined (AsInt64 (decimal_value (digit :: digits) mod 2 ^ 32)).
Proof. apply ConvertStringToNumber_digits. Qed.

Lemma integer_is_stored_modulo_2_32_witness :
  ConvertStringToNumber (0x34 :: [0x32; 0x39; 0x34; 0x39; 0x36; 0x37; 0x32; 0x39; 0x37])
  = Defined (AsInt64 (decimal_value
                        (0x34 :: [0x32; 0x39; 0x34; 0x39; 0x36; 0x37; 0x32; 0x39; 0x37])
                      mod 2 ^ 32)).
Proof.
  apply (integer_is_stored_modulo_2_32 0x34 [0x32; 0x39; 0x34; 0x39; 0x36; 0x37; 0x32; 0x39; 0x37]).
  repeat constructor.
Defined.

(** ** Look-aheads at the end of the input *)

Lemma ConsumeNumber_digits (pre : list CodePoint) (digit : CodePoint)
    (digits : list CodePoint) :
  Forall (fun c => IsDigit c = true) (digit :: digits) ->
  ConsumeNumber (pre ++ digit :: digits) (length pre)
  = Defined (true, length (pre ++ digit :: digits),
             Some (mkNumberTokenValue
                     (AsInt64 (decimal_value (digit :: digits) mod 2 ^ 32)) true)).
Proof.
  intros Hall. inversion Hall as [| c l Hdigit Hdigits]; subst.
  pose proof (IsDigit_range _ Hdigit) as Hrange.
  unfold ConsumeNumber.
  replace (length pre =? length (pre ++ digit :: digits))%nat with false
    by (symmetry; apply Nat.eqb_neq; rewrite length_app; cbn [length]; lia).
  unfold read. rewrite nth_error_middle. cbn [bind].
  replace (digit =? PLUS_SIGN) with false
    by (symmetry; apply Z.eqb_neq; unfold PLUS_SIGN; lia).
  replace (digit =? HYPHEN_MINUS) with false
    by (symmetry; apply Z.eqb_neq; unfold HYPHEN_MINUS; lia).
  cbn [orb]. rewrite skipn_behind.
  pose proof (push_while_run IsDigit (digit :: digits) [] (length pre) [] Hall I) as Hpush.
  rewrite app_nil_r in Hpush. rewrite Hpush. cbn [app].
  replace (length pre + length (digit :: digits))%nat with (length (pre ++ digit :: digits))
    by (rewrite length_app; reflexivity).
  assert (Hnone : nth_error (pre ++ digit :: digits) (length (pre ++ digit :: digits)) = None)
    by (apply nth_error_None; lia).
  repeat (rewrite Hnone; cbv beta iota zeta).
  rewrite (ConvertStringToNumber_digits digit digits Hall). reflexivity.
Qed.

Lemma ConsumeToken_digit (inputStream : list CodePoint) (position : SizeType)
    (digit : CodePoint) :
  nth_error inputStream position = Some digit -> IsDigit digit = true ->
  ConsumeToken inputStream position = ConsumeNumericToken inputStream position.
Proof.
  intros Hread Hdigit. pose proof (IsDigit_range _ Hdigit) as Hrange.
  unfold ConsumeToken.
  rewrite (ConsumeComments_no_solidus _ _ digit Hread) by (unfold SOLIDUS; lia).
  cbn [negb].
  replace (position =? length inputStream)%nat with false.
  2:{ symmetry. apply Nat.eqb_neq. intros Heq.
      assert (nth_error inputStream position <> None) by (rewrite Hread; discriminate).
      apply nth_error_Some in H. lia. }
  unfold read. rewrite Hread. cbn [bind].
  replace (S position - 1)%nat with position by lia.
  assert (Hcases : digit = 48 \/ digit = 49 \/ digit = 50 \/ digit = 51 \/ digit = 52
                   \/ digit = 53 \/ digit = 54 \/ digit = 55 \/ digit = 56 \/ digit = 57)
    by lia.
  repeat (destruct Hcases as [-> | Hcases]; [reflexivity |]).
  subst digit. reflexivity.
Qed.

(** X21.  An unsigned integer that ends the input sends the tokenizer past
    the end of [inputStream]: after the digits [ConsumeNumericToken] looks
    for a percentage sign at the index that is the size. *)
Theorem integer_at_end_reads_past_end (pre : list CodePoint) (digit : CodePoint)
    (digits : list CodePoint) (output : list Token) :
  Forall (fun c => IsDigit c = true) (digit :: digits) ->
  ConsumeToken (pre ++ digit :: digits) (length pre) = Undefined ReadPastEnd
  /\ TokenizeCodePoints (digit :: digits) output = Undefined ReadPastEnd.
Proof.
  intros Hall.
  assert (Htoken : forall pre, ConsumeToken (pre ++ digit :: digits) (length pre)
                               = Undefined ReadPastEnd).
  { intros pre'.
    rewrite (ConsumeToken_digit _ _ digit (nth_error_middle pre' digit digits))
      by (inversion Hall; assumption).
    eapply ConsumeNumericToken_at_end. apply ConsumeNumber_digits. exact Hall. }
  split; [apply Htoken |].
  unfold TokenizeCodePoints, rounds. cbn [TokenizeCodePoints_loop].
  change (0 <? length (digit :: digits))%nat with true. cbv iota.
  pose proof (Htoken []) as Hfirst. cbn [app length] in Hfirst.
  rewrite Hfirst. reflexivity.
Qed.

Lemma integer_at_end_reads_past_end_witness :
  ConsumeToken ([0x61; 0x3A] ++ 0x34 :: [0x32]) (length [0x61; 0x3A]) = Undefined ReadPastEnd
  /\ TokenizeCodePoints (0x34 :: [0x32]) [] = Undefined ReadPastEnd.
Proof.
  apply (integer_at_end_reads_past_end [0x61; 0x3A] 0x34 [0x32] []).
  repeat constructor.
Defined.

(** X22.  A number sign that ends the input sends [ConsumeToken] past the
    end of [inputStream]: the code point behind the sign is read before
    anything is known of the length. *)
Theorem number_sign_at_end_reads_past_end (pre : list CodePoint) :
  ConsumeToken (pre ++ [NUMBER_SIGN]) (length pre) = Undefined ReadPastEnd.
Proof.
  unfold ConsumeToken.
  rewrite (ConsumeComments_no_solidus _ _ NUMBER_SIGN (nth_error_middle pre NUMBER_SIGN []))
    by discriminate.
  cbn [negb].
  replace (length pre =? length (pre ++ [NUMBER_SIGN]))%nat with false
    by (symmetry; apply Nat.eqb_neq; rewrite length_app; cbn [length]; lia).
  unfold read at 1. rewrite nth_error_middle. cbn [bind].
  change (IsWhitespace NUMBER_SIGN) with false.
  change (NUMBER_SIGN =? QUOTATION_MARK) with false.
  change (NUMBER_SIGN =? NUMBER_SIGN) with true. cbv iota.
  unfold read.
  replace (nth_error (pre ++ [NUMBER_SIGN]) (S (length pre))) with (@None CodePoint)
    by (symmetry; apply nth_error_None; rewrite length_app; cbn [length]; lia).
  reflexivity.
Qed.

(** X23.  The id flag of a hash token is set only where at least three code
    points follow the number sign of the token, which stands where
    [ConsumeComments] has left the cursor:
    [DoThreeCodePointsStartIndentSequence] gives false near the end of the
    input whatever the name starts with. *)
Theorem id_hash_needs_three_code_points (inputStream : list CodePoint)
    (position position' : SizeType) (name : list CodePoint) :
  ConsumeToken inputStream position
  = Defined (true, position', Some (Hash (mkHashTokenValue name true))) ->
  exists sign : SizeType,
    ConsumeComments inputStream position = (true, sign)
    /\ (position <= sign)%nat
    /\ nth_error inputStream sign = Some NUMBER_SIGN
    /\ (sign + 3 < length inputStream)%nat.
Proof.
  intros Hrun. destruct (ConsumeToken_hash _ _ _ _ Hrun) as (sign & Hskip & Hsign & Hid & _).
  exists sign. cbn [hash_IsID] in Hid. symmetry in Hid.
  apply DoThreeCodePointsStartIndentSequence_length in Hid.
  pose proof (ConsumeComments_position inputStream position) as Hle.
  rewrite Hskip in Hle. cbn [snd] in Hle.
  repeat split; [exact Hskip | exact Hle | exact Hsign | lia].
Qed.

Lemma id_hash_needs_three_code_points_witness :
  exists sign : SizeType,
    ConsumeComments [0x2F; 0x2A; 0x23; 0x2A; 0x2F; 0x23; 0x61; 0x62; 0x63] 0 = (true, sign)
    /\ (0 <= sign)%nat
    /\ nth_error [0x2F; 0x2A; 0x23; 0x2A; 0x2F; 0x23; 0x61; 0x62; 0x63] sign
       = Some NUMBER_SIGN
    /\ (sign + 3 < length [0x2F; 0x2A; 0x23; 0x2A; 0x2F; 0x23; 0x61; 0x62; 0x63])%nat.
Proof.
  apply (id_hash_needs_three_code_points
           [0x2F; 0x2A; 0x23; 0x2A; 0x2F; 0x23; 0x61; 0x62; 0x63] 0 9 [0x61; 0x62; 0x63]).
  reflexivity.
Defined.

(** ** Functions and URLs *)

Lemma ConsumeURL_bad_url_result (inputStream : list CodePoint) (position : SizeType)
    (ok : bool) (position' : SizeType) (token : option Token) :
  ConsumeURL_bad inputStream position = Defined (ok, position', token) -> url_result token.
Proof.
  unfold ConsumeURL_bad. intros Hrun. bind_inv Hrun. destruct a as [ok0 p0].
  destruct (negb ok0); defined_inv Hrun; exact I.
Qed.

Lemma ConsumeURL_loop_url_result (inputStream : list CodePoint) :
  forall (fuel : nat) (position : SizeType) (value : list CodePoint)
         (ok : bool) (position' : SizeType) (token : option Token),
    ConsumeURL_loop fuel inputStream position value = Defined (ok, position', token) ->
    url_result token.
Proof.
  induction fuel as [| fuel IH]; intros position value ok position' token Hrun.
  - discriminate.
  - cbn [ConsumeURL_loop] in Hrun.
    destruct (nth_error inputStream position) as [c |].
    2:{ defined_inv Hrun. exact I. }
    destruct (c =? RIGHT_PARENTHESIS); [defined_inv Hrun; exact I |].
    destruct (IsWhitespace c).
    { destruct (_ =? length inputStream)%nat; [defined_inv Hrun; exact I |].
      bind_inv Hrun.
      destruct (a =? RIGHT_PARENTHESIS); [defined_inv Hrun; exact I |].
      eapply ConsumeURL_bad_url_result; exact Hrun. }
    destruct ((c =? QUOTATION_MARK) || (c =? APOSTROPHE) || (c =? LEFT_PARENTHESIS)
              || IsNonPrintable c);
      [eapply ConsumeURL_bad_url_result; exact Hrun |].
    destruct (c =? REVERSE_SOLIDUS); [| eapply IH; exact Hrun].
    destruct (AreTwoCodePointsValidEscape inputStream (S position - 1));
      [| eapply ConsumeURL_bad_url_result; exact Hrun].
    bind_inv Hrun. destruct a as [[ok0 p0] raw].
    destruct (negb ok0); [defined_inv Hrun; exact I |].
    destruct raw; [eapply IH; exact Hrun | discriminate].
Qed.

(** X24.  The left parenthesis of a function is not consumed with its
    name: [ConsumeIdentLikeToken] leaves the cursor on it, and the next
    call of [ConsumeToken] makes a token of its own of it. *)
Theorem function_leaves_left_parenthesis (inputStream : list CodePoint)
    (position position' : SizeType) (name : list CodePoint) :
  is_url name = false ->
  ConsumeIdentLikeToken inputStream position
  = Defined (true, position', Some (Function name)) ->
  nth_error inputStream position' = Some LEFT_PARENTHESIS
  /\ ConsumeToken inputStream position' = Defined (true, S position', Some LeftParenthesis).
Proof.
  intros Hname Hrun. unfold ConsumeIdentLikeToken in Hrun.
  bind_inv Hrun. destruct a as [[ok0 p0] string].
  destruct (negb ok0); [discriminate |].
  destruct string as [string |]; [| discriminate].
  destruct (is_url string && test_at (fun c => c =? LEFT_PARENTHESIS) inputStream p0)
    eqn:Hurl.
  { exfalso. apply andb_true_iff in Hurl. destruct Hurl as [Hurl _].
    match type of Hrun with
    | (if ?b then _ else _) = _ => destruct b
    end.
    - injection Hrun as _ ->. congruence.
    - unfold ConsumeURL in Hrun. apply ConsumeURL_loop_url_result in Hrun. exact Hrun. }
  destruct (test_at (fun c => c =? LEFT_PARENTHESIS) inputStream p0) eqn:Hparen;
    [| discriminate].
  injection Hrun as <- _. unfold test_at in Hparen.
  destruct (nth_error inputStream p0) as [c |] eqn:Hread; [| discriminate].
  apply Z.eqb_eq in Hparen. subst c. split; [reflexivity |].
  unfold ConsumeToken.
  rewrite (ConsumeComments_no_solidus _ _ LEFT_PARENTHESIS Hread) by discriminate.
  cbn [negb].
  replace (p0 =? length inputStream)%nat with false.
  2:{ symmetry. apply Nat.eqb_neq. intros Heq.
      assert (nth_error inputStream p0 <> None) by (rewrite Hread; discriminate).
      apply nth_error_Some in H. lia. }
  unfold read. rewrite Hread. reflexivity.
Qed.

Lemma function_leaves_left_parenthesis_witness :
  nth_error [0x72; 0x67; 0x62; 0x28; 0x31; 0x29] 3 = Some LEFT_PARENTHESIS
  /\ ConsumeToken [0x72; 0x67; 0x62; 0x28; 0x31; 0x29] 3
     = Defined (true, 4%nat, Some LeftParenthesis).
Proof.
  apply (function_leaves_left_parenthesis [0x72; 0x67; 0x62; 0x28; 0x31; 0x29] 0 3
           [0x72; 0x67; 0x62]); reflexivity.
Defined.

Lemma ConsumeURL_loop_plain (rest : list CodePoint) :
  forall (body pre : list CodePoint) (fuel : nat) (value : list CodePoint),
    Forall (fun c => plain_in_url c = true) body ->
    (length body < fuel)%nat ->
    ConsumeURL_loop fuel (pre ++ body ++ RIGHT_PARENTHESIS :: rest) (length pre) value
    = Defined (true, (length pre + length body + 1)%nat, Some (URL (value ++ body))).
Proof.
  induction body as [| c body IH]; intros pre fuel value Hbody Hfuel.
  - destruct fuel as [| fuel]; [cbn [length] in Hfuel; lia |].
    cbn [app ConsumeURL_loop]. rewrite nth_error_middle.
    change (RIGHT_PARENTHESIS =? RIGHT_PARENTHESIS) with true. cbv iota.
    rewrite app_nil_r. cbn [length]. do 3 f_equal. lia.
  - destruct fuel as [| fuel]; [cbn [length] in Hfuel; lia |].
    inversion Hbody as [| c' body' Hc Hbody']; subst.
    cbn [app ConsumeURL_loop]. rewrite nth_error_middle.
    unfold plain_in_url in Hc.
    apply andb_true_iff in Hc. destruct Hc as [Hc Hsolidus].
    apply andb_true_iff in Hc. destruct Hc as [Hc Hbad].
    apply andb_true_iff in Hc. destruct Hc as [Hparen Hspace].
    apply negb_true_iff in Hsolidus, Hbad, Hparen, Hspace.
    rewrite Hparen, Hspace, Hbad, Hsolidus.
    change (pre ++ c :: body ++ RIGHT_PARENTHESIS :: rest)
      with (pre ++ [c] ++ body ++ RIGHT_PARENTHESIS :: rest).
    rewrite app_assoc.
    replace (S (length pre)) with (length (pre ++ [c]))
      by (rewrite length_app; cbn [length]; lia).
    rewrite IH by (try assumption; cbn [length] in Hfuel; lia).
    rewrite length_app, <- app_assoc. cbn [length app]. do 3 f_equal. lia.
Qed.

(** X26.  An unquoted URL without escapes is taken as it stands:
    [ConsumeURL] skips the whitespace in front of it, appends every code
    point up to the right parenthesis to the value of one URL token, and
    leaves the cursor behind the parenthesis. *)
Theorem url_without_escapes (pre space body rest : list CodePoint) :
  Forall (fun c => IsWhitespace c = true) space ->
  Forall (fun c => plain_in_url c = true) body ->
  ConsumeURL (pre ++ space ++ body ++ RIGHT_PARENTHESIS :: rest) (length pre)
  = Defined (true, (length pre + length space + length body + 1)%nat, Some (URL body)).
Proof.
  intros Hspace Hbody. unfold ConsumeURL. cbv zeta.
  rewrite skipn_behind.
  assert (Hstop : stops_at IsWhitespace (body ++ RIGHT_PARENTHESIS :: rest)).
  { destruct body as [| c body]; [reflexivity |].
    inversion Hbody as [| c' body' Hc _]; subst. cbn [app stops_at].
    unfold plain_in_url in Hc.
    apply andb_true_iff in Hc. destruct Hc as [Hc _].
    apply andb_true_iff in Hc. destruct Hc as [Hc _].
    apply andb_true_iff in Hc. destruct Hc as [_ Hc].
    apply negb_true_iff in Hc. exact Hc. }
  rewrite (advance_while_run IsWhitespace space _ (length pre) Hspace Hstop).
  unfold rounds. rewrite app_assoc.
  replace (length pre + length space)%nat with (length (pre ++ space))
    by (rewrite length_app; reflexivity).
  rewrite ConsumeURL_loop_plain.
  - reflexivity.
  - exact Hbody.
  - rewrite !length_app. cbn [length]. lia.
Qed.

Lemma url_without_escapes_witness :
  ConsumeURL ([0x75; 0x72; 0x6C; 0x28] ++ [0x20; 0x09] ++ [0x61; 0x2E; 0x62]
                ++ RIGHT_PARENTHESIS :: [0x3B]) (length [0x75; 0x72; 0x6C; 0x28])
  = Defined (true, (length [0x75; 0x72; 0x6C; 0x28] + length [0x20; 0x09]
                    + length [0x61; 0x2E; 0x62] + 1)%nat,
             Some (URL [0x61; 0x2E; 0x62])).
Proof.
  apply (url_without_escapes [0x75; 0x72; 0x6C; 0x28] [0x20; 0x09] [0x61; 0x2E; 0x62] [0x3B]);
    repeat constructor.
Defined.

Lemma TokenizeCodePoints_loop_count (inputStream : list CodePoint) :
  forall (fuel : nat) (position : SizeType) (output : list Token)
         (ok : bool) (output' : list Token),
    TokenizeCodePoints_loop fuel inputStream position output = Defined (ok, output') ->
    (length output' <= length output + (length inputStream - position))%nat.
Proof.
  induction fuel as [| fuel IH]; intros position output ok output' Hrun; [discriminate |].
  cbn [TokenizeCodePoints_loop] in Hrun.
  destruct (position <? length inputStream)%nat eqn:Hpos.
  2:{ injection Hrun as _ <-. lia. }
  apply Nat.ltb_lt in Hpos.
  pose proof (ConsumeToken_terminates inputStream position) as Hmove.
  bind_inv Hrun. destruct a as [[ok0 p0] token].
  cbn [terminates_with flag cursor fst snd] in Hmove.
  destruct ok0; cbn [negb] in Hrun; [| injection Hrun as _ <-; lia].
  destruct token as [token |]; [| discriminate].
  apply IH in Hrun. rewrite length_app in Hrun. cbn [length] in Hrun.
  assert (position < p0)%nat by (apply Hmove; [reflexivity | discriminate]).
  lia.
Qed.

(** X27.  [TokenizeCodePoints] pushes at most one token for each code
    point of the input. *)
Theorem token_count_bounded (inputStream : list CodePoint) (output : list Token)
    (ok : bool) (output' : list Token) :
  TokenizeCodePoints inputStream output = Defined (ok, output') ->
  (length output' <= length output + length inputStream)%nat.
Proof.
  unfold TokenizeCodePoints. intros Hrun.
  apply TokenizeCodePoints_loop_count in Hrun. lia.
Qed.

Lemma token_count_bounded_witness :
  (length [Delim 0x2A; Ident [0x61]; Whitespace; LeftCurlyBracket; RightCurlyBracket]%Z
   <= length [Delim 0x2A]%Z + length [0x61; 0x20; 0x20; 0x7B; 0x7D]%Z)%nat.
Proof.
  apply (token_count_bounded [0x61; 0x20; 0x20; 0x7B; 0x7D] [Delim 0x2A] true).
  reflexivity.
Defined.

(** ** Hexadecimal escapes *)

Lemma HexDigitToNumber_value (digit : CodePoint) :
  IsHexDigit digit = true ->
  HexDigitToNumber digit = hex_digit_value digit /\ 0 <= hex_digit_value digit < 16.
Proof.
  unfold IsHexDigit, HexDigitToNumber, hex_digit_value, IsDigit, IsLowercaseLetter, u32.
  unfold ZERO, NINE, LATIN_CAPITAL_LETTER_A, LATIN_CAPITAL_LETTER_F,
    LATIN_SMALL_LETTER_A, LATIN_SMALL_LETTER_F, LATIN_SMALL_LETTER_Z.
  intros Hhex.
  destruct ((48 <=? digit) && (digit <=? 57)) eqn:Hdigit.
  - bool_facts. replace (digit <=? 57) with true by (symmetry; apply Z.leb_le; lia).
    rewrite Z.mod_small by lia. lia.
  - cbn [orb] in Hhex.
    destruct ((65 <=? digit) && (digit <=? 70)) eqn:Hupper.
    + clear Hhex. apply andb_true_iff in Hupper. destruct Hupper as [H1 H2].
      apply Z.leb_le in H1, H2.
      replace (digit <=? 57) with false by (symmetry; apply Z.leb_gt; lia).
      replace (digit <=? 70) with true by (symmetry; apply Z.leb_le; lia).
      replace ((97 <=? digit) && (digit <=? 122)) with false
        by (symmetry; apply andb_false_iff; left; apply Z.leb_gt; lia).
      rewrite (Z.mod_small (10 + digit)) by lia. rewrite Z.mod_small by lia. lia.
    + cbn [orb] in Hhex. apply andb_true_iff in Hhex. destruct Hhex as [H1 H2].
      apply Z.leb_le in H1, H2.
      replace (digit <=? 57) with false by (symmetry; apply Z.leb_gt; lia).
      replace (digit <=? 70) with false by (symmetry; apply Z.leb_gt; lia).
      replace ((97 <=? digit) && (digit <=? 122)) with true
        by (symmetry; apply andb_true_iff; split; apply Z.leb_le; lia).
      rewrite (Z.mod_small (10 + digit)) by lia. rewrite Z.mod_small by lia. lia.
Qed.

(** Shifting a hexadecimal digit into the accumulator. *)
Lemma accumulate_hex_digit (resultBytes asNumber : Z) :
  0 <= resultBytes < 2 ^ 28 -> 0 <= asNumber < 16 ->
  Z.lor (u32 (Z.shiftl resultBytes 4)) asNumber = resultBytes * 16 + asNumber.
Proof.
  intros Hr Hv. unfold u32.
  rewrite Z.shiftl_mul_pow2 by lia. change (2 ^ 4) with 16.
  rewrite (Z.mod_small (resultBytes * 16)) by lia.
  assert (Hlow : Z.land asNumber (Z.ones 4) = asNumber).
  { rewrite land_low_bits by lia. apply Z.mod_small. change (2 ^ 4) with 16. lia. }
  pose proof (Z.add_lor_land (resultBytes * 16) asNumber) as Hadd.
  replace (Z.land (resultBytes * 16) asNumber) with 0 in Hadd.
  - lia.
  - symmetry. rewrite <- Hlow.
    replace (resultBytes * 16) with (Z.shiftl resultBytes 4)
      by (rewrite Z.shiftl_mul_pow2 by lia; reflexivity).
    apply land_shiftl_disjoint. lia.
Qed.

Lemma HexSequenceToCodePoint_loop_value (post : list CodePoint) :
  forall (slice pre : list CodePoint) (resultBytes : Z) (k : nat),
    Forall (fun c => IsHexDigit c = true) slice ->
    0 <= resultBytes < 16 ^ Z.of_nat k -> (k + length slice <= 8)%nat ->
    HexSequenceToCodePoint_loop (length slice) (pre ++ slice ++ post) (length pre) resultBytes
    = Defined (fold_left (fun value digit => value * 16 + hex_digit_value digit)
                 slice resultBytes).
Proof.
  induction slice as [| c slice IH]; intros pre resultBytes k Hhex Hr Hk; [reflexivity |].
  inversion Hhex as [| c' slice' Hc Hslice]; subst.
  cbn [length HexSequenceToCodePoint_loop app fold_left].
  unfold read. rewrite nth_error_middle. cbn [bind].
  destruct (HexDigitToNumber_value c Hc) as [-> Hv].
  cbn [length] in Hk.
  assert (Hpow : 16 ^ Z.of_nat k <= 16 ^ 7) by (apply Z.pow_le_mono_r; lia).
  rewrite accumulate_hex_digit by (change (2 ^ 28) with (16 ^ 7); lia).
  change (pre ++ c :: slice ++ post) with (pre ++ [c] ++ slice ++ post).
  rewrite app_assoc.
  replace (S (length pre)) with (length (pre ++ [c]))
    by (rewrite length_app; cbn [length]; lia).
  apply (IH _ _ (S k)); [exact Hslice | | lia].
  rewrite Nat2Z.inj_succ, Z.pow_succ_r by lia. lia.
Qed.

Lemma ConsumeEscapedCodePoint_hex_run (c : CodePoint) (rest : list CodePoint) :
  forall (run pre : list CodePoint) (left : nat) (consumed : SizeType),
    Forall (fun x => IsHexDigit x = true) run ->
    (length run <= left)%nat ->
    IsHexDigit c = false \/ length run = left ->
    ConsumeEscapedCodePoint_hex left (pre ++ run ++ c :: rest) (length pre) consumed
    = Defined ((length pre + length run)%nat, (consumed + length run)%nat).
Proof.
  induction run as [| d run IH]; intros pre left consumed Hrun Hleft Hstop.
  - cbn [app length]. rewrite !Nat.add_0_r.
    destruct left as [| left]; [reflexivity |].
    cbn [ConsumeEscapedCodePoint_hex]. unfold read. rewrite nth_error_middle. cbn [bind].
    destruct Hstop as [-> | Hstop]; [reflexivity | cbn [length] in Hstop; lia].
  - inversion Hrun as [| d' run' Hd Hrun']; subst.
    cbn [length] in Hleft, Hstop.
    destruct left as [| left]; [lia |].
    cbn [app ConsumeEscapedCodePoint_hex]. unfold read. rewrite nth_error_middle.
    cbn [bind]. rewrite Hd. cbn [negb].
    change (pre ++ d :: run ++ c :: rest) with (pre ++ [d] ++ run ++ c :: rest).
    rewrite app_assoc.
    replace (S (length pre)) with (length (pre ++ [d]))
      by (rewrite length_app; cbn [length]; lia).
    rewrite IH; [| exact Hrun' | lia | destruct Hstop; [left; assumption | right; lia]].
    rewrite length_app. cbn [length]. f_equal. f_equal; lia.
Qed.

(** X25.  A hexadecimal escape of one to six digits, with a code point
    behind it, yields the number its digits denote and leaves the cursor
    behind the digits and behind one whitespace that follows them.  The
    number is replaced by U+FFFD when it is a surrogate, when it exceeds
    U+10FFFF, and when it is 0x30, the value of [CodePointValue::ZERO];
    the number zero is kept. *)
Theorem hexadecimal_escape_value (pre : list CodePoint) (digit : CodePoint)
    (digits : list CodePoint) (c : CodePoint) (rest : list CodePoint) :
  Forall (fun x => IsHexDigit x = true) (digit :: digits) ->
  (length digits <= 5)%nat ->
  IsHexDigit c = false \/ length digits = 5%nat ->
  ConsumeEscapedCodePoint (pre ++ digit :: digits ++ c :: rest) (length pre)
  = Defined (true,
             (length pre + 1 + length digits + (if IsWhitespace c then 1 else 0))%nat,
             Some (if (hex_value (digit :: digits) =? ZERO)
                      || IsSurrogate (hex_value (digit :: digits))
                      || (MAXIMUM_ALLOWED_CODE_POINT <? hex_value (digit :: digits))
                   then REPLACEMENT else hex_value (digit :: digits))).
Proof.
  intros Hall Hlen Hstop. inversion Hall as [| d l Hdigit Hdigits]; subst.
  unfold ConsumeEscapedCodePoint. cbv zeta.
  replace (length pre =? length (pre ++ digit :: digits ++ c :: rest))%nat with false
    by (symmetry; apply Nat.eqb_neq; rewrite length_app; cbn [length]; lia).
  unfold read at 1. rewrite nth_error_middle. cbn [bind]. rewrite Hdigit.
  assert (Hloop : ConsumeEscapedCodePoint_hex 5 (pre ++ digit :: digits ++ c :: rest)
                    (S (length pre)) 0
                  = Defined (length (pre ++ digit :: digits), length digits)).
  { pose proof (ConsumeEscapedCodePoint_hex_run c rest digits (pre ++ [digit]) 5 0
                  Hdigits Hlen Hstop) as Hloop.
    rewrite <- app_assoc in Hloop. cbn [app] in Hloop.
    rewrite length_app in Hloop. cbn [length] in Hloop.
    replace (length pre + 1)%nat with (S (length pre)) in Hloop by lia.
    rewrite Hloop. rewrite length_app. cbn [length]. f_equal. f_equal. lia. }
  assert (Hread : nth_error (pre ++ digit :: digits ++ c :: rest)
                    (length (pre ++ digit :: digits)) = Some c).
  { change (pre ++ digit :: digits ++ c :: rest)
      with (pre ++ (digit :: digits) ++ c :: rest).
    rewrite app_assoc. apply nth_error_middle. }
  rewrite Hloop. cbn [bind]. unfold read at 1. rewrite Hread.
  cbn [bind]. unfold HexSequenceToCodePoint.
  pose proof (HexSequenceToCodePoint_loop_value (c :: rest) (digit :: digits) pre 0 0
                Hall) as Hvalue.
  cbn [length] in Hvalue.
  replace (length digits + 1)%nat with (S (length digits)) by lia.
  change (pre ++ digit :: digits ++ c :: rest)
    with (pre ++ (digit :: digits) ++ c :: rest).
  rewrite Hvalue by (cbn; lia). cbn [bind].
  fold (hex_value (digit :: digits)).
  destruct ((hex_value (digit :: digits) =? ZERO)
            || IsSurrogate (hex_value (digit :: digits))
            || (MAXIMUM_ALLOWED_CODE_POINT <? hex_value (digit :: digits)));
    destruct (IsWhitespace c); do 3 f_equal; rewrite length_app; cbn [length]; lia.
Qed.

Lemma hexadecimal_escape_value_witness :
  ConsumeEscapedCodePoint ([0x5C] ++ 0x30 :: [] ++ 0x20 :: [0x61]) (length [0x5C])
  = Defined (true, 3%nat, Some 0)
  /\ ConsumeEscapedCodePoint ([0x5C] ++ 0x33 :: [0x30] ++ 0x20 :: [0x61]) (length [0x5C])
     = Defined (true, 4%nat, Some 0xFFFD).
Proof.
  split.
  - apply (hexadecimal_escape_value [0x5C] 0x30 [] 0x20 [0x61]).
    + repeat constructor.
    + cbn [length]. lia.
    + left. reflexivity.
  - apply (hexadecimal_escape_value [0x5C] 0x33 [0x30] 0x20 [0x61]).
    + repeat constructor.
    + cbn [length]. lia.
    + left. reflexivity.
Defined.

(** ** The cursor stays within the input *)

Lemma nth_error_Some_lt {A : Type} (l : list A) (i : nat) (a : A) :
  nth_error l i = Some a -> (i < length l)%nat.
Proof. intros H. apply nth_error_Some. rewrite H. discriminate. Qed.

Lemma test_at_lt (p : CodePoint -> bool) (inputStream : list CodePoint) (i : SizeType) :
  test_at p inputStream i = true -> (i < length inputStream)%nat.
Proof.
  unfold test_at. destruct (nth_error inputStream i) eqn:H; [| discriminate].
  intros _. eapply nth_error_Some_lt. exact H.
Qed.

Lemma advance_while_le (p : CodePoint -> bool) (rest : list CodePoint) :
  forall position : SizeType,
    (advance_while p rest position <= position + length rest)%nat.
Proof.
  induction rest as [| c rest IH]; intros position; cbn [advance_while length]; [lia |].
  destruct (p c); [| lia]. specialize (IH (S position)). lia.
Qed.

Lemma advance_while_within (p : CodePoint -> bool) (inputStream : list CodePoint)
    (position : SizeType) :
  (position <= length inputStream)%nat ->
  (advance_while p (skipn position inputStream) position <= length inputStream)%nat.
Proof.
  intros Hpos.
  pose proof (advance_while_le p (skipn position inputStream) position) as Hle.
  rewrite length_skipn in Hle. lia.
Qed.

Lemma push_while_le (p : CodePoint -> bool) (rest : list CodePoint) :
  forall (position : SizeType) (repr : list CodePoint),
    (fst (push_while p rest position repr) <= position + length rest)%nat.
Proof.
  induction rest as [| c rest IH]; intros position repr; cbn [push_while length].
  - cbn [fst]. lia.
  - destruct (p c); [| cbn [fst]; lia]. specialize (IH (S position) (repr ++ [c])). lia.
Qed.

Lemma push_while_within (p : CodePoint -> bool) (inputStream : list CodePoint)
    (position : SizeType) (repr : list CodePoint) :
  (position <= length inputStream)%nat ->
  (fst (push_while p (skipn position inputStream) position repr) <= length inputStream)%nat.
Proof.
  intros Hpos.
  pose proof (push_while_le p (skipn position inputStream) position repr) as Hle.
  rewrite length_skipn in Hle. lia.
Qed.

Lemma ConsumeComments_scan_le (rest : list CodePoint) :
  forall (position : SizeType) (isPreviousAsterisk : bool),
    (snd (ConsumeComments_scan rest position isPreviousAsterisk)
     <= position + length rest)%nat.
Proof.
  induction rest as [| c rest IH]; intros position star;
    cbn [ConsumeComments_scan length].
  - cbn [snd]. lia.
  - destruct (c =? ASTERISK).
    + specialize (IH (S position) true). lia.
    + destruct ((c =? SOLIDUS) && star).
      * cbn [snd]. lia.
      * specialize (IH (S position) false). lia.
Qed.

Lemma ConsumeComments_within (inputStream : list CodePoint) (position : SizeType) :
  (position <= length inputStream)%nat ->
  (snd (ConsumeComments inputStream position) <= length inputStream)%nat.
Proof.
  intros Hpos. unfold ConsumeComments.
  destruct (length inputStream <=? position + 1)%nat; [exact Hpos |].
  match goal with
  | |- context [if ?b then _ else _] => destruct b; [exact Hpos |]
  end.
  pose proof (ConsumeComments_scan_le (skipn position inputStream) position false) as Hle.
  rewrite length_skipn in Hle. lia.
Qed.

Lemma ConsumeIdentLikeToken_skip_le (rest : list CodePoint) :
  forall position : SizeType,
    (ConsumeIdentLikeToken_skip rest position <= position + length rest)%nat.
Proof.
  induction rest as [| c rest IH]; intros position;
    cbn [ConsumeIdentLikeToken_skip length]; [lia |].
  destruct rest as [| c1 rest]; [lia |].
  destruct (IsWhitespace c && IsWhitespace c1); [| lia].
  specialize (IH (S position)). cbn [length] in *. lia.
Qed.

Lemma ConsumeEscapedCodePoint_hex_within (inputStream : list CodePoint) :
  forall (left : nat) (position consumed position' consumed' : SizeType),
    (position <= length inputStream)%nat ->
    ConsumeEscapedCodePoint_hex left inputStream position consumed
    = Defined (position', consumed') ->
    (position' <= length inputStream)%nat.
Proof.
  induction left as [| left IH]; intros position consumed position' consumed' Hpos Hrun;
    cbn [ConsumeEscapedCodePoint_hex] in Hrun.
  - injection Hrun as <- _. exact Hpos.
  - bind_inv Hrun. unfold read in Ecall.
    destruct (nth_error inputStream position) eqn:Hread; [| discriminate].
    apply nth_error_Some_lt in Hread.
    destruct (negb (IsHexDigit a)).
    + injection Hrun as <- _. exact Hpos.
    + eapply IH; [| exact Hrun]. lia.
Qed.

Lemma ConsumeEscapedCodePoint_within (inputStream : list CodePoint) (position : SizeType)
    (ok : bool) (position' : SizeType) (output : option CodePoint) :
  (position <= length inputStream)%nat ->
  ConsumeEscapedCodePoint inputStream position = Defined (ok, position', output) ->
  (position' <= length inputStream)%nat.
Proof.
  intros Hpos Hrun. unfold ConsumeEscapedCodePoint in Hrun.
  destruct (position =? length inputStream)%nat; [defined_inv Hrun; exact Hpos |].
  bind_inv Hrun. unfold read in Ecall.
  destruct (nth_error inputStream position) eqn:Hread; [| discriminate].
  apply nth_error_Some_lt in Hread.
  destruct (IsHexDigit a); [| defined_inv Hrun; lia].
  bind_inv Hrun. destruct a0 as [p consumed].
  apply ConsumeEscapedCodePoint_hex_within in Ecall0; [| lia].
  bind_inv Hrun. unfold read in Ecall1.
  destruct (nth_error inputStream p) eqn:Hnext; [| discriminate].
  apply nth_error_Some_lt in Hnext.
  bind_inv Hrun.
  match type of Hrun with
  | (if ?b then _ else _) = _ => destruct b
  end; defined_inv Hrun; destruct (IsWhitespace a0); lia.
Qed.

Lemma ConsumeStringToken_loop_within (inputStream : list CodePoint)
    (endingCodePoint : CodePoint) :
  forall (fuel : nat) (position : SizeType) (value : list CodePoint)
         (ok : bool) (position' : SizeType) (token : option Token),
    (position <= length inputStream)%nat ->
    ConsumeStringToken_loop fuel inputStream position endingCodePoint value
    = Defined (ok, position', token) ->
    (position' <= length inputStream)%nat.
Proof.
  induction fuel as [| fuel IH]; intros position value ok position' token Hpos Hrun;
    [discriminate |].
  cbn [ConsumeStringToken_loop] in Hrun.
  destruct (nth_error inputStream position) as [c |] eqn:Hread;
    [| defined_inv Hrun; exact Hpos].
  apply nth_error_Some_lt in Hread.
  destruct (c =? endingCodePoint); [defined_inv Hrun; lia |].
  destruct (IsNewline c); [defined_inv Hrun; lia |].
  destruct (c =? REVERSE_SOLIDUS); [| eapply IH; [| exact Hrun]; lia].
  destruct (S position =? length inputStream)%nat; [eapply IH; [| exact Hrun]; lia |].
  bind_inv Hrun. unfold read in Ecall.
  destruct (nth_error inputStream (S position)) eqn:Hnext; [| discriminate].
  apply nth_error_Some_lt in Hnext.
  destruct (IsNewline a); [eapply IH; [| exact Hrun]; lia |].
  bind_inv Hrun. destruct a0 as [[ok0 p0] raw].
  apply ConsumeEscapedCodePoint_within in Ecall0; [| lia].
  destruct (negb ok0); [defined_inv Hrun; exact Ecall0 |].
  destruct raw; [eapply IH; [| exact Hrun]; exact Ecall0 | discriminate].
Qed.

Lemma ConsumeIdentSequence_loop_within (inputStream : list CodePoint) :
  forall (fuel : nat) (position : SizeType) (resultLocal : list CodePoint)
         (ok : bool) (position' : SizeType) (result : option (list CodePoint)),
    (position <= length inputStream)%nat ->
    ConsumeIdentSequence_loop fuel inputStream position resultLocal
    = Defined (ok, position', result) ->
    (position' <= length inputStream)%nat.
Proof.
  induction fuel as [| fuel IH]; intros position resultLocal ok position' result Hpos Hrun;
    [discriminate |].
  cbn [ConsumeIdentSequence_loop] in Hrun.
  destruct (nth_error inputStream position) as [c |] eqn:Hread;
    [| defined_inv Hrun; exact Hpos].
  apply nth_error_Some_lt in Hread.
  destruct (IsIdent c); [eapply IH; [| exact Hrun]; lia |].
  destruct (AreTwoCodePointsValidEscape inputStream position);
    [| defined_inv Hrun; exact Hpos].
  bind_inv Hrun. destruct a as [[ok0 p0] escaped].
  apply ConsumeEscapedCodePoint_within in Ecall; [| lia].
  destruct (negb ok0); [defined_inv Hrun; exact Ecall |].
  destruct escaped; [eapply IH; [| exact Hrun]; exact Ecall | discriminate].
Qed.

Lemma ConsumeNumber_within (inputStream : list CodePoint) (position : SizeType)
    (ok : bool) (position' : SizeType) (output : option NumberTokenValue) :
  (position <= length inputStream)%nat ->
  ConsumeNumber inputStream position = Defined (ok, position', output) ->
  (position' <= length inputStream)%nat.
Proof.
  intros Hpos Hrun. unfold ConsumeNumber in Hrun.
  destruct (position =? length inputStream)%nat; [defined_inv Hrun; exact Hpos |].
  bind_inv Hrun. unfold read in Ecall.
  destruct (nth_error inputStream position) eqn:Hread; [| discriminate].
  apply nth_error_Some_lt in Hread. clear Ecall.
  repeat first
    [ progress cbv beta iota zeta in Hrun
    | match type of Hrun with
      | context [push_while ?p (skipn ?pos inputStream) ?pos ?repr] =>
          let H := fresh "Hpush" in
          pose proof (push_while_within p inputStream pos repr) as H;
          destruct (push_while p (skipn pos inputStream) pos repr) as [? ?];
          cbn [fst] in H
      | context [match nth_error ?l ?i with _ => _ end] =>
          let H := fresh "Hnth" in
          destruct (nth_error l i) eqn:H; [apply nth_error_Some_lt in H |]
      | context [if ?b then _ else _] => destruct b
      end ];
    bind_inv Hrun; defined_inv Hrun; lia.
Qed.

Lemma ConsumeNumericToken_within (inputStream : list CodePoint) (position : SizeType)
    (ok : bool) (position' : SizeType) (token : option Token) :
  (position <= length inputStream)%nat ->
  ConsumeNumericToken inputStream position = Defined (ok, position', token) ->
  (position' <= length inputStream)%nat.
Proof.
  intros Hpos Hrun. unfold ConsumeNumericToken in Hrun.
  bind_inv Hrun. destruct a as [[ok0 p0] number].
  apply ConsumeNumber_within in Ecall; [| exact Hpos].
  destruct (negb ok0); [defined_inv Hrun; exact Ecall |].
  destruct number as [number |]; [| discriminate].
  destruct (DoThreeCodePointsStartIndentSequence inputStream p0).
  - bind_inv Hrun. destruct a as [[ok1 p1] unit].
    apply ConsumeIdentSequence_loop_within in Ecall0; [| exact Ecall].
    destruct (negb ok1); [defined_inv Hrun; exact Ecall0 |].
    destruct unit; [defined_inv Hrun; exact Ecall0 | discriminate].
  - bind_inv Hrun. unfold read in Ecall0.
    destruct (nth_error inputStream p0) eqn:Hread; [| discriminate].
    apply nth_error_Some_lt in Hread.
    destruct (a =? PERCENTAGE_SIGN); defined_inv Hrun; lia.
Qed.

(** Behind a valid escape [ConsumeEscapedCodePoint], called on the reverse
    solidus itself as [ConsumeRemnantsOfBadURL] does, takes the solidus for
    the escaped code point. *)
Lemma ConsumeEscapedCodePoint_on_solidus (inputStream : list CodePoint)
    (position : SizeType) :
  AreTwoCodePointsValidEscape inputStream position = true ->
  ConsumeEscapedCodePoint inputStream position
  = Defined (true, S position, Some REVERSE_SOLIDUS).
Proof.
  intros Hescape. pose proof (AreTwoCodePointsValidEscape_length _ _ Hescape) as Hlen.
  unfold AreTwoCodePointsValidEscape, test_at in Hescape.
  destruct (length inputStream <=? position + 1)%nat; [discriminate |].
  destruct (nth_error inputStream position) as [c |] eqn:Hread; [| discriminate].
  destruct (c =? REVERSE_SOLIDUS) eqn:Hc; [| discriminate].
  apply Z.eqb_eq in Hc. subst c.
  unfold ConsumeEscapedCodePoint.
  replace (position =? length inputStream)%nat with false
    by (symmetry; apply Nat.eqb_neq; lia).
  unfold read. rewrite Hread. reflexivity.
Qed.

Lemma ConsumeRemnantsOfBadURL_loop_within (inputStream : list CodePoint) :
  forall (fuel : nat) (position : SizeType) (ok : bool) (position' : SizeType),
    (position <= length inputStream)%nat ->
    ConsumeRemnantsOfBadURL_loop fuel inputStream position = Defined (ok, position') ->
    (position' <= length inputStream)%nat.
Proof.
  induction fuel as [| fuel IH]; intros position ok position' Hpos Hrun; [discriminate |].
  cbn [ConsumeRemnantsOfBadURL_loop] in Hrun.
  destruct (nth_error inputStream position) as [c |] eqn:Hread;
    [| defined_inv Hrun; exact Hpos].
  apply nth_error_Some_lt in Hread.
  destruct (c =? RIGHT_PARENTHESIS); [defined_inv Hrun; exact Hpos |].
  destruct (AreTwoCodePointsValidEscape inputStream position) eqn:Hescape.
  - pose proof (AreTwoCodePointsValidEscape_length _ _ Hescape) as Hlen.
    rewrite (ConsumeEscapedCodePoint_on_solidus _ _ Hescape) in Hrun.
    cbn [bind negb] in Hrun. eapply IH; [| exact Hrun]. lia.
  - eapply IH; [| exact Hrun]. lia.
Qed.

Lemma ConsumeURL_bad_within (inputStream : list CodePoint) (position : SizeType)
    (ok : bool) (position' : SizeType) (token : option Token) :
  (position <= length inputStream)%nat ->
  ConsumeURL_bad inputStream position = Defined (ok, position', token) ->
  (position' <= length inputStream)%nat.
Proof.
  intros Hpos Hrun. unfold ConsumeURL_bad, ConsumeRemnantsOfBadURL in Hrun.
  bind_inv Hrun. destruct a as [ok0 p0].
  apply ConsumeRemnantsOfBadURL_loop_within in Ecall; [| exact Hpos].
  destruct (negb ok0); defined_inv Hrun; exact Ecall.
Qed.

Lemma ConsumeURL_loop_within (inputStream : list CodePoint) :
  forall (fuel : nat) (position : SizeType) (value : list CodePoint)
         (ok : bool) (position' : SizeType) (token : option Token),
    (position <= length inputStream)%nat ->
    ConsumeURL_loop fuel inputStream position value = Defined (ok, position', token) ->
    (position' <= length inputStream)%nat.
Proof.
  induction fuel as [| fuel IH]; intros position value ok position' token Hpos Hrun;
    [discriminate |].
  cbn [ConsumeURL_loop] in Hrun.
  destruct (nth_error inputStream position) as [c |] eqn:Hread;
    [| defined_inv Hrun; exact Hpos].
  apply nth_error_Some_lt in Hread.
  destruct (c =? RIGHT_PARENTHESIS); [defined_inv Hrun; lia |].
  destruct (IsWhitespace c).
  { pose proof (advance_while_within IsWhitespace inputStream (S position)) as Hskip.
    set (p1 := advance_while IsWhitespace (skipn (S position) inputStream) (S position)) in *.
    specialize (Hskip ltac:(lia)).
    destruct (p1 =? length inputStream)%nat; [defined_inv Hrun; exact Hskip |].
    bind_inv Hrun. unfold read in Ecall.
    destruct (nth_error inputStream p1) eqn:Hnext; [| discriminate].
    apply nth_error_Some_lt in Hnext.
    destruct (a =? RIGHT_PARENTHESIS); [defined_inv Hrun; lia |].
    eapply ConsumeURL_bad_within; [| exact Hrun]. exact Hskip. }
  destruct ((c =? QUOTATION_MARK) || (c =? APOSTROPHE) || (c =? LEFT_PARENTHESIS)
            || IsNonPrintable c);
    [eapply ConsumeURL_bad_within; [| exact Hrun]; lia |].
  destruct (c =? REVERSE_SOLIDUS); [| eapply IH; [| exact Hrun]; lia].
  destruct (AreTwoCodePointsValidEscape inputStream (S position - 1));
    [| eapply ConsumeURL_bad_within; [| exact Hrun]; lia].
  bind_inv Hrun. destruct a as [[ok0 p0] raw].
  apply ConsumeEscapedCodePoint_within in Ecall; [| lia].
  destruct (negb ok0); [defined_inv Hrun; exact Ecall |].
  destruct raw; [eapply IH; [| exact Hrun]; exact Ecall | discriminate].
Qed.

Lemma ConsumeIdentLikeToken_within (inputStream : list CodePoint) (position : SizeType)
    (ok : bool) (position' : SizeType) (token : option Token) :
  (position <= length inputStream)%nat ->
  ConsumeIdentLikeToken inputStream position = Defined (ok, position', token) ->
  (position' <= length inputStream)%nat.
Proof.
  intros Hpos Hrun. unfold ConsumeIdentLikeToken in Hrun.
  bind_inv Hrun. destruct a as [[ok0 p0] string].
  apply ConsumeIdentSequence_loop_within in Ecall; [| exact Hpos].
  destruct (negb ok0); [defined_inv Hrun; exact Ecall |].
  destruct string as [string |]; [| discriminate].
  destruct (is_url string && test_at (fun c => c =? LEFT_PARENTHESIS) inputStream p0)
    eqn:Hurl.
  - apply andb_true_iff in Hurl. destruct Hurl as [_ Hparen].
    apply test_at_lt in Hparen.
    pose proof (ConsumeIdentLikeToken_skip_le (skipn (S p0) inputStream) (S p0)) as Hskip.
    rewrite length_skipn in Hskip.
    set (p1 := ConsumeIdentLikeToken_skip (skipn (S p0) inputStream) (S p0)) in *.
    cbv zeta in Hrun.
    match type of Hrun with
    | (if ?b then _ else _) = _ => destruct b
    end.
    + defined_inv Hrun. lia.
    + unfold ConsumeURL in Hrun. cbv zeta in Hrun.
      eapply ConsumeURL_loop_within; [| exact Hrun].
      apply advance_while_within. lia.
  - destruct (test_at (fun c => c =? LEFT_PARENTHESIS) inputStream p0);
      defined_inv Hrun; exact Ecall.
Qed.

(** X28.  Whenever [ConsumeToken] returns, with true or with false, the
    cursor it leaves is at most the size of [inputStream], provided the
    cursor it was given was. *)
Theorem cursor_stays_within_input (inputStream : list CodePoint) (position : SizeType)
    (ok : bool) (position' : SizeType) (token : option Token) :
  (position <= length inputStream)%nat ->
  ConsumeToken inputStream position = Defined (ok, position', token) ->
  (position' <= length inputStream)%nat.
Proof.
  intros Hpos Hrun. unfold ConsumeToken in Hrun.
  pose proof (ConsumeComments_within inputStream position Hpos) as Hcomments.
  destruct (ConsumeComments inputStream position) as [okc p]. cbn [snd] in Hcomments.
  destruct (negb okc); [defined_inv Hrun; exact Hcomments |].
  destruct (p =? length inputStream)%nat; [defined_inv Hrun; exact Hcomments |].
  bind_inv Hrun. rename a into c. unfold read in Ecall.
  destruct (nth_error inputStream p) as [c' |] eqn:Hread; [| discriminate].
  injection Ecall as ->. apply nth_error_Some_lt in Hread.
  replace (S p - 1)%nat with p in Hrun by lia.
  destruct (IsWhitespace c).
  { unfold ConsumeWhitespace in Hrun.
    pose proof (advance_while_within IsWhitespace inputStream (S p) ltac:(lia)) as Hspace.
    defined_inv Hrun. exact Hspace. }
  destruct (c =? QUOTATION_MARK).
  { eapply ConsumeStringToken_loop_within; [| exact Hrun]. lia. }
  destruct (c =? NUMBER_SIGN).
  { bind_inv Hrun.
    destruct (IsIdent a || AreTwoCodePointsValidEscape inputStream (S p));
      [| defined_inv Hrun; lia].
    bind_inv Hrun. destruct a0 as [[ok0 p0] ident].
    apply ConsumeIdentSequence_loop_within in Ecall0; [| lia].
    destruct (negb ok0); [defined_inv Hrun; exact Ecall0 |].
    destruct ident; [defined_inv Hrun; exact Ecall0 | discriminate]. }
  destruct (c =? APOSTROPHE).
  { eapply ConsumeStringToken_loop_within; [| exact Hrun]. lia. }
  destruct (c =? LEFT_PARENTHESIS); [defined_inv Hrun; lia |].
  destruct (c =? RIGHT_PARENTHESIS); [defined_inv Hrun; lia |].
  destruct (c =? PLUS_SIGN).
  { destruct (DoThreeCodePointsStartNumber inputStream p); [| defined_inv Hrun; lia].
    eapply ConsumeNumericToken_within; [| exact Hrun]. lia. }
  destruct (c =? COMMA); [defined_inv Hrun; lia |].
  destruct (c =? HYPHEN_MINUS).
  { destruct (DoThreeCodePointsStartNumber inputStream p).
    { eapply ConsumeNumericToken_within; [| exact Hrun]. lia. }
    match type of Hrun with
    | (if ?a && ?b then _ else _) = _ => destruct b eqn:Hafter
    end.
    { apply test_at_lt in Hafter.
      rewrite andb_true_r in Hrun.
      match type of Hrun with
      | (if ?a then _ else _) = _ => destruct a
      end; [defined_inv Hrun; lia |].
      destruct (DoThreeCodePointsStartIndentSequence inputStream p);
        [| defined_inv Hrun; lia].
      eapply ConsumeIdentLikeToken_within; [| exact Hrun]. lia. }
    rewrite andb_false_r in Hrun.
    destruct (DoThreeCodePointsStartIndentSequence inputStream p);
      [| defined_inv Hrun; lia].
    eapply ConsumeIdentLikeToken_within; [| exact Hrun]. lia. }
  destruct (c =? FULL_STOP).
  { destruct (DoThreeCodePointsStartNumber inputStream p); [| defined_inv Hrun; lia].
    eapply ConsumeNumericToken_within; [| exact Hrun]. lia. }
  destruct (c =? COLON); [defined_inv Hrun; lia |].
  destruct (c =? SEMI_COLON); [defined_inv Hrun; lia |].
  destruct (c =? LESS_THAN_SIGN).
  { match type of Hrun with
    | (if ?a && ?b then _ else _) = _ => destruct b eqn:Hafter
    end.
    - apply test_at_lt in Hafter.
      match type of Hrun with
      | (if ?a then _ else _) = _ => destruct a
      end; defined_inv Hrun; lia.
    - rewrite andb_false_r in Hrun. defined_inv Hrun. lia. }
  destruct (c =? COMMERCIAL_AT).
  { destruct (DoThreeCodePointsStartIndentSequence inputStream p);
      [| defined_inv Hrun; lia].
    bind_inv Hrun. destruct a as [[ok0 p0] ident].
    apply ConsumeIdentSequence_loop_within in Ecall; [| lia].
    destruct (negb ok0); [defined_inv Hrun; exact Ecall |].
    destruct ident; [defined_inv Hrun; exact Ecall | discriminate]. }
  destruct (c =? LEFT_SQUARE_BRACKET); [defined_inv Hrun; lia |].
  destruct (c =? LEFT_CURLY_BRACKET); [defined_inv Hrun; lia |].
  destruct (c =? RIGHT_CURLY_BRACKET); [defined_inv Hrun; lia |].
  destruct (IsDigit c).
  { eapply ConsumeNumericToken_within; [| exact Hrun]. lia. }
  destruct (IsIdentStart c).
  { eapply ConsumeIdentLikeToken_within; [| exact Hrun]. lia. }
  defined_inv Hrun. lia.
Qed.

Lemma cursor_stays_within_input_witness :
  (8 <= length [0x75; 0x72; 0x6C; 0x28; 0x61; 0x22; 0x5C; 0x62]%Z)%nat.
Proof.
  apply (cursor_stays_within_input [0x75; 0x72; 0x6C; 0x28; 0x61; 0x22; 0x5C; 0x62] 0
           true 8 (Some BadURL)).
  - cbn [length]. lia.
  - reflexivity.
Defined.

(** ** Percentages, and the end of the loop *)

Lemma ConsumeNumber_integer (pre : list CodePoint) (digit : CodePoint)
    (digits rest : list CodePoint) :
  Forall (fun c => IsDigit c = true) (digit :: digits) ->
  stops_at (fun c => IsDigit c || (c =? FULL_STOP)
                     || (c =? LATIN_CAPITAL_LETTER_E) || (c =? LATIN_SMALL_LETTER_E)) rest ->
  ConsumeNumber (pre ++ (digit :: digits) ++ rest) (length pre)
  = Defined (true, length (pre ++ digit :: digits),
             Some (mkNumberTokenValue
                     (AsInt64 (decimal_value (digit :: digits) mod 2 ^ 32)) true)).
Proof.
  intros Hall Hstop. inversion Hall as [| c l Hdigit Hdigits]; subst.
  pose proof (IsDigit_range _ Hdigit) as Hrange.
  unfold ConsumeNumber.
  replace (length pre =? length (pre ++ (digit :: digits) ++ rest))%nat with false
    by (symmetry; apply Nat.eqb_neq; rewrite length_app; cbn [length app]; lia).
  unfold read. cbn [app]. rewrite nth_error_middle. cbn [bind].
  replace (digit =? PLUS_SIGN) with false
    by (symmetry; apply Z.eqb_neq; unfold PLUS_SIGN; lia).
  replace (digit =? HYPHEN_MINUS) with false
    by (symmetry; apply Z.eqb_neq; unfold HYPHEN_MINUS; lia).
  cbn [orb]. rewrite skipn_behind.
  assert (Hdigitstop : stops_at IsDigit rest).
  { destruct rest as [| c rest]; [exact I |]. cbn [stops_at] in *.
    apply orb_false_iff in Hstop. destruct Hstop as [Hstop _].
    apply orb_false_iff in Hstop. destruct Hstop as [Hstop _].
    apply orb_false_iff in Hstop. apply Hstop. }
  pose proof (push_while_run IsDigit (digit :: digits) rest (length pre) [] Hall Hdigitstop)
    as Hpush.
  cbn [app] in Hpush. rewrite Hpush.
  replace (length pre + length (digit :: digits))%nat with (length (pre ++ digit :: digits))
    by (rewrite length_app; reflexivity).
  change (pre ++ digit :: digits ++ rest) with (pre ++ (digit :: digits) ++ rest).
  rewrite app_assoc.
  destruct rest as [| c rest].
  - rewrite app_nil_r.
    assert (Hnone : nth_error (pre ++ digit :: digits) (length (pre ++ digit :: digits))
                    = None) by (apply nth_error_None; lia).
    repeat (rewrite Hnone; cbv beta iota zeta).
    rewrite (ConvertStringToNumber_digits digit digits Hall). reflexivity.
  - cbn [stops_at] in Hstop.
    apply orb_false_iff in Hstop. destruct Hstop as [Hstop Hsmall].
    apply orb_false_iff in Hstop. destruct Hstop as [Hstop Hcapital].
    apply orb_false_iff in Hstop. destruct Hstop as [_ Hfull].
    rewrite nth_error_middle.
    destruct (nth_error ((pre ++ digit :: digits) ++ c :: rest)
                (length (pre ++ digit :: digits) + 1)) as [c1 |].
    + rewrite Hfull. cbn [andb]. cbv beta iota zeta.
      rewrite nth_error_middle.
      destruct (nth_error ((pre ++ digit :: digits) ++ c :: rest)
                  (length (pre ++ digit :: digits) + 1)) as [c1' |];
        rewrite ?Hcapital, ?Hsmall; cbn [orb]; cbv beta iota zeta;
        rewrite (ConvertStringToNumber_digits digit digits Hall); reflexivity.
    + cbv beta iota zeta. rewrite nth_error_middle.
      destruct (nth_error ((pre ++ digit :: digits) ++ c :: rest)
                  (length (pre ++ digit :: digits) + 1)) as [c1' |];
        rewrite ?Hcapital, ?Hsmall; cbn [orb]; cbv beta iota zeta;
        rewrite (ConvertStringToNumber_digits digit digits Hall); reflexivity.
Qed.

(** X29.  An unsigned integer directly followed by a percentage sign
    becomes one percentage token that holds the integer, and the cursor is
    left behind the sign. *)
Theorem integer_percentage (pre : list CodePoint) (digit : CodePoint)
    (digits rest : list CodePoint) :
  Forall (fun c => IsDigit c = true) (digit :: digits) ->
  ConsumeToken (pre ++ (digit :: digits) ++ PERCENTAGE_SIGN :: rest) (length pre)
  = Defined (true, (length pre + length (digit :: digits) + 1)%nat,
             Some (Percentage
                     (mkNumberTokenValue
                        (AsInt64 (decimal_value (digit :: digits) mod 2 ^ 32)) true))).
Proof.
  intros Hall.
  rewrite (ConsumeToken_digit _ _ digit)
    by (first [apply nth_error_middle | inversion Hall; assumption]).
  unfold ConsumeNumericToken.
  rewrite (ConsumeNumber_integer pre digit digits (PERCENTAGE_SIGN :: rest) Hall eq_refl).
  cbn [bind negb]. rewrite app_assoc.
  replace (DoThreeCodePointsStartIndentSequence
             ((pre ++ digit :: digits) ++ PERCENTAGE_SIGN :: rest)
             (length (pre ++ digit :: digits))) with false.
  2:{ symmetry. unfold DoThreeCodePointsStartIndentSequence.
      rewrite nth_error_middle.
      match goal with
      | |- (if ?b then _ else _) = _ => destruct b; reflexivity
      end. }
  unfold read. rewrite nth_error_middle. cbn [bind].
  change (PERCENTAGE_SIGN =? PERCENTAGE_SIGN) with true. cbv iota.
  rewrite length_app. do 3 f_equal. lia.
Qed.

Lemma integer_percentage_witness :
  ConsumeToken ([0x3A] ++ (0x35 :: [0x30]) ++ PERCENTAGE_SIGN :: [0x3B]) (length [0x3A])
  = Defined (true, (length [0x3A] + length (0x35 :: [0x30]) + 1)%nat,
             Some (Percentage
                     (mkNumberTokenValue
                        (AsInt64 (decimal_value (0x35 :: [0x30]) mod 2 ^ 32)) true))).
Proof.
  apply (integer_percentage [0x3A] 0x35 [0x30] [0x3B]). repeat constructor.
Defined.

(** X30.  The loop of [TokenizeCodePoints] comes to an end on every input:
    the call returns, or it reaches behaviour that C++ leaves undefined. *)
Theorem TokenizeCodePoints_returns (inputStream : list CodePoint) (output : list Token) :
  (exists (ok : bool) (output' : list Token),
      TokenizeCodePoints inputStream output = Defined (ok, output'))
  \/ exists u : UB, TokenizeCodePoints inputStream output = Undefined u.
Proof.
  pose proof (TokenizeCodePoints_loop_terminates inputStream
                (rounds inputStream 0) 0 output) as Hloop.
  unfold TokenizeCodePoints.
  destruct (TokenizeCodePoints_loop (rounds inputStream 0) inputStream 0 output)
    as [[ok output'] | u |].
  - left. exists ok, output'. reflexivity.
  - right. exists u. reflexivity.
  - exfalso. apply Hloop. unfold rounds. lia.
Qed.
